(** * zenzone: [static/js/recorder.js]

    A shallow embedding of [encodeWAV] (recorder.js, lines 85-132) and of
    [writeString] (lines 134-138), together with the host objects they
    touch: JavaScript numbers, [Float32Array], [ArrayBuffer], [DataView],
    [AudioBuffer] and [Blob]; then of the rest of the file: [onStop]
    (lines 37-82), which calls [encodeWAV] and uploads its result, and the
    recording controls (lines 2-35).

    The imperative code is embedded in a state-and-exception monad over a
    heap of JavaScript objects, so that object identity (the channel arrays
    of the [AudioBuffer] are shared with the caller, the interleaved array
    and the output buffer are allocated by [encodeWAV]) is part of the
    model. *)

From Stdlib Require Import ZArith QArith Qround Qabs String Ascii Lia Lqa.
From Stdlib Require Import SpecFloat DecimalString.
From stdpp Require Import base list.

Local Open Scope Z_scope.

(** ** JavaScript numbers

    A number is [NaN], an infinity, or a finite value.  Finite values are
    carried as exact rationals and the two zeros are identified: [-0]
    behaves like [+0] under every operation [encodeWAV] performs
    ([Math.min], [Math.max], [<], [*] and the integer conversions of the
    [DataView] setters, which all send [-0] to [0]).

    Arithmetic on finite values is exact.  This is what the binary64
    arithmetic of the host computes on the values [encodeWAV] meets: the
    elements of a [Float32Array] have a 24-bit significand, clamping leaves
    them unchanged or replaces them by [1] or [-1], and their products with
    [0x8000] (a power of two) and with [0x7fff] (15 bits, so at most 39
    significant bits in the product) are representable in binary64 without
    rounding; a sample rate is multiplied by [1], [2] or [4].  The lemmas
    [binary64_quantize], [binary64_leb] and [binary64_byte_rate] below
    prove it against the IEEE 754 operations of [SpecFloat]. *)

Inductive number : Type :=
| NaN : number
| Infinity (negative : bool) : number
| Fin (q : Q) : number.

Definition of_Z (z : Z) : number := Fin (inject_Z z).
Definition of_nat (n : nat) : number := of_Z (Z.of_nat n).

Definition Qltb (a b : Q) : bool := negb (Qle_bool b a).

(** The relational operators [x < y] and [x <= y]: false as soon as an
    operand is [NaN]. *)
Definition num_ltb (x y : number) : bool :=
  match x, y with
  | NaN, _ | _, NaN => false
  | Infinity nx, Infinity ny => nx && negb ny
  | Infinity nx, Fin _ => nx
  | Fin _, Infinity ny => negb ny
  | Fin a, Fin b => Qltb a b
  end.

Definition num_leb (x y : number) : bool :=
  match x, y with
  | NaN, _ | _, NaN => false
  | Infinity nx, Infinity ny => nx || negb ny
  | Infinity nx, Fin _ => nx
  | Fin _, Infinity ny => negb ny
  | Fin a, Fin b => Qle_bool a b
  end.

(** The operator [x * y]. *)
Definition num_mul (x y : number) : number :=
  match x, y with
  | NaN, _ | _, NaN => NaN
  | Fin a, Fin b => Fin (a * b)
  | Infinity n, Fin q | Fin q, Infinity n =>
      if Qeq_bool q 0 then NaN else Infinity (xorb n (Qltb q 0))
  | Infinity n, Infinity m => Infinity (xorb n m)
  end.

(** [Math.min(x, y)] and [Math.max(x, y)]: [NaN] if an argument is. *)
Definition Math_min (x y : number) : number :=
  match x, y with
  | NaN, _ | _, NaN => NaN
  | _, _ => if num_ltb y x then y else x
  end.

Definition Math_max (x y : number) : number :=
  match x, y with
  | NaN, _ | _, NaN => NaN
  | _, _ => if num_ltb x y then y else x
  end.

(** [ToNumber] of the result of an indexed read: [undefined] (an index out
    of range, here [None]) becomes [NaN]. *)
Definition ToNumber (v : option number) : number :=
  match v with Some x => x | None => NaN end.

(** Truncation toward zero of a finite value. *)
Definition Qtrunc (q : Q) : Z := Z.quot (Qnum q) (Zpos (Qden q)).

(** The integer conversions applied by the [DataView] setters:
    [NaN] and the infinities give [0], a finite value is truncated toward
    zero and reduced modulo [2^w]; the signed conversion maps the upper
    half of the range to the negative numbers. *)
Definition ToUintN (w : Z) (v : number) : Z :=
  match v with
  | Fin q => Qtrunc q mod 2 ^ w
  | _ => 0
  end.

Definition ToUint8 := ToUintN 8.
Definition ToUint16 := ToUintN 16.
Definition ToUint32 := ToUintN 32.

Definition ToInt16 (v : number) : Z :=
  let k := ToUintN 16 v in
  if 2 ^ 15 <=? k then k - 2 ^ 16 else k.

(** ** The heap of host objects *)

Inductive object : Type :=
| Float32Array (elements : list number)
| ArrayBuffer (bytes : list Z).

Abbreviation Heap := (list object).
Abbreviation ref := nat (only parsing).

Inductive exn : Type := IndexSizeError | RangeError | TypeError.

Definition M (A : Type) : Type := Heap -> exn + (A * Heap).

Definition ret {A} (a : A) : M A := fun h => inr (a, h).

Definition bind {A B} (m : M A) (k : A -> M B) : M B :=
  fun h => match m h with
           | inl e => inl e
           | inr (a, h') => k a h'
           end.

Definition throw {A} (e : exn) : M A := fun _ => inl e.

Declare Scope js_scope.
Delimit Scope js_scope with js.
Notation "x <- m ;; k" := (bind m (fun x => k))
  (at level 100, m at next level, right associativity) : js_scope.
Notation "m ;;; k" := (bind m (fun _ => k))
  (at level 100, right associativity) : js_scope.

(** [for (let i = 0; i < n; i++) body], threading the loop-carried local
    variable ([idx], [offset]) through the iterations.  The bound of both
    loops of [encodeWAV] is the [length] of a typed array, which never
    changes, so it is read once. *)
Fixpoint for_loop {L} (n i : nat) (body : nat -> L -> M L) (s : L) : M L :=
  match n with
  | O => ret s
  | S n' => bind (body i s) (for_loop n' (S i) body)
  end.

Local Open Scope js_scope.

(** *** Typed arrays

    [new Float32Array(len)] allocates a zero-filled array.  An indexed
    read out of range yields [undefined]; an indexed write out of range is
    ignored, and the value written goes through [ToNumber].  (A write also
    rounds to binary32; every value [encodeWAV] writes was read from a
    [Float32Array], so the rounding is the identity.)  [slice(start)]
    allocates a new array holding a copy of the elements from [start]. *)

Definition new_Float32Array (len : nat) : M ref :=
  fun h => inr (length h, h ++ [Float32Array (replicate len (Fin 0))]).

Definition ta_length (a : ref) : M nat :=
  fun h => match h !! a with
           | Some (Float32Array l) => inr (length l, h)
           | _ => inl TypeError
           end.

Definition ta_get (a : ref) (i : nat) : M (option number) :=
  fun h => match h !! a with
           | Some (Float32Array l) => inr (l !! i, h)
           | _ => inl TypeError
           end.

Definition ta_set (a : ref) (i : nat) (v : option number) : M unit :=
  fun h => match h !! a with
           | Some (Float32Array l) =>
               inr (tt, <[a := Float32Array (<[i := ToNumber v]> l)]> h)
           | _ => inl TypeError
           end.

Definition ta_slice (a : ref) (start : nat) : M ref :=
  fun h => match h !! a with
           | Some (Float32Array l) =>
               inr (length h, h ++ [Float32Array (drop start l)])
           | _ => inl TypeError
           end.

(** *** AudioBuffer

    The host object handed to [encodeWAV].  Its channels are
    [Float32Array] objects of the heap; [getChannelData(channel)] returns
    the array itself and raises [IndexSizeError] when [channel] is not less
    than [numberOfChannels]. *)

Module AudioBuffer.

Record t : Type := {
  sampleRate : number;
  length : nat;
  channels : list ref
}.

Definition numberOfChannels (b : t) : nat := List.length (channels b).

End AudioBuffer.

Definition getChannelData (audioBuffer : AudioBuffer.t) (channel : nat) : M ref :=
  match AudioBuffer.channels audioBuffer !! channel with
  | Some a => ret a
  | None => throw IndexSizeError
  end.

(** *** ArrayBuffer and DataView

    [new ArrayBuffer(n)] allocates [n] zero bytes (allocation has no
    size limit here: running out of memory is not modelled).  A
    [DataView] over the whole buffer is identified with the buffer it
    views.  A setter converts
    its argument to the integer type of the field, lays the integer out in
    two's complement, least significant byte first when [littleEndian] is
    true, and stores the bytes; it raises [RangeError] when the field does
    not lie within the view. *)

Definition new_ArrayBuffer (n : nat) : M ref :=
  fun h => inr (length h, h ++ [ArrayBuffer (replicate n 0)]).

Definition new_DataView (buffer : ref) : M ref := ret buffer.

Fixpoint le_bytes (size : nat) (v : Z) : list Z :=
  match size with
  | O => []
  | S k => v mod 256 :: le_bytes k (v / 256)
  end.

Definition NumericToRawBytes (size : nat) (intValue : Z) (littleEndian : bool)
  : list Z :=
  if littleEndian then le_bytes size intValue else rev (le_bytes size intValue).

Fixpoint store (byteIndex : nat) (raw : list Z) (block : list Z) : list Z :=
  match raw with
  | [] => block
  | b :: raw' => store (S byteIndex) raw' (<[byteIndex := b]> block)
  end.

Definition SetViewValue (view : ref) (requestIndex : nat) (raw : list Z) : M unit :=
  fun h => match h !! view with
           | Some (ArrayBuffer block) =>
               if (requestIndex + length raw <=? length block)%nat
               then inr (tt, <[view := ArrayBuffer (store requestIndex raw block)]> h)
               else inl RangeError
           | _ => inl TypeError
           end.

Definition setUint8 (view : ref) (byteOffset : nat) (value : number) : M unit :=
  SetViewValue view byteOffset (NumericToRawBytes 1 (ToUint8 value) true).

Definition setUint16 (view : ref) (byteOffset : nat) (value : number)
    (littleEndian : bool) : M unit :=
  SetViewValue view byteOffset (NumericToRawBytes 2 (ToUint16 value) littleEndian).

Definition setInt16 (view : ref) (byteOffset : nat) (value : number)
    (littleEndian : bool) : M unit :=
  SetViewValue view byteOffset (NumericToRawBytes 2 (ToInt16 value) littleEndian).

Definition setUint32 (view : ref) (byteOffset : nat) (value : number)
    (littleEndian : bool) : M unit :=
  SetViewValue view byteOffset (NumericToRawBytes 4 (ToUint32 value) littleEndian).

(** *** Blob

    [new Blob(parts, {type})] takes a snapshot of the bytes of its parts. *)

Record Blob : Type := { blob_bytes : list Z; blob_type : string }.

Definition view_bytes (view : ref) : M (list Z) :=
  fun h => match h !! view with
           | Some (ArrayBuffer block) => inr (block, h)
           | _ => inl TypeError
           end.

Fixpoint parts_bytes (parts : list ref) : M (list Z) :=
  match parts with
  | [] => ret []
  | v :: parts' =>
      b <- view_bytes v ;; rest <- parts_bytes parts' ;; ret (b ++ rest)
  end.

Definition new_Blob (parts : list ref) (type : string) : M Blob :=
  b <- parts_bytes parts ;; ret {| blob_bytes := b; blob_type := type |}.

(** ** recorder.js *)

(** A string whose characters are read: the sequence of its UTF-16 code
    units, each in the range 0..65535 (a character outside the basic
    plane is two of them).  [string.length] is the number of code units
    and [string.charCodeAt(i)] the code unit at [i], [NaN] out of range.
    [char_codes] gives the code units of a literal of 8-bit characters,
    as the tags of the header are. *)
Definition JSString : Type := list Z.

Definition char_codes (s : string) : JSString :=
  map (fun c => Z.of_nat (nat_of_ascii c)) (list_ascii_of_string s).

Definition charCodeAt (s : JSString) (i : nat) : number :=
  match s !! i with
  | Some c => of_Z c
  | None => NaN
  end.

(** [writeString(view, offset, string)], lines 134-138. *)
Definition writeString (view : ref) (offset : nat) (s : JSString) : M unit :=
  for_loop (length s) 0
    (fun i _ => setUint8 view (offset + i) (charCodeAt s i)) tt.

(** Lines 91-103 of [encodeWAV]: the interleaved (pre-quantization)
    sample array. *)
Definition interleave (audioBuffer : AudioBuffer.t) (numChannels : nat) : M ref :=
  if (numChannels =? 2)%nat then
    ch0 <- getChannelData audioBuffer 0 ;;
    ch1 <- getChannelData audioBuffer 1 ;;
    ch0_length <- ta_length ch0 ;;
    ch1_length <- ta_length ch1 ;;
    interleaved <- new_Float32Array (ch0_length + ch1_length) ;;
    _ <- for_loop ch0_length 0
           (fun i idx =>
              x <- ta_get ch0 i ;;
              ta_set interleaved idx x ;;;
              y <- ta_get ch1 i ;;
              ta_set interleaved (idx + 1) y ;;;
              ret (idx + 2)%nat) 0%nat ;;
    ret interleaved
  else
    ch0 <- getChannelData audioBuffer 0 ;;
    ta_slice ch0 0.

(** Line 127, [Math.max(-1, Math.min(1, x))], and the argument of
    [setInt16] on line 128, [s < 0 ? s * 0x8000 : s * 0x7fff]. *)
Definition clamp (x : number) : number :=
  Math_max (of_Z (-1)) (Math_min (of_Z 1) x).

Definition scale (s : number) : number :=
  if num_ltb s (of_Z 0) then num_mul s (of_Z 0x8000) else num_mul s (of_Z 0x7fff).

(** Lines 109-121: the header. *)
Definition write_header (view : ref) (numChannels : nat) (sampleRate : number)
    (interleaved_length : nat) : M unit :=
  writeString view 0 (char_codes "RIFF") ;;;
  setUint32 view 4 (of_nat (36 + interleaved_length * 2)) true ;;;
  writeString view 8 (char_codes "WAVE") ;;;
  writeString view 12 (char_codes "fmt ") ;;;
  setUint32 view 16 (of_Z 16) true ;;;
  setUint16 view 20 (of_Z 1) true ;;;
  setUint16 view 22 (of_nat numChannels) true ;;;
  setUint32 view 24 sampleRate true ;;;
  setUint32 view 28 (num_mul (num_mul sampleRate (of_nat numChannels)) (of_Z 2)) true ;;;
  setUint16 view 32 (of_nat (numChannels * 2)) true ;;;
  setUint16 view 34 (of_Z 16) true ;;;
  writeString view 36 (char_codes "data") ;;;
  setUint32 view 40 (of_nat (interleaved_length * 2)) true.

(** Lines 124-129: the PCM samples. *)
Definition write_samples (view : ref) (interleaved : ref) (interleaved_length : nat)
  : M nat :=
  for_loop interleaved_length 0
    (fun i offset =>
       x <- ta_get interleaved i ;;
       let s := clamp (ToNumber x) in
       setInt16 view offset (scale s) true ;;;
       ret (offset + 2)%nat) 44%nat.

(** [encodeWAV(audioBuffer)], lines 85-132. *)
Definition encodeWAV (audioBuffer : AudioBuffer.t) : M Blob :=
  let numChannels := Nat.min 2 (AudioBuffer.numberOfChannels audioBuffer) in
  let sampleRate := AudioBuffer.sampleRate audioBuffer in
  let samples := (AudioBuffer.length audioBuffer * numChannels)%nat in
  interleaved <- interleave audioBuffer numChannels ;;
  interleaved_length <- ta_length interleaved ;;
  buffer <- new_ArrayBuffer (44 + interleaved_length * 2) ;;
  view <- new_DataView buffer ;;
  write_header view numChannels sampleRate interleaved_length ;;;
  _ <- write_samples view interleaved interleaved_length ;;
  new_Blob [view] "audio/wav".

(** ** What the stages compute

    Pure descriptions of the results of the two loops and of the header,
    proved below to be what the embedded code leaves in the heap. *)

(** The quantized value of a sample: the signed 16-bit integer that
    [setInt16] stores for it (lines 127-128). *)
Definition quantize (x : number) : Z := ToInt16 (scale (clamp x)).

(** The array the stereo loop (lines 96-100) leaves behind, iteration by
    iteration. *)
Fixpoint interleave_loop (n i idx : nat) (c0 c1 cur : list number) : list number :=
  match n with
  | O => cur
  | S n' =>
      interleave_loop n' (S i) (idx + 2) c0 c1
        (<[(idx + 1)%nat := ToNumber (c1 !! i)]> (<[idx := ToNumber (c0 !! i)]> cur))
  end.

Definition interleaved_of (c0 c1 : list number) : list number :=
  interleave_loop (length c0) 0 0 c0 c1
    (replicate (length c0 + length c1) (Fin 0)).

(** Samples of two channels alternating by frame. *)
Fixpoint alternate (c0 c1 : list number) : list number :=
  match c0, c1 with
  | x :: c0', y :: c1' => x :: y :: alternate c0' c1'
  | _, _ => []
  end.

(** The bytes [writeString] stores for a string: [setUint8] keeps the
    low 8 bits of each code unit. *)
Definition low_bytes (s : JSString) : list Z := map (fun c => c mod 256) s.

Definition header_bytes (numChannels : nat) (sampleRate : number) (n : nat) : list Z :=
  char_codes "RIFF"
  ++ le_bytes 4 (ToUint32 (of_nat (36 + n * 2)))
  ++ char_codes "WAVE"
  ++ char_codes "fmt "
  ++ le_bytes 4 (ToUint32 (of_Z 16))
  ++ le_bytes 2 (ToUint16 (of_Z 1))
  ++ le_bytes 2 (ToUint16 (of_nat numChannels))
  ++ le_bytes 4 (ToUint32 sampleRate)
  ++ le_bytes 4 (ToUint32 (num_mul (num_mul sampleRate (of_nat numChannels)) (of_Z 2)))
  ++ le_bytes 2 (ToUint16 (of_nat (numChannels * 2)))
  ++ le_bytes 2 (ToUint16 (of_Z 16))
  ++ char_codes "data"
  ++ le_bytes 4 (ToUint32 (of_nat (n * 2))).

Definition pcm_bytes (samples : list number) : list Z :=
  flat_map (fun x => le_bytes 2 (quantize x)) samples.

Definition wav_bytes (numChannels : nat) (sampleRate : number)
    (samples : list number) : list Z :=
  header_bytes numChannels sampleRate (length samples) ++ pcm_bytes samples.

Definition wav_blob (numChannels : nat) (sampleRate : number)
    (samples : list number) : Blob :=
  {| blob_bytes := wav_bytes numChannels sampleRate samples;
     blob_type := "audio/wav" |}.

(** ** Reading a container back

    Field readers used to state the layout of the output, independent of
    the setters above: a field is [size] bytes at [offset], and its value
    is the little-endian sum of its bytes. *)

Definition field (offset size : nat) (b : list Z) : list Z :=
  take size (drop offset b).

Definition le_value (b : list Z) : Z := foldr (fun x acc => x + 256 * acc) 0 b.

Definition uint_le (offset size : nat) (b : list Z) : Z :=
  le_value (field offset size b).

Definition signed16 (v : Z) : Z := if 2 ^ 15 <=? v then v - 2 ^ 16 else v.

Fixpoint int16s_le (b : list Z) : list Z :=
  match b with
  | lo :: hi :: b' => signed16 (le_value [lo; hi]) :: int16s_le b'
  | _ => []
  end.

(** ** Inputs

    [holds h audioBuffer data]: in heap [h], channel [c] of [audioBuffer]
    is an array with elements [data !! c].  [decoded_audio] builds such an
    input from the channel data. *)

Definition holds (h : Heap) (audioBuffer : AudioBuffer.t)
    (data : list (list number)) : Prop :=
  Forall2 (fun a c => h !! a = Some (Float32Array c))
          (AudioBuffer.channels audioBuffer) data.

(** The invariant of a decoded buffer: at least one channel, and every
    channel has [length] frames. *)
Definition well_formed (audioBuffer : AudioBuffer.t)
    (data : list (list number)) : Prop :=
  data <> [] /\
  Forall (fun c => length c = AudioBuffer.length audioBuffer) data.

Definition decoded_audio (sampleRate : number) (frames : nat)
    (data : list (list number)) : AudioBuffer.t * Heap :=
  ({| AudioBuffer.sampleRate := sampleRate;
      AudioBuffer.length := frames;
      AudioBuffer.channels := seq 0 (length data) |},
   Float32Array <$> data).

(** ** The quantization, in the words of the specification

    A sample is clamped to [[-1, 1]], scaled by 32768 when negative or zero
    and by 32767 when positive, and truncated toward zero.  [clamped] is
    the clamped value of a sample that is a number; [NaN] has none. *)

Definition clamp_value (q : Q) : Q :=
  if Qltb q (-1) then -1 else if Qltb 1 q then 1 else q.

Definition clamped (x : number) : option Q :=
  match x with
  | NaN => None
  | Infinity true => Some (-1)%Q
  | Infinity false => Some 1%Q
  | Fin q => Some (clamp_value q)
  end.

Definition scaled (c : Q) : Q :=
  if Qle_bool c 0 then c * 32768 else c * 32767.

(** A sample rate that is an integer number of hertz. *)
Definition integer_rate (audioBuffer : AudioBuffer.t) (rate : Z) : Prop :=
  AudioBuffer.sampleRate audioBuffer = of_Z rate /\ 0 < rate.

(** ** A reference decoder

    The parser of the round-trip property: it checks the chunk identifiers
    and the PCM format fields of the canonical 44-byte header, reads the
    channel count, the sample rate and the size of the data chunk, and
    returns the samples of the data chunk in file order, each 16-bit
    little-endian value divided by 32768.  The frame count is the size of
    the data chunk divided by the block alignment. *)

Record Decoded : Type := {
  d_channelCount : Z;
  d_sampleRate : Z;
  d_frameCount : Z;
  d_samples : list Q
}.

Definition normalize (v : Z) : Q := inject_Z v / 32768.

Definition reference_decode (b : list Z) : option Decoded :=
  if bool_decide (field 0 4 b = char_codes "RIFF")
     && bool_decide (field 8 4 b = char_codes "WAVE")
     && bool_decide (field 12 4 b = char_codes "fmt ")
     && (uint_le 16 4 b =? 16)
     && (uint_le 20 2 b =? 1)
     && (uint_le 34 2 b =? 16)
     && bool_decide (field 36 4 b = char_codes "data")
  then
    let dataSize := uint_le 40 4 b in
    Some {| d_channelCount := uint_le 22 2 b;
            d_sampleRate := uint_le 24 4 b;
            d_frameCount := dataSize / uint_le 32 2 b;
            d_samples := map normalize
                           (int16s_le (take (Z.to_nat dataSize) (drop 44 b))) |}
  else None.

(** The interleaved array [encodeWAV] builds from the channel data. *)
Definition interleaved_data (data : list (list number)) : list number :=
  match data with
  | c0 :: c1 :: _ => interleaved_of c0 c1
  | [c0] => c0
  | [] => []
  end.

(** ** Example inputs *)

(** Two frames, two channels: channel 0 = [0.0, 0.5], channel 1 =
    [-0.5, 1.0], at 48 kHz. *)
Definition stereo_example : AudioBuffer.t * Heap :=
  decoded_audio (of_Z 48000) 2 [[Fin 0; Fin (1 # 2)]; [Fin (-1 # 2); Fin 1]].

(** One channel holding the out-of-range samples +1.5 and -1.5. *)
Definition clipping_example : AudioBuffer.t * Heap :=
  decoded_audio (of_Z 48000) 2 [[Fin (3 # 2); Fin (-3 # 2)]].

(** One channel, one frame, the sample 32769/65536 = 0.5 + 2^-16. *)
Definition fine_sample_example : AudioBuffer.t * Heap :=
  decoded_audio (of_Z 48000) 1 [[Fin (32769 # 65536)]].

(** The same sample as a binary64 number: 32769 * 2^37 * 2^-53. *)
Definition fine_sample_binary64 : spec_float :=
  S754_finite false 4503737066323968 (-53).

(** One channel, one frame, at a sample rate of 2^32 Hz. *)
Definition high_rate_example : AudioBuffer.t * Heap :=
  decoded_audio (of_Z 4294967296) 1 [[Fin 0]].

(** No channel at all. *)
Definition no_channel_example : AudioBuffer.t * Heap :=
  decoded_audio (of_Z 48000) 0 [].

(** One channel, no frame. *)
Definition empty_mono_example : AudioBuffer.t * Heap :=
  decoded_audio (of_Z 48000) 0 [[]].

(** Three channels of two frames; the first two are those of
    [stereo_example]. *)
Definition surround_example : AudioBuffer.t * Heap :=
  decoded_audio (of_Z 48000) 2
    [[Fin 0; Fin (1 # 2)]; [Fin (-1 # 2); Fin 1]; [Fin 1; Fin 1]].

(** ** The layout of the header

    [canonical_header frameCount channelCount rate out]: the bytes [out]
    start with the 44-byte header of a PCM container for [frameCount]
    frames of [channelCount] input channels at [rate] Hz, the fields being
    read little-endian and every 32-bit field holding its value modulo
    2^32. *)
Definition canonical_header (frameCount channelCount : nat) (rate : Z)
    (out : list Z) : Prop :=
  let outputChannelCount := Z.of_nat (Nat.min 2 channelCount) in
  let payloadByteLength := Z.of_nat (length out) - 44 in
  payloadByteLength = Z.of_nat frameCount * outputChannelCount * 2
  /\ field 0 4 out = char_codes "RIFF"
  /\ uint_le 4 4 out = (36 + payloadByteLength) mod 2 ^ 32
  /\ field 8 4 out = char_codes "WAVE"
  /\ field 12 4 out = char_codes "fmt "
  /\ uint_le 16 4 out = 16
  /\ uint_le 20 2 out = 1
  /\ uint_le 22 2 out = outputChannelCount
  /\ uint_le 24 4 out = rate mod 2 ^ 32
  /\ uint_le 28 4 out = (rate * outputChannelCount * 2) mod 2 ^ 32
  /\ uint_le 32 2 out = outputChannelCount * 2
  /\ uint_le 34 2 out = 16
  /\ field 36 4 out = char_codes "data"
  /\ uint_le 40 4 out = payloadByteLength mod 2 ^ 32.

(** The same header when no 32-bit field wraps around. *)
Definition exact_header (channelCount : nat) (rate : Z) (out : list Z) : Prop :=
  let outputChannelCount := Z.of_nat (Nat.min 2 channelCount) in
  uint_le 4 4 out = Z.of_nat (length out) - 8
  /\ uint_le 24 4 out = rate
  /\ uint_le 28 4 out = rate * outputChannelCount * 2
  /\ uint_le 40 4 out = Z.of_nat (length out) - 44.

(** ** A valid container

    [valid_container out]: the bytes [out] are a canonical PCM file, as
    read from the bytes alone.  The four chunk identifiers are in place;
    the RIFF chunk size is the length of the file less the 8 bytes before
    it; the format chunk has 16 bytes and describes integer PCM (format
    tag 1) at 16 bits per sample, with at least one channel, a positive
    sample rate, a block alignment of two bytes per channel and a byte
    rate of one block per sample period; the data chunk runs from byte 44
    to the end of the file and holds a whole number of blocks. *)
Definition valid_container (out : list Z) : Prop :=
  let channelCount := uint_le 22 2 out in
  let sampleRate := uint_le 24 4 out in
  let blockAlign := uint_le 32 2 out in
  let dataSize := uint_le 40 4 out in
  field 0 4 out = char_codes "RIFF"
  /\ uint_le 4 4 out = Z.of_nat (length out) - 8
  /\ field 8 4 out = char_codes "WAVE"
  /\ field 12 4 out = char_codes "fmt "
  /\ uint_le 16 4 out = 16
  /\ uint_le 20 2 out = 1
  /\ 1 <= channelCount
  /\ 1 <= sampleRate
  /\ uint_le 28 4 out = sampleRate * blockAlign
  /\ blockAlign = channelCount * 2
  /\ uint_le 34 2 out = 16
  /\ field 36 4 out = char_codes "data"
  /\ dataSize = Z.of_nat (length out) - 44
  /\ dataSize mod blockAlign = 0.

(** ** IEEE 754 binary64, bit for bit

    The same computation on the floating-point numbers themselves
    ([spec_float] with 53 bits of precision), used below to check that the
    exact arithmetic of [number] is what the host computes for the
    elements of a [Float32Array].  [Math.min] and [Math.max] order [-0]
    before [+0]; [float32] holds of the numbers an element of a
    [Float32Array] can be: the special values, and the finite numbers
    whose 53-bit significand ends with at least 29 zero bits (more for
    the subnormal numbers of binary32) and whose exponent is in the range
    of binary32. *)

Module Binary64.

Definition mul : spec_float -> spec_float -> spec_float := SFmul 53 1024.

(** 1 = 2^52 * 2^-52, 0x8000 = 2^52 * 2^-37 and
    0x7fff = (32767 * 2^38) * 2^-38, in canonical form. *)
Definition one : spec_float := S754_finite false 4503599627370496 (-52).
Definition minus_one : spec_float := S754_finite true 4503599627370496 (-52).
Definition zero : spec_float := S754_zero false.
Definition x8000 : spec_float := S754_finite false 4503599627370496 (-37).
Definition x7fff : spec_float := S754_finite false 9006924376834048 (-38).

Definition is_nan (x : spec_float) : bool :=
  match x with S754_nan => true | _ => false end.

Definition sign_bit (x : spec_float) : bool :=
  match x with
  | S754_zero s | S754_infinity s | S754_finite s _ _ => s
  | S754_nan => false
  end.

Definition Math_min (x y : spec_float) : spec_float :=
  if is_nan x || is_nan y then S754_nan
  else if SFltb y x then y
  else if SFltb x y then x
  else if sign_bit y then y else x.

Definition Math_max (x y : spec_float) : spec_float :=
  if is_nan x || is_nan y then S754_nan
  else if SFltb x y then y
  else if SFltb y x then x
  else if sign_bit y then x else y.

Definition clamp (x : spec_float) : spec_float :=
  Math_max minus_one (Math_min one x).

Definition scale (s : spec_float) : spec_float :=
  if SFltb s zero then mul s x8000 else mul s x7fff.

Definition float32 (x : spec_float) : bool :=
  match x with
  | S754_finite _ m e =>
      (Zpos (digits2_pos m) =? 53)
      && (Zpos m mod 2 ^ Z.max 29 (-149 - e) =? 0)
      && (e <=? 75)
  | _ => true
  end.

(** The value [m * 2^e] of a finite number, as a rational. *)
Definition magnitude (m : positive) (e : Z) : Q :=
  if 0 <=? e then inject_Z (Zpos m * 2 ^ e)
  else Zpos m # Z.to_pos (2 ^ (- e)).

Definition to_number (x : spec_float) : number :=
  match x with
  | S754_nan => NaN
  | S754_infinity s => Infinity s
  | S754_zero _ => Fin 0
  | S754_finite s m e => Fin (if s then - magnitude m e else magnitude m e)
  end.

(** The value stored for the element [x]: the integer conversion of
    [setInt16] applies to the value of the scaled number. *)
Definition quantize (x : spec_float) : Z := ToInt16 (to_number (scale (clamp x))).

End Binary64.

(** ** The caller of [encodeWAV]: [onStop]

    [onStop] (lines 37-82) is an [async] function: it talks to the host
    (the recorded chunks, the audio decoder, the network, the callback and
    the status line of the page) and catches what they throw.  It is
    embedded as a [Script]: a tree whose nodes are the calls it makes, in
    program order, each continuing with the answer of the host.
    [await p] continues with the value of [p], or throws its rejection at
    the [await]. *)

(** What can be thrown: an exception of a host call inside [encodeWAV],
    a failure reported by the host (a rejected promise, an exception of a
    constructor or of the callback), or [new Error(message)]. *)
Inductive thrown : Type :=
| Raised (e : exn)
| HostFailure (name : string)
| Error (message : string).

(** The value of [resp.json()]. *)
#[warnings="-register-all"]
Inductive json : Type :=
| JNull
| JBool (b : bool)
| JNumber (n : number)
| JString (s : string)
| JArray (elements : list json)
| JObject (members : list (string * json)).

(** A [Response]: [ok] holds of the statuses 200 to 299. *)
Module Response.

Record t : Type := { status : nat; statusText : string }.

Definition ok (r : t) : bool := (200 <=? status r)%nat && (status r <=? 299)%nat.

End Response.

(** An entry of a [FormData]: [form.append(name, value, filename)]. *)
Record FormDataEntry : Type := {
  entry_name : string;
  entry_value : Blob;
  entry_filename : string
}.

(** [new Blob(parts, {type})] for parts that are blobs: their bytes, in
    order. *)
Definition Blob_of_blobs (parts : list Blob) (type : string) : Blob :=
  {| blob_bytes := concat (map blob_bytes parts); blob_type := type |}.

(** The buffer [decodeAudioData] resolves with, and the heap that holds
    its channel arrays. *)
Definition DecodedBuffer : Type := AudioBuffer.t * Heap.

(** The calls of [onStop], each with the type of the answer of the host.
    A call that can fail answers with what it throws ([Some e], [inl e]):
    reading the bytes of a blob, [new (window.AudioContext ||
    window.webkitAudioContext)()], [decodeAudioData], [fetch],
    [resp.json()] and the call of [window.onAnalyzeResult].
    [read_chunks] is the value of the variable [chunks],
    [read_onAnalyzeResult] tells whether [window.onAnalyzeResult] is
    truthy. *)
Inductive command : Type -> Type :=
| read_chunks : command (list Blob)
| blob_arrayBuffer (b : Blob) : command (option thrown)
| new_AudioContext : command (option thrown)
| decodeAudioData (arrayBuffer : list Z) : command (thrown + DecodedBuffer)
| console_warn (message : string) (e : thrown) : command unit
| console_error (e : thrown) : command unit
| set_status_innerText (text : string) : command unit
| fetch (url method : string) (body : list FormDataEntry)
    : command (thrown + Response.t)
| response_json (resp : Response.t) : command (thrown + json)
| read_onAnalyzeResult : command bool
| call_onAnalyzeResult (data : json) : command (option thrown).

Inductive Script (A : Type) : Type :=
| Return (a : A)
| Throw (e : thrown)
| Call (X : Type) (c : command X) (k : X -> Script A).

Arguments Return {A} a.
Arguments Throw {A} e.
Arguments Call {A X} c k.

Fixpoint script_bind {A B} (s : Script A) (k : A -> Script B) : Script B :=
  match s with
  | Return a => k a
  | Throw e => Throw e
  | Call c k' => Call c (fun x => script_bind (k' x) k)
  end.

(** [try { s } catch (e) { handler e }]. *)
Fixpoint try_catch {A} (s : Script A) (handler : thrown -> Script A) : Script A :=
  match s with
  | Return a => Return a
  | Throw e => handler e
  | Call c k => Call c (fun x => try_catch (k x) handler)
  end.

Definition perform {X} (c : command X) : Script X := Call c Return.

Definition await {X} (c : command (thrown + X)) : Script X :=
  Call c (fun r => match r with inl e => Throw e | inr x => Return x end).

Definition attempt (c : command (option thrown)) : Script unit :=
  Call c (fun r => match r with Some e => Throw e | None => Return tt end).

(** A synchronous computation on the heap [h], such as [encodeWAV]. *)
Definition on_heap {A} (h : Heap) (m : M A) : Script A :=
  match m h with
  | inl e => Throw (Raised e)
  | inr (a, _) => Return a
  end.

Declare Scope script_scope.
Delimit Scope script_scope with script.
Notation "x <- m ;; k" := (script_bind m (fun x => k))
  (at level 100, m at next level, right associativity) : script_scope.
Notation "m ;;; k" := (script_bind m (fun _ => k))
  (at level 100, right associativity) : script_scope.

Local Open Scope script_scope.

(** The decimal digits of a status code, as in
    ['Upload failed: ' + resp.status]. *)
Definition Number_toString (n : nat) : string :=
  NilEmpty.string_of_uint (Nat.to_uint n).

(** [onStop()], lines 37-82.  The inner [try] yields the decoded buffer;
    its [catch] block ends with [return], written [Return None]. *)
Definition onStop : Script unit :=
  chunks <- perform read_chunks ;;
  let webmBlob := Blob_of_blobs chunks "audio/webm" in
  try_catch
    (attempt (blob_arrayBuffer webmBlob) ;;;
     let arrayBuffer := blob_bytes webmBlob in
     attempt new_AudioContext ;;;
     decoded <-
       try_catch
         (audioBuffer <- await (decodeAudioData arrayBuffer) ;;
          Return (Some audioBuffer))
         (fun decodeErr =>
            perform (console_warn
                       "decodeAudioData failed, falling back to upload WebM:"
                       decodeErr) ;;;
            let form := [{| entry_name := "audio"; entry_value := webmBlob;
                            entry_filename := "sample.webm" |}] in
            perform (set_status_innerText "Uploading...") ;;;
            resp <- await (fetch "/analyze" "POST" form) ;;
            (if negb (Response.ok resp)
             then Throw (Error ("Upload failed: "
                                ++ Number_toString (Response.status resp)
                                ++ " " ++ Response.statusText resp))
             else Return tt) ;;;
            data <- await (response_json resp) ;;
            perform (set_status_innerText "Done") ;;;
            onAnalyzeResult <- perform read_onAnalyzeResult ;;
            (if onAnalyzeResult
             then try_catch (attempt (call_onAnalyzeResult data))
                    (fun e => perform (console_error e))
             else Return tt) ;;;
            Return None) ;;
     match decoded with
     | None => Return tt
     | Some (audioBuffer, heap) =>
         wavBlob <- on_heap heap (encodeWAV audioBuffer) ;;
         let form := [{| entry_name := "audio"; entry_value := wavBlob;
                         entry_filename := "sample.wav" |}] in
         perform (set_status_innerText "Uploading...") ;;;
         resp <- await (fetch "/analyze" "POST" form) ;;
         (if negb (Response.ok resp)
          then Throw (Error ("Upload failed: "
                             ++ Number_toString (Response.status resp)
                             ++ " " ++ Response.statusText resp))
          else Return tt) ;;;
         data <- await (response_json resp) ;;
         perform (set_status_innerText "Done") ;;;
         onAnalyzeResult <- perform read_onAnalyzeResult ;;
         (if onAnalyzeResult
          then try_catch (attempt (call_onAnalyzeResult data))
                 (fun e => perform (console_error e) ;;;
                           perform (set_status_innerText "Error"))
          else Return tt)
     end)
    (fun err =>
       perform (console_error err) ;;;
       perform (set_status_innerText "Error")).

Local Close Scope script_scope.

(** *** Running a script

    A host answers every call.  [trace host s] is the sequence of calls
    [s] makes against [host], each with its answer, and [outcome host s]
    what [s] returns or throws in the end.  The answer is a function of
    the call alone: [onStop] makes every call that has something to answer
    at most once, so nothing is lost. *)

Definition Host : Type := forall X : Type, command X -> X.

Inductive event : Type := Event (X : Type) (c : command X) (x : X).

Arguments Event {X} c x.

Fixpoint trace {A} (host : Host) (s : Script A) : list event :=
  match s with
  | Return _ | Throw _ => []
  | Call c k => Event c (host _ c) :: trace host (k (host _ c))
  end.

Fixpoint outcome {A} (host : Host) (s : Script A) : thrown + A :=
  match s with
  | Return a => inr a
  | Throw e => inl e
  | Call c k => outcome host (k (host _ c))
  end.

(** What an event shows: a text written to the status line, a request
    sent, a response received, whether decoding succeeded, a value logged
    with [console.error], a call of the callback with what it threw, a
    response whose body was read, and the value its body parsed to. *)
Definition status_written (ev : event) : option string :=
  match ev with
  | Event c _ =>
      match c with set_status_innerText text => Some text | _ => None end
  end.

Definition request_sent (ev : event)
  : option (string * string * list FormDataEntry) :=
  match ev with
  | Event c _ =>
      match c with fetch url method body => Some (url, method, body) | _ => None end
  end.

Definition response_received (ev : event) : option Response.t :=
  match ev with
  | Event c x =>
      match c in command X return X -> option Response.t with
      | fetch _ _ _ => fun x => match x with inr resp => Some resp | inl _ => None end
      | _ => fun _ => None
      end x
  end.

Definition decoding (ev : event) : option bool :=
  match ev with
  | Event c x =>
      match c in command X return X -> option bool with
      | decodeAudioData _ =>
          fun x => match x with inr _ => Some true | inl _ => Some false end
      | _ => fun _ => None
      end x
  end.

Definition error_logged (ev : event) : option thrown :=
  match ev with
  | Event c _ => match c with console_error e => Some e | _ => None end
  end.

Definition callback_called (ev : event) : option (json * option thrown) :=
  match ev with
  | Event c x =>
      match c in command X return X -> option (json * option thrown) with
      | call_onAnalyzeResult data => fun x => Some (data, x)
      | _ => fun _ => None
      end x
  end.

Definition body_read (ev : event) : option Response.t :=
  match ev with
  | Event c _ => match c with response_json resp => Some resp | _ => None end
  end.

Definition body_parsed (ev : event) : option json :=
  match ev with
  | Event c x =>
      match c in command X return X -> option json with
      | response_json _ => fun x => match x with inr data => Some data | inl _ => None end
      | _ => fun _ => None
      end x
  end.

(** The same of a whole trace, in order. *)
Definition statuses (t : list event) : list string := omap status_written t.
Definition requests (t : list event) : list (string * string * list FormDataEntry) :=
  omap request_sent t.
Definition responses (t : list event) : list Response.t := omap response_received t.
Definition decodings (t : list event) : list bool := omap decoding t.
Definition errors_logged (t : list event) : list thrown := omap error_logged t.
Definition callbacks (t : list event) : list (json * option thrown) :=
  omap callback_called t.
Definition bodies_read (t : list event) : list Response.t := omap body_read t.
Definition bodies_parsed (t : list event) : list json := omap body_parsed t.

(** The last text the script wrote to the status line: what the line
    reads when the script has ended (no [await] follows the last write),
    unless the callback wrote to it as well. *)
Definition final_status (t : list event) : option string := last (statuses t).

(** The text of the status line, as the script last wrote it, at each
    event of a trace that [happens]. *)
Fixpoint status_when (happens : event -> bool) (current : option string)
    (t : list event) : list (option string) :=
  match t with
  | [] => []
  | ev :: t' =>
      (if happens ev then [current] else [])
      ++ status_when happens
           (match status_written ev with Some text => Some text | None => current end)
           t'
  end.

Definition is_request (ev : event) : bool :=
  match request_sent ev with Some _ => true | None => false end.

Definition is_callback (ev : event) : bool :=
  match callback_called ev with Some _ => true | None => false end.

(** A host with two chunks recorded, for which every call succeeds, up
    to the outcome of decoding, the response of the server and what the
    callback throws. *)
Definition example_host (decoded : thrown + DecodedBuffer) (resp : Response.t)
    (callback : option thrown) : Host :=
  fun X c =>
    match c in command X return X with
    | read_chunks =>
        [{| blob_bytes := [26; 69]; blob_type := "audio/webm" |};
         {| blob_bytes := [223; 163]; blob_type := "audio/webm" |}]
    | blob_arrayBuffer _ => None
    | new_AudioContext => None
    | decodeAudioData _ => decoded
    | console_warn _ _ => tt
    | console_error _ => tt
    | set_status_innerText _ => tt
    | fetch _ _ _ => inr resp
    | response_json _ => inr (JObject [("emotion"%string, JString "calm")])
    | read_onAnalyzeResult => true
    | call_onAnalyzeResult _ => callback
    end.

Definition response_200 : Response.t :=
  {| Response.status := 200; Response.statusText := "OK" |}.

Definition response_500 : Response.t :=
  {| Response.status := 500; Response.statusText := "Internal Server Error" |}.

(** ** The recording controls: lines 2-35

    The click handler of [recordBtn], [startRecording], [stopRecording]
    and the callback of the 8 s timer share the variables [mediaRecorder]
    and [chunks] and the texts of two elements.  They run one at a time,
    each to its end or to its [await]; what happens in between (the user
    clicks, a request for the microphone settles, time passes and a timer
    fires, a recorder delivers its data) is an [input] of the page.

    A [MediaRecorder] is [inactive] when created; [start()] makes it
    [recording]; [stop()] does nothing on an inactive recorder and
    otherwise makes it [inactive] at once and queues a task that fires
    [dataavailable], with the data gathered, and then [stop]; the host
    does the same by itself when the stream of a recorder ends.  A timer
    fires once, not before it is due. *)

Inductive RecordingState : Type := inactive | recording | paused.

Module MediaRecorder.

Record t : Type := {
  state : RecordingState;
  final_events_queued : bool
}.

End MediaRecorder.

(** The page: the two variables of the script, the texts of [recordBtn]
    and [status], the recorders created so far (a recorder is named by its
    index), the number of calls of [startRecording] waiting for the
    microphone, the times at which the pending timers are due, the time in
    milliseconds, and the value of [chunks] at each call of [onStop]. *)
Module Page.

Record t : Type := {
  mediaRecorder : option nat;
  chunks : list Blob;
  recordBtn_innerText : string;
  status_innerText : string;
  recorders : list MediaRecorder.t;
  getUserMedia_pending : nat;
  timers : list N;
  now : N;
  onStop_calls : list (list Blob)
}.

Definition set_mediaRecorder (v : option nat) (p : t) : t :=
  {| mediaRecorder := v; chunks := chunks p;
     recordBtn_innerText := recordBtn_innerText p;
     status_innerText := status_innerText p; recorders := recorders p;
     getUserMedia_pending := getUserMedia_pending p; timers := timers p;
     now := now p; onStop_calls := onStop_calls p |}.

Definition set_chunks (v : list Blob) (p : t) : t :=
  {| mediaRecorder := mediaRecorder p; chunks := v;
     recordBtn_innerText := recordBtn_innerText p;
     status_innerText := status_innerText p; recorders := recorders p;
     getUserMedia_pending := getUserMedia_pending p; timers := timers p;
     now := now p; onStop_calls := onStop_calls p |}.

Definition set_recordBtn_innerText (v : string) (p : t) : t :=
  {| mediaRecorder := mediaRecorder p; chunks := chunks p;
     recordBtn_innerText := v;
     status_innerText := status_innerText p; recorders := recorders p;
     getUserMedia_pending := getUserMedia_pending p; timers := timers p;
     now := now p; onStop_calls := onStop_calls p |}.

Definition set_status_innerText (v : string) (p : t) : t :=
  {| mediaRecorder := mediaRecorder p; chunks := chunks p;
     recordBtn_innerText := recordBtn_innerText p;
     status_innerText := v; recorders := recorders p;
     getUserMedia_pending := getUserMedia_pending p; timers := timers p;
     now := now p; onStop_calls := onStop_calls p |}.

Definition set_recorders (v : list MediaRecorder.t) (p : t) : t :=
  {| mediaRecorder := mediaRecorder p; chunks := chunks p;
     recordBtn_innerText := recordBtn_innerText p;
     status_innerText := status_innerText p; recorders := v;
     getUserMedia_pending := getUserMedia_pending p; timers := timers p;
     now := now p; onStop_calls := onStop_calls p |}.

Definition set_getUserMedia_pending (v : nat) (p : t) : t :=
  {| mediaRecorder := mediaRecorder p; chunks := chunks p;
     recordBtn_innerText := recordBtn_innerText p;
     status_innerText := status_innerText p; recorders := recorders p;
     getUserMedia_pending := v; timers := timers p;
     now := now p; onStop_calls := onStop_calls p |}.

Definition set_timers (v : list N) (p : t) : t :=
  {| mediaRecorder := mediaRecorder p; chunks := chunks p;
     recordBtn_innerText := recordBtn_innerText p;
     status_innerText := status_innerText p; recorders := recorders p;
     getUserMedia_pending := getUserMedia_pending p; timers := v;
     now := now p; onStop_calls := onStop_calls p |}.

Definition set_now (v : N) (p : t) : t :=
  {| mediaRecorder := mediaRecorder p; chunks := chunks p;
     recordBtn_innerText := recordBtn_innerText p;
     status_innerText := status_innerText p; recorders := recorders p;
     getUserMedia_pending := getUserMedia_pending p; timers := timers p;
     now := v; onStop_calls := onStop_calls p |}.

Definition set_onStop_calls (v : list (list Blob)) (p : t) : t :=
  {| mediaRecorder := mediaRecorder p; chunks := chunks p;
     recordBtn_innerText := recordBtn_innerText p;
     status_innerText := status_innerText p; recorders := recorders p;
     getUserMedia_pending := getUserMedia_pending p; timers := timers p;
     now := now p; onStop_calls := v |}.

End Page.

(** The [state] attribute of recorder [r]. *)
Definition MediaRecorder_state (r : nat) (p : Page.t) : RecordingState :=
  match Page.recorders p !! r with
  | Some rec => MediaRecorder.state rec
  | None => inactive
  end.

(** [new MediaRecorder(stream)]. *)
Definition new_MediaRecorder (p : Page.t) : nat * Page.t :=
  (length (Page.recorders p),
   Page.set_recorders
     (Page.recorders p
        ++ [{| MediaRecorder.state := inactive;
               MediaRecorder.final_events_queued := false |}]) p).

(** [r.start()] on an inactive recorder. *)
Definition MediaRecorder_start (r : nat) (p : Page.t) : Page.t :=
  Page.set_recorders
    (<[r := {| MediaRecorder.state := recording;
               MediaRecorder.final_events_queued := false |}]> (Page.recorders p)) p.

(** [r.stop()], and what the host does when the stream of [r] ends. *)
Definition MediaRecorder_stop (r : nat) (p : Page.t) : Page.t :=
  match MediaRecorder_state r p with
  | inactive => p
  | _ =>
      Page.set_recorders
        (<[r := {| MediaRecorder.state := inactive;
                   MediaRecorder.final_events_queued := true |}]> (Page.recorders p)) p
  end.

(** [setTimeout(callback, delay)]: every timer of the page has the
    callback of line 27. *)
Definition setTimeout (delay : N) (p : Page.t) : Page.t :=
  Page.set_timers (Page.timers p ++ [(Page.now p + delay)%N]) p.

(** [stopRecording()], lines 31-35.  With [mediaRecorder] undefined the
    call of [stop] throws and nothing is done. *)
Definition stopRecording (p : Page.t) : Page.t :=
  match Page.mediaRecorder p with
  | None => p
  | Some r =>
      let p := MediaRecorder_stop r p in
      let p := Page.set_recordBtn_innerText "Start Session 🎤" p in
      Page.set_status_innerText "Processing..." p
  end.

(** [startRecording()], lines 16-29, up to its [await]: the request for
    the microphone is pending. *)
Definition startRecording (p : Page.t) : Page.t :=
  Page.set_getUserMedia_pending (S (Page.getUserMedia_pending p)) p.

(** [startRecording()] from its [await] on, when the request is granted;
    [starts] tells whether [mediaRecorder.start()] returns, or throws (and
    the rest of the function is skipped).  The handlers installed on lines
    20 and 21 are [ondataavailable] and [onstop] below. *)
Definition startRecording_resumed (starts : bool) (p : Page.t) : Page.t :=
  let (r, p) := new_MediaRecorder p in
  let p := Page.set_mediaRecorder (Some r) p in
  let p := Page.set_chunks [] p in
  if starts then
    let p := MediaRecorder_start r p in
    let p := Page.set_recordBtn_innerText "Stop" p in
    let p := Page.set_status_innerText "Recording..." p in
    setTimeout 8000%N p
  else p.

(** The click handler, lines 8-14. *)
Definition onclick (p : Page.t) : Page.t :=
  match Page.mediaRecorder p with
  | None => startRecording p
  | Some r =>
      match MediaRecorder_state r p with
      | inactive => startRecording p
      | _ => stopRecording p
      end
  end.

(** The callback of the timer, line 27. *)
Definition on_timeout (p : Page.t) : Page.t :=
  match Page.mediaRecorder p with
  | None => p
  | Some r =>
      match MediaRecorder_state r p with
      | recording => stopRecording p
      | _ => p
      end
  end.

(** [ondataavailable], line 20. *)
Definition ondataavailable (data : Blob) (p : Page.t) : Page.t :=
  Page.set_chunks (Page.chunks p ++ [data]) p.

(** [onstop]: [onStop] is called and reads [chunks] (line 38). *)
Definition onstop (p : Page.t) : Page.t :=
  Page.set_onStop_calls (Page.onStop_calls p ++ [Page.chunks p]) p.

(** What happens to the page: a click on [recordBtn]; a pending request
    for the microphone is granted or denied; time passes; a pending timer
    that is due fires; the stream of a recorder that is recording ends;
    the final events queued for a recorder are fired; a call of [onStop]
    that is under way writes one of its texts to the status line. *)
Inductive input : Type :=
| click
| getUserMedia_granted (starts : bool)
| getUserMedia_denied
| elapse (ms : N)
| timeout (i : nat)
| recorder_ends (r : nat)
| final_events (r : nat) (data : Blob)
| onStop_writes_status (text : string).

Definition handle (i : input) (p : Page.t) : option Page.t :=
  match i with
  | click => Some (onclick p)
  | getUserMedia_granted starts =>
      match Page.getUserMedia_pending p with
      | O => None
      | S n => Some (startRecording_resumed starts (Page.set_getUserMedia_pending n p))
      end
  | getUserMedia_denied =>
      match Page.getUserMedia_pending p with
      | O => None
      | S n => Some (Page.set_getUserMedia_pending n p)
      end
  | elapse ms => Some (Page.set_now (Page.now p + ms)%N p)
  | timeout i =>
      match Page.timers p !! i with
      | Some due =>
          if (due <=? Page.now p)%N
          then Some (on_timeout (Page.set_timers (delete i (Page.timers p)) p))
          else None
      | None => None
      end
  | recorder_ends r =>
      match MediaRecorder_state r p with
      | recording => Some (MediaRecorder_stop r p)
      | _ => None
      end
  | final_events r data =>
      match Page.recorders p !! r with
      | Some {| MediaRecorder.state := s; MediaRecorder.final_events_queued := true |} =>
          let p := Page.set_recorders
                     (<[r := {| MediaRecorder.state := s;
                                MediaRecorder.final_events_queued := false |}]>
                        (Page.recorders p)) p in
          Some (onstop (ondataavailable data p))
      | _ => None
      end
  | onStop_writes_status text =>
      match Page.onStop_calls p with
      | [] => None
      | _ =>
          if String.eqb text "Uploading..." || String.eqb text "Done"
             || String.eqb text "Error"
          then Some (Page.set_status_innerText text p)
          else None
      end
  end.

(** A sequence of inputs; [None] when one of them cannot happen. *)
Fixpoint run (inputs : list input) (p : Page.t) : option Page.t :=
  match inputs with
  | [] => Some p
  | i :: inputs' =>
      match handle i p with
      | Some p' => run inputs' p'
      | None => None
      end
  end.

(** The page when the script has been loaded: no recorder yet. *)
Definition loaded_page (recordBtn_innerText status_innerText : string) : Page.t :=
  {| Page.mediaRecorder := None; Page.chunks := [];
     Page.recordBtn_innerText := recordBtn_innerText;
     Page.status_innerText := status_innerText;
     Page.recorders := []; Page.getUserMedia_pending := 0;
     Page.timers := []; Page.now := 0%N; Page.onStop_calls := [] |}.

(** Recorder [r] is recording and is not the one [mediaRecorder] names. *)
Definition left_running (r : nat) (p : Page.t) : Prop :=
  Page.mediaRecorder p <> Some r /\ MediaRecorder_state r p = recording.

(** The button reads 'Stop' if the recorder [mediaRecorder] names is
    recording. *)
Definition shows_stop_while_recording (p : Page.t) : Prop :=
  forall r, Page.mediaRecorder p = Some r ->
            MediaRecorder_state r p = recording ->
            Page.recordBtn_innerText p = "Stop"%string.

(** The inputs that assign [chunks] or add to it. *)
Definition resets_or_delivers (i : input) : bool :=
  match i with
  | getUserMedia_granted _ | final_events _ _ => true
  | _ => false
  end.

(** Two recorders running: the page after two clicks, both requests for
    the microphone being granted afterwards. *)
Definition double_start_page : Page.t :=
  {| Page.mediaRecorder := Some 1%nat;
     Page.chunks := [];
     Page.recordBtn_innerText := "Stop";
     Page.status_innerText := "Recording...";
     Page.recorders :=
       [{| MediaRecorder.state := recording;
           MediaRecorder.final_events_queued := false |};
        {| MediaRecorder.state := recording;
           MediaRecorder.final_events_queued := false |}];
     Page.getUserMedia_pending := 0;
     Page.timers := [8000; 8000]%N;
     Page.now := 0%N;
     Page.onStop_calls := [] |}.

(** The same page 8 s later, after a click, both timers and another
    recording started with a click. *)
Definition double_start_later : Page.t :=
  {| Page.mediaRecorder := Some 2%nat;
     Page.chunks := [];
     Page.recordBtn_innerText := "Stop";
     Page.status_innerText := "Recording...";
     Page.recorders :=
       [{| MediaRecorder.state := recording;
           MediaRecorder.final_events_queued := false |};
        {| MediaRecorder.state := inactive;
           MediaRecorder.final_events_queued := true |};
        {| MediaRecorder.state := recording;
           MediaRecorder.final_events_queued := false |}];
     Page.getUserMedia_pending := 0;
     Page.timers := [16000]%N;
     Page.now := 8000%N;
     Page.onStop_calls := [] |}.

(** One recording under way. *)
Definition recording_page : Page.t :=
  {| Page.mediaRecorder := Some 0%nat;
     Page.chunks := [];
     Page.recordBtn_innerText := "Stop";
     Page.status_innerText := "Recording...";
     Page.recorders :=
       [{| MediaRecorder.state := recording;
           MediaRecorder.final_events_queued := false |}];
     Page.getUserMedia_pending := 0;
     Page.timers := [8000]%N;
     Page.now := 0%N;
     Page.onStop_calls := [] |}.

(** The data of a recording. *)
Definition example_data : Blob :=
  {| blob_bytes := [26; 69; 223; 163]; blob_type := "audio/webm" |}.

(** The page when a recording stopped by its timer has delivered
    [example_data]. *)
Definition delivered_page : Page.t :=
  {| Page.mediaRecorder := Some 0%nat;
     Page.chunks := [example_data];
     Page.recordBtn_innerText := "Start Session 🎤";
     Page.status_innerText := "Processing...";
     Page.recorders :=
       [{| MediaRecorder.state := inactive;
           MediaRecorder.final_events_queued := false |}];
     Page.getUserMedia_pending := 0;
     Page.timers := [];
     Page.now := 8000%N;
     Page.onStop_calls := [[example_data]] |}.

(** The two channels of [stereo_example], each alone. *)
Definition left_channel_example : AudioBuffer.t * Heap :=
  decoded_audio (of_Z 48000) 2 [[Fin 0; Fin (1 # 2)]].

Definition right_channel_example : AudioBuffer.t * Heap :=
  decoded_audio (of_Z 48000) 2 [[Fin (-1 # 2); Fin 1]].

(** Two channels of one frame at 8000.5 Hz. *)
Definition fractional_rate_example : AudioBuffer.t * Heap :=
  decoded_audio (Fin (16001 # 2)) 1 [[Fin 0]; [Fin 0]].

(** The string of the one character U+1F3A4, the two code units 0xD83C
    and 0xDFA4. *)
Definition microphone_sign : JSString := [0xD83C; 0xDFA4].

(** The sample 16384/32768 = 0.5 as a binary64 number: 2^52 * 2^-53. *)
Definition decoded_half_binary64 : spec_float :=
  S754_finite false 4503599627370496 (-53).

(** * Proofs *)

(** ** Running the monad *)

Lemma bind_run {A B} (m : M A) (k : A -> M B) (h h' : Heap) (a : A) :
  m h = inr (a, h') -> bind m k h = k a h'.
Proof. intros E. unfold bind. now rewrite E. Qed.

Lemma bind_fail {A B} (m : M A) (k : A -> M B) (h : Heap) (e : exn) :
  m h = inl e -> bind m k h = inl e.
Proof. intros E. unfold bind. now rewrite E. Qed.

Lemma lookup_top (h : Heap) (o : object) : (h ++ [o]) !! length h = Some o.
Proof. apply list_lookup_middle. reflexivity. Qed.

Lemma insert_top (h : Heap) (o o' : object) :
  <[length h := o']> (h ++ [o]) = h ++ [o'].
Proof.
  replace (length h) with (length h + 0)%nat by lia.
  now rewrite insert_app_r.
Qed.

Lemma lookup_below (h : Heap) (o o' : object) (a : nat) :
  h !! a = Some o -> (h ++ [o']) !! a = Some o.
Proof. apply lookup_app_l_Some. Qed.

Lemma ta_length_run (h : Heap) (a : nat) (l : list number) :
  h !! a = Some (Float32Array l) -> ta_length a h = inr (length l, h).
Proof. intros E. unfold ta_length. now rewrite E. Qed.

Lemma ta_get_run (h : Heap) (a i : nat) (l : list number) :
  h !! a = Some (Float32Array l) -> ta_get a i h = inr (l !! i, h).
Proof. intros E. unfold ta_get. now rewrite E. Qed.

Lemma ta_set_top (h : Heap) (l : list number) (i : nat) (v : option number) :
  ta_set (length h) i v (h ++ [Float32Array l])
  = inr (tt, h ++ [Float32Array (<[i := ToNumber v]> l)]).
Proof. unfold ta_set. now rewrite lookup_top, insert_top. Qed.

Lemma ta_slice_run (h : Heap) (a start : nat) (l : list number) :
  h !! a = Some (Float32Array l) ->
  ta_slice a start h = inr (length h, h ++ [Float32Array (drop start l)]).
Proof. intros E. unfold ta_slice. now rewrite E. Qed.

Lemma SetViewValue_top (h : Heap) (block raw : list Z) (i : nat) :
  (i + length raw <= length block)%nat ->
  SetViewValue (length h) i raw (h ++ [ArrayBuffer block])
  = inr (tt, h ++ [ArrayBuffer (store i raw block)]).
Proof.
  intros L. unfold SetViewValue. rewrite lookup_top, insert_top.
  destruct (Nat.leb_spec (i + length raw) (length block)); [reflexivity | lia].
Qed.

Lemma getChannelData_run (b : AudioBuffer.t) (c a : nat) (h : Heap) :
  AudioBuffer.channels b !! c = Some a -> getChannelData b c h = inr (a, h).
Proof. intros E. unfold getChannelData. now rewrite E. Qed.

(** ** The interleaving stage *)

Lemma stereo_loop_run (h : Heap) (r0 r1 : nat) (c0 c1 : list number) :
  h !! r0 = Some (Float32Array c0) ->
  h !! r1 = Some (Float32Array c1) ->
  forall (n i idx : nat) (cur : list number),
    for_loop n i
      (fun i idx =>
         x <- ta_get r0 i ;;
         ta_set (length h) idx x ;;;
         y <- ta_get r1 i ;;
         ta_set (length h) (idx + 1) y ;;;
         ret (idx + 2)%nat) idx (h ++ [Float32Array cur])
    = inr ((idx + 2 * n)%nat,
           h ++ [Float32Array (interleave_loop n i idx c0 c1 cur)]).
Proof.
  intros H0 H1. induction n as [|n IH]; intros i idx cur; simpl.
  - unfold ret. do 2 f_equal. lia.
  - erewrite bind_run; cycle 1.
    { erewrite bind_run by (apply ta_get_run, lookup_below, H0).
      erewrite bind_run by apply ta_set_top.
      erewrite bind_run by (apply ta_get_run, lookup_below, H1).
      erewrite bind_run by apply ta_set_top.
      reflexivity. }
    rewrite IH. do 2 f_equal. lia.
Qed.

Lemma interleave_stereo_run (b : AudioBuffer.t) (h : Heap) (r0 r1 : nat)
    (c0 c1 : list number) :
  AudioBuffer.channels b !! 0%nat = Some r0 ->
  AudioBuffer.channels b !! 1%nat = Some r1 ->
  h !! r0 = Some (Float32Array c0) ->
  h !! r1 = Some (Float32Array c1) ->
  interleave b 2 h = inr (length h, h ++ [Float32Array (interleaved_of c0 c1)]).
Proof.
  intros C0 C1 H0 H1. unfold interleave.
  change (2 =? 2)%nat with true. cbv iota.
  erewrite bind_run by (apply getChannelData_run, C0).
  erewrite bind_run by (apply getChannelData_run, C1).
  erewrite bind_run by (apply ta_length_run, H0).
  erewrite bind_run by (apply ta_length_run, H1).
  erewrite bind_run by reflexivity.
  erewrite bind_run by (apply (stereo_loop_run h r0 r1 c0 c1 H0 H1)).
  reflexivity.
Qed.

Lemma interleave_mono_run (b : AudioBuffer.t) (h : Heap) (r0 : nat)
    (c0 : list number) (numChannels : nat) :
  numChannels <> 2%nat ->
  AudioBuffer.channels b !! 0%nat = Some r0 ->
  h !! r0 = Some (Float32Array c0) ->
  interleave b numChannels h = inr (length h, h ++ [Float32Array c0]).
Proof.
  intros N C0 H0. unfold interleave.
  destruct (Nat.eqb_spec numChannels 2) as [|_]; [contradiction|].
  erewrite bind_run by (apply getChannelData_run, C0).
  now rewrite (ta_slice_run h r0 0 c0 H0).
Qed.

Lemma interleave_no_channel (b : AudioBuffer.t) (h : Heap) (numChannels : nat) :
  AudioBuffer.channels b = [] ->
  interleave b numChannels h = inl IndexSizeError.
Proof.
  intros E. unfold interleave, getChannelData. rewrite E.
  destruct (numChannels =? 2)%nat; reflexivity.
Qed.

(** ** The output stage *)

Lemma length_le_bytes (size : nat) (v : Z) : length (le_bytes size v) = size.
Proof. revert v. induction size as [|k IH]; intros v; simpl; [|rewrite IH]; reflexivity. Qed.

(** Writing right after a prefix [p] replaces the next bytes. *)
Lemma store_seq (raw p q : list Z) (i : nat) :
  i = length p ->
  (length raw <= length q)%nat ->
  store i raw (p ++ q) = (p ++ raw) ++ drop (length raw) q.
Proof.
  revert p q i. induction raw as [|b raw IH]; intros p q i -> L; simpl.
  - now rewrite app_nil_r.
  - destruct q as [|x q]; simpl in L; [lia|].
    rewrite insert_app_r_alt, Nat.sub_diag by lia. simpl.
    change (p ++ b :: q) with (p ++ [b] ++ q). rewrite app_assoc.
    rewrite IH by (rewrite ?length_app; simpl; lia).
    now rewrite <- (app_assoc p [b] raw).
Qed.

Lemma SetViewValue_seq (h : Heap) (p q raw : list Z) (i : nat) :
  i = length p ->
  (length raw <= length q)%nat ->
  SetViewValue (length h) i raw (h ++ [ArrayBuffer (p ++ q)])
  = inr (tt, h ++ [ArrayBuffer ((p ++ raw) ++ drop (length raw) q)]).
Proof.
  intros E L. rewrite SetViewValue_top by (rewrite length_app; lia).
  now rewrite store_seq.
Qed.

Lemma Qtrunc_inject_Z (z : Z) : Qtrunc (inject_Z z) = z.
Proof. unfold Qtrunc. simpl. apply Z.quot_1_r. Qed.

Lemma ToUintN_of_Z (w z : Z) : ToUintN w (of_Z z) = z mod 2 ^ w.
Proof. unfold ToUintN, of_Z. now rewrite Qtrunc_inject_Z. Qed.

Lemma ToUint8_code (c : Z) : le_bytes 1 (ToUint8 (of_Z c)) = [c mod 256].
Proof.
  unfold ToUint8. rewrite ToUintN_of_Z. simpl. change (2 ^ 8) with 256.
  now rewrite Z.mod_mod by lia.
Qed.

Lemma length_char_codes (s : string) : length (char_codes s) = String.length s.
Proof.
  unfold char_codes. rewrite length_map.
  induction s as [|c s IH]; simpl; [reflexivity | now rewrite IH].
Qed.

Lemma low_bytes_char_codes (s : string) : low_bytes (char_codes s) = char_codes s.
Proof.
  unfold low_bytes, char_codes.
  induction s as [|c s IH]; simpl; [reflexivity|].
  rewrite IH. pose proof (nat_ascii_bounded c) as B.
  now rewrite Z.mod_small by lia.
Qed.

Lemma writeString_loop (h : Heap) (s : JSString) (offset : nat) :
  forall (s' : JSString) (i : nat) (p q : list Z),
    (forall j, s !! (i + j)%nat = s' !! j) ->
    (offset + i)%nat = length p ->
    (length s' <= length q)%nat ->
    for_loop (length s') i
      (fun i _ => setUint8 (length h) (offset + i) (charCodeAt s i)) tt
      (h ++ [ArrayBuffer (p ++ q)])
    = inr (tt, h ++ [ArrayBuffer ((p ++ low_bytes s')
                                    ++ drop (length s') q)]).
Proof.
  induction s' as [|c s' IH]; intros i p q G E L.
  - simpl. unfold ret. now rewrite app_nil_r.
  - simpl length. simpl for_loop.
    pose proof (G 0%nat) as G0. rewrite Nat.add_0_r in G0. simpl in G0.
    erewrite bind_run; cycle 1.
    { unfold setUint8, charCodeAt. rewrite G0. unfold NumericToRawBytes.
      rewrite ToUint8_code. apply SetViewValue_seq; [exact E | simpl in *; lia]. }
    simpl in L. destruct q as [|x q]; simpl in L; [lia|]. simpl drop.
    rewrite drop_0, IH.
    + unfold low_bytes. simpl. rewrite <- (app_assoc p [_]). reflexivity.
    + intros j. transitivity (s !! (i + S j)%nat); [f_equal; lia | exact (G (S j))].
    + rewrite length_app. simpl. lia.
    + lia.
Qed.

Lemma writeString_seq (h : Heap) (s : string) (offset : nat) (p q : list Z) :
  offset = length p ->
  (String.length s <= length q)%nat ->
  writeString (length h) offset (char_codes s) (h ++ [ArrayBuffer (p ++ q)])
  = inr (tt, h ++ [ArrayBuffer ((p ++ char_codes s) ++ drop (String.length s) q)]).
Proof.
  intros E L. unfold writeString.
  rewrite (writeString_loop h (char_codes s) offset (char_codes s) 0 p q).
  - now rewrite low_bytes_char_codes, length_char_codes.
  - intros j. reflexivity.
  - lia.
  - now rewrite length_char_codes.
Qed.

Lemma setUint16_seq (h : Heap) (p q : list Z) (i : nat) (v : number) :
  i = length p -> (2 <= length q)%nat ->
  setUint16 (length h) i v true (h ++ [ArrayBuffer (p ++ q)])
  = inr (tt, h ++ [ArrayBuffer ((p ++ le_bytes 2 (ToUint16 v)) ++ drop 2 q)]).
Proof.
  intros E L. unfold setUint16, NumericToRawBytes.
  rewrite SetViewValue_seq by (rewrite ?length_le_bytes; assumption).
  now rewrite length_le_bytes.
Qed.

Lemma setInt16_seq (h : Heap) (p q : list Z) (i : nat) (v : number) :
  i = length p -> (2 <= length q)%nat ->
  setInt16 (length h) i v true (h ++ [ArrayBuffer (p ++ q)])
  = inr (tt, h ++ [ArrayBuffer ((p ++ le_bytes 2 (ToInt16 v)) ++ drop 2 q)]).
Proof.
  intros E L. unfold setInt16, NumericToRawBytes.
  rewrite SetViewValue_seq by (rewrite ?length_le_bytes; assumption).
  now rewrite length_le_bytes.
Qed.

Lemma setUint32_seq (h : Heap) (p q : list Z) (i : nat) (v : number) :
  i = length p -> (4 <= length q)%nat ->
  setUint32 (length h) i v true (h ++ [ArrayBuffer (p ++ q)])
  = inr (tt, h ++ [ArrayBuffer ((p ++ le_bytes 4 (ToUint32 v)) ++ drop 4 q)]).
Proof.
  intros E L. unfold setUint32, NumericToRawBytes.
  rewrite SetViewValue_seq by (rewrite ?length_le_bytes; assumption).
  now rewrite length_le_bytes.
Qed.

(** The side conditions of a write: the offset is the length of what
    was written so far, and the field fits in what remains. *)
Create Rewrite HintDb field_lengths.
#[local] Hint Rewrite @length_app @length_drop length_le_bytes : field_lengths.

Ltac field_bounds := autorewrite with field_lengths; simpl; lia.

Ltac write_step L := erewrite bind_run by (apply L; field_bounds).

Lemma write_header_run (h : Heap) (numChannels : nat) (sampleRate : number)
    (n : nat) (block : list Z) :
  (44 <= length block)%nat ->
  write_header (length h) numChannels sampleRate n (h ++ [ArrayBuffer block])
  = inr (tt, h ++ [ArrayBuffer (header_bytes numChannels sampleRate n
                                  ++ drop 44 block)]).
Proof.
  intros L. unfold write_header.
  change block with ([] ++ block) at 1.
  write_step writeString_seq.
  write_step setUint32_seq.
  write_step writeString_seq.
  write_step writeString_seq.
  write_step setUint32_seq.
  write_step setUint16_seq.
  write_step setUint16_seq.
  write_step setUint32_seq.
  write_step setUint32_seq.
  write_step setUint16_seq.
  write_step setUint16_seq.
  write_step writeString_seq.
  rewrite setUint32_seq by field_bounds.
  unfold header_bytes. rewrite !drop_drop. simpl app at 1.
  rewrite <- !app_assoc. reflexivity.
Qed.

Lemma for_loop_S {L} (n i : nat) (body : nat -> L -> M L) (s : L) (h : Heap) :
  for_loop (S n) i body s h = bind (body i s) (for_loop n (S i) body) h.
Proof. reflexivity. Qed.

Lemma sample_step_run (h : Heap) (samples : list number) (x : number)
    (i offset : nat) (p q : list Z) :
  samples !! i = Some x ->
  offset = length p ->
  (2 <= length q)%nat ->
  (x <- ta_get (length h) i ;;
   let s := clamp (ToNumber x) in
   setInt16 (length (h ++ [Float32Array samples])) offset (scale s) true ;;;
   ret (offset + 2)%nat)
    ((h ++ [Float32Array samples]) ++ [ArrayBuffer (p ++ q)])
  = inr ((offset + 2)%nat,
         (h ++ [Float32Array samples])
           ++ [ArrayBuffer ((p ++ le_bytes 2 (quantize x)) ++ drop 2 q)]).
Proof.
  intros Hx E L.
  erewrite bind_run by (apply ta_get_run, lookup_below, lookup_top).
  rewrite Hx. cbv zeta.
  erewrite bind_run by (apply setInt16_seq; assumption).
  reflexivity.
Qed.

Lemma samples_loop_run (h : Heap) (samples : list number) :
  forall (n i : nat) (p q : list Z),
    (i + n)%nat = length samples ->
    length p = (44 + 2 * i)%nat ->
    length q = (2 * n)%nat ->
    for_loop n i
      (fun i offset =>
         x <- ta_get (length h) i ;;
         let s := clamp (ToNumber x) in
         setInt16 (length (h ++ [Float32Array samples])) offset (scale s) true ;;;
         ret (offset + 2)%nat) (44 + 2 * i)%nat
      ((h ++ [Float32Array samples]) ++ [ArrayBuffer (p ++ q)])
    = inr ((44 + 2 * (i + n))%nat,
           (h ++ [Float32Array samples])
             ++ [ArrayBuffer (p ++ pcm_bytes (drop i samples))]).
Proof.
  induction n as [|n IH]; intros i p q E Lp Lq.
  - destruct q; [|discriminate].
    rewrite drop_ge by lia. unfold for_loop, ret, pcm_bytes, flat_map.
    do 2 f_equal. lia.
  - destruct (lookup_lt_is_Some_2 samples i) as [x Hx]; [lia|].
    rewrite for_loop_S.
    erewrite bind_run by (apply (sample_step_run h samples x); [exact Hx | | ]; lia).
    replace (44 + 2 * i + 2)%nat with (44 + 2 * S i)%nat by lia.
    rewrite IH.
    + rewrite (drop_S _ _ _ Hx). unfold pcm_bytes at 2.
      change (flat_map ?f (x :: ?l)) with (f x ++ flat_map f l).
      rewrite <- !app_assoc. do 2 f_equal. lia.
    + lia.
    + rewrite length_app, length_le_bytes. lia.
    + rewrite length_drop. lia.
Qed.

Lemma length_header_bytes (numChannels : nat) (sampleRate : number) (n : nat) :
  length (header_bytes numChannels sampleRate n) = 44%nat.
Proof. unfold header_bytes. repeat rewrite ?length_app, ?length_le_bytes. reflexivity. Qed.

Lemma length_pcm_bytes (samples : list number) :
  length (pcm_bytes samples) = (2 * length samples)%nat.
Proof.
  induction samples as [|x l IH]; [reflexivity|].
  unfold pcm_bytes in *. change (flat_map ?f (x :: ?l)) with (f x ++ flat_map f l).
  rewrite length_app, length_le_bytes, IH. simpl. lia.
Qed.

Lemma length_wav_bytes (numChannels : nat) (sampleRate : number)
    (samples : list number) :
  length (wav_bytes numChannels sampleRate samples)
  = (44 + length samples * 2)%nat.
Proof.
  unfold wav_bytes. rewrite length_app, length_header_bytes, length_pcm_bytes. lia.
Qed.

(** Once the interleaved array is in the heap, the rest of [encodeWAV]
    cannot fail: it allocates the output buffer, fills it with the header
    and the quantized samples, and returns its bytes. *)
Lemma encodeWAV_from_interleaved (b : AudioBuffer.t) (h : Heap)
    (samples : list number) :
  let numChannels := Nat.min 2 (AudioBuffer.numberOfChannels b) in
  interleave b numChannels h = inr (length h, h ++ [Float32Array samples]) ->
  encodeWAV b h
  = inr (wav_blob numChannels (AudioBuffer.sampleRate b) samples,
         h ++ [Float32Array samples;
               ArrayBuffer (wav_bytes numChannels (AudioBuffer.sampleRate b) samples)]).
Proof.
  intros numChannels I. unfold encodeWAV. cbv zeta. fold numChannels.
  erewrite bind_run by exact I.
  erewrite bind_run by (apply ta_length_run, lookup_top).
  erewrite bind_run by reflexivity.
  erewrite bind_run by reflexivity.
  erewrite bind_run
    by (apply write_header_run; rewrite length_replicate; lia).
  assert (P : (write_samples (length (h ++ [Float32Array samples])) (length h)
                 (length samples))
                ((h ++ [Float32Array samples])
                   ++ [ArrayBuffer (header_bytes numChannels (AudioBuffer.sampleRate b)
                                      (length samples)
                                    ++ drop 44 (replicate (44 + length samples * 2) 0))])
              = inr ((44 + 2 * (0 + length samples))%nat,
                     (h ++ [Float32Array samples])
                       ++ [ArrayBuffer (wav_bytes numChannels (AudioBuffer.sampleRate b)
                                          samples)])).
  { unfold write_samples, wav_bytes.
    apply (samples_loop_run h samples (length samples) 0).
    - reflexivity.
    - apply length_header_bytes.
    - rewrite length_drop, length_replicate. lia. }
  erewrite bind_run by exact P.
  unfold new_Blob, parts_bytes.
  erewrite bind_run; cycle 1.
  { erewrite bind_run by (unfold view_bytes; rewrite lookup_top; reflexivity).
    erewrite bind_run by reflexivity. reflexivity. }
  unfold ret, wav_blob. rewrite app_nil_r, <- app_assoc. reflexivity.
Qed.

(** ** The stereo loop alternates the two channels *)

Lemma insert_pair (p r : list number) (a b x y : number) :
  <[(length p + 1)%nat := y]> (<[length p := x]> (p ++ a :: b :: r))
  = (p ++ [x; y]) ++ r.
Proof.
  rewrite (insert_app_r_alt p _ (length p)) by lia.
  rewrite Nat.sub_diag.
  rewrite (insert_app_r_alt p _ (length p + 1)) by lia.
  replace (length p + 1 - length p)%nat with 1%nat by lia.
  now rewrite <- app_assoc.
Qed.

Lemma replicate_SS (n m : nat) (z : number) :
  replicate (S n + S m) z = z :: z :: replicate (n + m) z.
Proof. rewrite Nat.add_succ_r. reflexivity. Qed.

Lemma interleave_loop_alternate (c0 : list number) :
  forall (c1 d0 d1 p : list number),
    length c0 = length c1 ->
    length d0 = length d1 ->
    length p = (2 * length d0)%nat ->
    interleave_loop (length c0) (length d0) (length p) (d0 ++ c0) (d1 ++ c1)
      (p ++ replicate (length c0 + length c1) (Fin 0))
    = p ++ alternate c0 c1.
Proof.
  induction c0 as [|x c0 IH]; intros c1 d0 d1 p E0 E1 Ep.
  - destruct c1; [reflexivity | discriminate].
  - destruct c1 as [|y c1]; [discriminate|]. injection E0 as E0.
    change (length (x :: c0)) with (S (length c0)).
    change (length (y :: c1)) with (S (length c1)).
    change (alternate (x :: c0) (y :: c1)) with ([x; y] ++ alternate c0 c1).
    change (interleave_loop (S ?n) ?i ?idx ?a ?b ?cur)
      with (interleave_loop n (S i) (idx + 2) a b
              (<[(idx + 1)%nat := ToNumber (b !! i)]>
                 (<[idx := ToNumber (a !! i)]> cur))).
    rewrite (list_lookup_middle d0 c0 x (length d0) eq_refl).
    rewrite (list_lookup_middle d1 c1 y (length d0) E1).
    change (ToNumber (Some ?v)) with v.
    rewrite replicate_SS, insert_pair.
    replace (S (length d0)) with (length (d0 ++ [x]))
      by (rewrite length_app; simpl; lia).
    replace (length p + 2)%nat with (length (p ++ [x; y]))
      by (rewrite length_app; simpl; lia).
    replace (d0 ++ x :: c0) with ((d0 ++ [x]) ++ c0)
      by (now rewrite <- app_assoc).
    replace (d1 ++ y :: c1) with ((d1 ++ [y]) ++ c1)
      by (now rewrite <- app_assoc).
    rewrite IH.
    + now rewrite <- app_assoc.
    + exact E0.
    + rewrite !length_app. simpl. lia.
    + rewrite !length_app. simpl. lia.
Qed.

Lemma interleaved_of_alternate (c0 c1 : list number) :
  length c0 = length c1 -> interleaved_of c0 c1 = alternate c0 c1.
Proof.
  intros E. unfold interleaved_of.
  apply (interleave_loop_alternate c0 c1 [] [] [] E eq_refl eq_refl).
Qed.

Lemma length_alternate (c0 c1 : list number) :
  length c0 = length c1 -> length (alternate c0 c1) = (length c0 * 2)%nat.
Proof.
  revert c1. induction c0 as [|x c0 IH]; intros [|y c1] E; try discriminate.
  - reflexivity.
  - simpl. rewrite IH by (simpl in E; lia). reflexivity.
Qed.

Lemma lookup_alternate (c0 c1 : list number) (i : nat) :
  length c0 = length c1 ->
  alternate c0 c1 !! (2 * i)%nat = c0 !! i /\
  alternate c0 c1 !! (2 * i + 1)%nat = c1 !! i.
Proof.
  revert c1 i. induction c0 as [|x c0 IH]; intros [|y c1] i E; try discriminate.
  - split; reflexivity.
  - destruct i as [|i].
    + split; reflexivity.
    + replace (2 * S i)%nat with (S (S (2 * i))) by lia.
      simpl in E. destruct (IH c1 i) as [A B]; [lia|].
      split; [exact A | exact B].
Qed.

Lemma length_interleave_loop (c0 c1 : list number) (n i idx : nat)
    (cur : list number) :
  length (interleave_loop n i idx c0 c1 cur) = length cur.
Proof.
  revert i idx cur. induction n as [|n IH]; intros i idx cur; simpl.
  - reflexivity.
  - now rewrite IH, !length_insert.
Qed.

Lemma length_interleaved_of (c0 c1 : list number) :
  length (interleaved_of c0 c1) = (length c0 + length c1)%nat.
Proof. unfold interleaved_of. now rewrite length_interleave_loop, length_replicate. Qed.

(** ** [encodeWAV] on an input whose channels are in the heap *)

Lemma holds_length (h : Heap) (b : AudioBuffer.t) (data : list (list number)) :
  holds h b data -> AudioBuffer.numberOfChannels b = length data.
Proof. apply Forall2_length. Qed.

Lemma encodeWAV_stereo (h : Heap) (b : AudioBuffer.t) (c0 c1 : list number)
    (rest : list (list number)) :
  holds h b (c0 :: c1 :: rest) ->
  encodeWAV b h
  = inr (wav_blob 2 (AudioBuffer.sampleRate b) (interleaved_of c0 c1),
         h ++ [Float32Array (interleaved_of c0 c1);
               ArrayBuffer (wav_bytes 2 (AudioBuffer.sampleRate b)
                              (interleaved_of c0 c1))]).
Proof.
  intros H. pose proof (holds_length _ _ _ H) as N. unfold holds in H.
  destruct (AudioBuffer.channels b) as [|r0 [|r1 rs]] eqn:C;
    inversion H as [|? ? ? ? H0 H']; subst;
    inversion H' as [|? ? ? ? H1 _]; subst.
  assert (E : Nat.min 2 (AudioBuffer.numberOfChannels b) = 2%nat)
    by (rewrite N; simpl; lia).
  pose proof (encodeWAV_from_interleaved b h (interleaved_of c0 c1)) as R.
  cbv zeta in R. rewrite E in R. apply R.
  apply (interleave_stereo_run b h r0 r1); try assumption; now rewrite C.
Qed.

Lemma encodeWAV_mono (h : Heap) (b : AudioBuffer.t) (c0 : list number) :
  holds h b [c0] ->
  encodeWAV b h
  = inr (wav_blob 1 (AudioBuffer.sampleRate b) c0,
         h ++ [Float32Array c0;
               ArrayBuffer (wav_bytes 1 (AudioBuffer.sampleRate b) c0)]).
Proof.
  intros H. pose proof (holds_length _ _ _ H) as N. unfold holds in H.
  destruct (AudioBuffer.channels b) as [|r0 rs] eqn:C;
    inversion H as [|? ? ? ? H0 H']; subst.
  assert (E : Nat.min 2 (AudioBuffer.numberOfChannels b) = 1%nat)
    by (rewrite N; reflexivity).
  pose proof (encodeWAV_from_interleaved b h c0) as R.
  cbv zeta in R. rewrite E in R. apply R.
  apply (interleave_mono_run b h r0); [lia | now rewrite C | assumption].
Qed.

Lemma encodeWAV_no_channel (h : Heap) (b : AudioBuffer.t) :
  AudioBuffer.channels b = [] -> encodeWAV b h = inl IndexSizeError.
Proof.
  intros C. unfold encodeWAV. cbv zeta.
  apply bind_fail, interleave_no_channel, C.
Qed.

(** ** Numbers *)

Lemma Qltb_lt (a b : Q) : Qltb a b = true <-> (a < b)%Q.
Proof.
  unfold Qltb. rewrite negb_true_iff. split.
  - intros E. apply Qnot_le_lt. intros L. apply Qle_bool_iff in L. congruence.
  - intros L. destruct (Qle_bool b a) eqn:E; [|reflexivity].
    apply Qle_bool_iff in E. exfalso. exact (Qlt_not_le _ _ L E).
Qed.

Lemma Qltb_ge (a b : Q) : Qltb a b = false <-> (b <= a)%Q.
Proof.
  unfold Qltb. rewrite negb_false_iff. apply Qle_bool_iff.
Qed.

Lemma Qtrunc_mono (a b : Q) : (a <= b)%Q -> Qtrunc a <= Qtrunc b.
Proof.
  destruct a as [a p], b as [b q]. unfold Qle, Qtrunc. simpl. intros L.
  rewrite <- (Z.quot_mul_cancel_r a (Zpos p) (Zpos q)) by lia.
  rewrite <- (Z.quot_mul_cancel_r b (Zpos q) (Zpos p)) by lia.
  rewrite (Z.mul_comm (Zpos q) (Zpos p)).
  apply Z.quot_le_mono; lia.
Qed.

Lemma Qtrunc_comp (a b : Q) : (a == b)%Q -> Qtrunc a = Qtrunc b.
Proof.
  intros E. apply Z.le_antisymm; apply Qtrunc_mono; rewrite E; apply Qle_refl.
Qed.

Lemma Qtrunc_nonneg (v : Q) :
  (0 <= v)%Q -> (inject_Z (Qtrunc v) <= v /\ v < inject_Z (Qtrunc v) + 1)%Q.
Proof.
  destruct v as [a p]. unfold Qle, Qlt, Qtrunc, Qplus. simpl. intros L.
  pose proof (Z.mul_quot_le a (Zpos p) ltac:(lia) ltac:(lia)).
  pose proof (Z.mul_succ_quot_gt a (Zpos p) ltac:(lia) ltac:(lia)).
  lia.
Qed.

Lemma Qtrunc_nonpos (v : Q) :
  (v <= 0)%Q -> (v <= inject_Z (Qtrunc v) /\ inject_Z (Qtrunc v) - 1 < v)%Q.
Proof.
  destruct v as [a p]. unfold Qle, Qlt, Qtrunc, Qminus, Qplus, Qopp. simpl. intros L.
  pose proof (Z.mul_quot_ge a (Zpos p) ltac:(lia) ltac:(lia)).
  pose proof (Z.mul_pred_quot_lt a (Zpos p) ltac:(lia) ltac:(lia)).
  lia.
Qed.

Lemma ToInt16_small (v : Q) :
  -32768 <= Qtrunc v <= 32767 -> ToInt16 (Fin v) = Qtrunc v.
Proof.
  intros B. unfold ToInt16, ToUintN. change (2 ^ 16) with 65536.
  change (2 ^ 15) with 32768.
  destruct (Z_lt_le_dec (Qtrunc v) 0) as [N|P].
  - replace (Qtrunc v mod 65536) with (Qtrunc v + 65536).
    + destruct (Z.leb_spec 32768 (Qtrunc v + 65536)); lia.
    + apply (Z.mod_unique_pos _ _ (-1)); lia.
  - rewrite Z.mod_small by lia.
    destruct (Z.leb_spec 32768 (Qtrunc v)); lia.
Qed.

Lemma Qle_bool_false (a b : Q) : Qle_bool a b = false <-> (b < a)%Q.
Proof.
  rewrite <- Qltb_lt. unfold Qltb. now rewrite negb_true_iff.
Qed.

Ltac Qcases :=
  repeat match goal with
    | |- context [Qltb ?a ?b] =>
        let E := fresh "C" in
        destruct (Qltb a b) eqn:E;
        [apply Qltb_lt in E | apply Qltb_ge in E]
    | |- context [Qle_bool ?a ?b] =>
        let E := fresh "C" in
        destruct (Qle_bool a b) eqn:E;
        [apply Qle_bool_iff in E | apply Qle_bool_false in E]
    end.

Lemma clamp_value_range (q : Q) : (-1 <= clamp_value q <= 1)%Q.
Proof. unfold clamp_value. Qcases; lra. Qed.

Lemma clamp_Fin (q : Q) :
  exists c, clamp (Fin q) = Fin c /\ (c == clamp_value q)%Q.
Proof.
  unfold clamp, Math_min, Math_max, of_Z, num_ltb, clamp_value, inject_Z.
  destruct (Qltb q (1 # 1)) eqn:A.
  - apply Qltb_lt in A. destruct (Qltb (-1 # 1) q) eqn:B.
    + apply Qltb_lt in B. exists q. split; [reflexivity|]. Qcases; lra.
    + apply Qltb_ge in B. exists (-1 # 1)%Q. split; [reflexivity|]. Qcases; lra.
  - apply Qltb_ge in A. exists (1 # 1)%Q. split; [reflexivity|]. Qcases; lra.
Qed.

Lemma scaled_range (c : Q) :
  (-1 <= c <= 1)%Q -> -32768 <= Qtrunc (scaled c) <= 32767.
Proof.
  intros [L U]. unfold scaled. Qcases.
  - split.
    + apply (Qtrunc_mono (-32768 # 1)). lra.
    + transitivity 0; [|lia]. apply (Qtrunc_mono _ 0). lra.
  - split.
    + transitivity 0; [lia|]. apply (Qtrunc_mono 0). lra.
    + apply (Qtrunc_mono _ (32767 # 1)). lra.
Qed.

Lemma quantize_Fin (q : Q) : quantize (Fin q) = Qtrunc (scaled (clamp_value q)).
Proof.
  destruct (clamp_Fin q) as (c & E & V). unfold quantize. rewrite E.
  pose proof (clamp_value_range q) as R.
  assert (S : exists v, scale (Fin c) = Fin v /\ (v == scaled (clamp_value q))%Q).
  { unfold scale, of_Z, num_ltb, num_mul, inject_Z, scaled.
    destruct (Qltb c (0 # 1)) eqn:A.
    - apply Qltb_lt in A. eexists. split; [reflexivity|]. Qcases; lra.
    - apply Qltb_ge in A. eexists. split; [reflexivity|]. Qcases; lra. }
  destruct S as (v & Sv & Ev). rewrite Sv.
  rewrite ToInt16_small; rewrite (Qtrunc_comp _ _ Ev).
  - reflexivity.
  - apply scaled_range, R.
Qed.

Lemma quantize_clamped (x : number) (c : Q) :
  clamped x = Some c -> quantize x = Qtrunc (scaled c).
Proof.
  destruct x as [|[|]|q]; simpl; intros E; try discriminate;
    injection E as <-.
  - reflexivity.
  - reflexivity.
  - apply quantize_Fin.
Qed.

Lemma quantize_NaN : quantize NaN = 0.
Proof. reflexivity. Qed.

Lemma quantize_range (x : number) : -32768 <= quantize x <= 32767.
Proof.
  destruct (clamped x) as [c|] eqn:E.
  - rewrite (quantize_clamped x c E). apply scaled_range.
    destruct x as [|[|]|q]; simpl in E; try discriminate; injection E as <-;
      try apply clamp_value_range; lra.
  - destruct x as [|[|]|q]; try discriminate. rewrite quantize_NaN. lia.
Qed.

(** ** Reading the fields of the output *)

Lemma le_value_le_bytes (size : nat) (v : Z) :
  le_value (le_bytes size v) = v mod 2 ^ (8 * Z.of_nat size).
Proof.
  revert v. induction size as [|k IH]; intros v.
  - simpl. now rewrite Z.mod_1_r.
  - change (le_value (le_bytes (S k) v))
      with (v mod 256 + 256 * le_value (le_bytes k (v / 256))).
    rewrite IH.
    replace (2 ^ (8 * Z.of_nat (S k))) with (256 * 2 ^ (8 * Z.of_nat k)).
    + rewrite Z.rem_mul_r; [reflexivity | lia | apply Z.pow_pos_nonneg; lia].
    + replace (8 * Z.of_nat (S k)) with (8 + 8 * Z.of_nat k) by lia.
      rewrite Z.pow_add_r by lia. reflexivity.
Qed.

Lemma uint32_field (v : number) : le_value (le_bytes 4 (ToUint32 v)) = ToUint32 v.
Proof.
  rewrite le_value_le_bytes. change (2 ^ (8 * Z.of_nat 4)) with (2 ^ 32).
  unfold ToUint32, ToUintN. destruct v; try reflexivity.
  apply Z.mod_mod. discriminate.
Qed.

Lemma uint16_field (v : number) : le_value (le_bytes 2 (ToUint16 v)) = ToUint16 v.
Proof.
  rewrite le_value_le_bytes. change (2 ^ (8 * Z.of_nat 2)) with (2 ^ 16).
  unfold ToUint16, ToUintN. destruct v; try reflexivity.
  apply Z.mod_mod. discriminate.
Qed.

Lemma header_layout (numChannels : nat) (sampleRate : number)
    (samples : list number) :
  let out := wav_bytes numChannels sampleRate samples in
  field 0 4 out = char_codes "RIFF"
  /\ uint_le 4 4 out = ToUint32 (of_nat (36 + length samples * 2))
  /\ field 8 4 out = char_codes "WAVE"
  /\ field 12 4 out = char_codes "fmt "
  /\ uint_le 16 4 out = 16
  /\ uint_le 20 2 out = 1
  /\ uint_le 22 2 out = ToUint16 (of_nat numChannels)
  /\ uint_le 24 4 out = ToUint32 sampleRate
  /\ uint_le 28 4 out
     = ToUint32 (num_mul (num_mul sampleRate (of_nat numChannels)) (of_Z 2))
  /\ uint_le 32 2 out = ToUint16 (of_nat (numChannels * 2))
  /\ uint_le 34 2 out = 16
  /\ field 36 4 out = char_codes "data"
  /\ uint_le 40 4 out = ToUint32 (of_nat (length samples * 2))
  /\ drop 44 out = pcm_bytes samples.
Proof.
  cbv zeta.
  repeat split;
    try reflexivity;
    try (rewrite <- uint32_field; reflexivity);
    try (rewrite <- uint16_field; reflexivity).
Qed.

Lemma ToUint32_of_nat (n : nat) : ToUint32 (of_nat n) = Z.of_nat n mod 2 ^ 32.
Proof. apply ToUintN_of_Z. Qed.

Lemma ToUint16_channels (numChannels : nat) :
  (numChannels <= 2)%nat ->
  ToUint16 (of_nat numChannels) = Z.of_nat numChannels
  /\ ToUint16 (of_nat (numChannels * 2)) = Z.of_nat numChannels * 2.
Proof.
  intros L. destruct numChannels as [|[|[|n]]]; try lia; split; reflexivity.
Qed.

Lemma ToUint32_byte_rate (rate : Z) (numChannels : nat) :
  ToUint32 (num_mul (num_mul (of_Z rate) (of_nat numChannels)) (of_Z 2))
  = (rate * Z.of_nat numChannels * 2) mod 2 ^ 32.
Proof.
  unfold ToUint32, ToUintN, num_mul, of_nat, of_Z, Qtrunc. simpl.
  now rewrite Z.quot_1_r.
Qed.

Lemma signed16_quantize (x : number) :
  int16s_le (le_bytes 2 (quantize x)) = [quantize x].
Proof.
  pose proof (quantize_range x) as R.
  change (int16s_le (le_bytes 2 (quantize x)))
    with [signed16 (le_value (le_bytes 2 (quantize x)))].
  rewrite le_value_le_bytes. change (2 ^ (8 * Z.of_nat 2)) with 65536.
  f_equal. unfold signed16. change (2 ^ 15) with 32768. change (2 ^ 16) with 65536.
  destruct (Z_lt_le_dec (quantize x) 0) as [N|P].
  - replace (quantize x mod 65536) with (quantize x + 65536)
      by (apply (Z.mod_unique_pos _ _ (-1)); lia).
    destruct (Z.leb_spec 32768 (quantize x + 65536)); lia.
  - rewrite Z.mod_small by lia.
    destruct (Z.leb_spec 32768 (quantize x)); lia.
Qed.

Lemma int16s_pcm_bytes (samples : list number) :
  int16s_le (pcm_bytes samples) = map quantize samples.
Proof.
  induction samples as [|x l IH]; [reflexivity|].
  unfold pcm_bytes in *. change (flat_map ?f (x :: ?l)) with (f x ++ flat_map f l).
  pose proof (signed16_quantize x) as S.
  remember (le_bytes 2 (quantize x)) as raw eqn:E.
  assert (L : length raw = 2%nat) by (subst raw; apply length_le_bytes).
  destruct raw as [|lo [|hi [|? ?]]]; try discriminate.
  change (int16s_le ([lo; hi] ++ ?r))
    with (signed16 (le_value [lo; hi]) :: int16s_le r).
  change (int16s_le [lo; hi]) with [signed16 (le_value [lo; hi])] in S.
  injection S as S. rewrite IH. simpl map. f_equal. exact S.
Qed.

(** ** The whole function *)

Lemma encodeWAV_run (h : Heap) (b : AudioBuffer.t) (data : list (list number)) :
  holds h b data ->
  data <> [] ->
  let numChannels := Nat.min 2 (length data) in
  let out := wav_bytes numChannels (AudioBuffer.sampleRate b) (interleaved_data data) in
  encodeWAV b h
  = inr (wav_blob numChannels (AudioBuffer.sampleRate b) (interleaved_data data),
         h ++ [Float32Array (interleaved_data data); ArrayBuffer out]).
Proof.
  intros H N. destruct data as [|c0 [|c1 rest]]; [contradiction| |].
  - apply encodeWAV_mono, H.
  - apply (encodeWAV_stereo h b c0 c1 rest H).
Qed.

Lemma length_interleaved_data (b : AudioBuffer.t) (data : list (list number)) :
  well_formed b data ->
  length (interleaved_data data)
  = (AudioBuffer.length b * Nat.min 2 (length data))%nat.
Proof.
  intros [N F]. destruct data as [|c0 [|c1 rest]]; [contradiction| |].
  - inversion F; subst. simpl. lia.
  - inversion F as [|? ? E0 F']; subst. inversion F' as [|? ? E1 _]; subst.
    simpl interleaved_data. rewrite length_interleaved_of, E1.
    simpl. lia.
Qed.

Lemma holds_decoded_audio (sampleRate : number) (frames : nat)
    (data : list (list number)) :
  holds (snd (decoded_audio sampleRate frames data))
        (fst (decoded_audio sampleRate frames data)) data.
Proof.
  unfold holds, decoded_audio. simpl.
  apply Forall2_same_length_lookup_2.
  - now rewrite length_seq.
  - intros i a c Ha Hc. apply lookup_seq in Ha as [-> _].
    rewrite Nat.add_0_l, list_lookup_fmap, Hc. reflexivity.
Qed.

(** ** Agreement with binary64 arithmetic

    The products of line 128 are exact: for every number [x] an element
    of a [Float32Array] can be, clamping and scaling [x] in binary64
    gives the number that [clamp] and [scale] give on the value of [x]. *)

Lemma digits2_pos_size (m : positive) : digits2_pos m = Pos.size m.
Proof. induction m as [m IH|m IH|]; simpl; now rewrite ?IH. Qed.

Lemma digits2_pos_bounds (m : positive) :
  2 ^ (Zpos (digits2_pos m) - 1) <= Zpos m < 2 ^ Zpos (digits2_pos m).
Proof.
  rewrite digits2_pos_size.
  pose proof (Pos.size_gt m) as G. pose proof (Pos.size_le m) as L.
  apply Pos2Z.pos_lt_pos in G. apply Pos2Z.pos_le_pos in L.
  rewrite Pos2Z.inj_pow in G, L.
  change (Zpos m~0) with (2 * Zpos m) in L.
  replace (2 ^ Zpos (Pos.size m)) with (2 * 2 ^ (Zpos (Pos.size m) - 1)) in L.
  - lia.
  - rewrite <- Z.pow_succ_r by lia. f_equal. lia.
Qed.

Lemma digits2_pos_unique (m : positive) (d : Z) :
  2 ^ (d - 1) <= Zpos m < 2 ^ d -> Zpos (digits2_pos m) = d.
Proof.
  intros [L U]. pose proof (digits2_pos_bounds m) as [L' U'].
  set (k := Zpos (digits2_pos m)) in *.
  assert (0 < d).
  { destruct (Z.lt_ge_cases 0 d) as [?|G]; [assumption|]. exfalso.
    destruct (Z.eq_dec d 0) as [->|]; [change (2 ^ 0) with 1 in U; lia|].
    rewrite (Z.pow_neg_r 2 d) in U by lia. lia. }
  destruct (Z.lt_trichotomy k d) as [C|[C|C]]; [|exact C|].
  - assert (2 ^ k <= 2 ^ (d - 1)) by (apply Z.pow_le_mono_r; lia). lia.
  - assert (2 ^ d <= 2 ^ (k - 1)) by (apply Z.pow_le_mono_r; lia). lia.
Qed.

Lemma iter_pos_iter {A} (f : A -> A) (n : positive) (x : A) :
  SpecFloat.iter_pos f n x = Pos.iter f x n.
Proof.
  revert x. induction n as [n IH|n IH|]; intros x; simpl.
  - rewrite !IH. now rewrite !Pos.iter_swap.
  - now rewrite !IH.
  - reflexivity.
Qed.

Lemma shr_1_even (k : Z) :
  0 < k -> (2 | k) ->
  shr_1 {| shr_m := k; shr_r := false; shr_s := false |}
  = {| shr_m := k / 2; shr_r := false; shr_s := false |}.
Proof.
  intros P [q E]. subst k. rewrite Z.div_mul by lia.
  destruct q as [|q|q]; try lia. simpl.
  rewrite Pos.mul_comm. reflexivity.
Qed.

(** Shifting right by [n] bits a significand whose low [n] bits are zero
    loses nothing: the round and sticky bits stay clear. *)
Lemma shr_exact (n : positive) (m : Z) :
  0 < m -> (2 ^ Zpos n | m) ->
  SpecFloat.iter_pos shr_1 n {| shr_m := m; shr_r := false; shr_s := false |}
  = {| shr_m := m / 2 ^ Zpos n; shr_r := false; shr_s := false |}.
Proof.
  rewrite iter_pos_iter. intros P. induction n as [|n IH] using Pos.peano_ind.
  - intros D. simpl Pos.iter. now apply shr_1_even.
  - intros D. rewrite Pos.iter_succ.
    rewrite Pos2Z.inj_succ, Z.pow_succ_r in D by lia.
    destruct D as [q E].
    assert (Q : 0 < q) by nia.
    rewrite IH by (exists (q * 2); lia).
    assert (K : m / 2 ^ Zpos n = q * 2).
    { rewrite E. replace (q * (2 * 2 ^ Zpos n)) with (q * 2 * 2 ^ Zpos n) by ring.
      apply Z.div_mul. apply Z.pow_nonzero; lia. }
    rewrite K, shr_1_even by (try exists q; lia).
    f_equal. rewrite Z.div_mul by lia.
    rewrite Pos2Z.inj_succ, Z.pow_succ_r by lia. rewrite E.
    replace (q * (2 * 2 ^ Zpos n)) with (q * (2 * 2 ^ Zpos n)) by ring.
    symmetry. apply Z.div_mul. apply Z.neq_mul_0. split; [lia|].
    apply Z.pow_nonzero; lia.
Qed.

Lemma shr_fexp_exact (M e : Z) (n : positive) :
  0 < M ->
  Zdigits2 M = 53 + Zpos n ->
  (2 ^ Zpos n | M) ->
  -1074 <= e + Zpos n ->
  shr_fexp 53 1024 M e loc_Exact
  = ({| shr_m := M / 2 ^ Zpos n; shr_r := false; shr_s := false |}, e + Zpos n).
Proof.
  intros P D V B. unfold shr_fexp, fexp, emin. rewrite D.
  change (3 - 1024 - 53) with (-1074).
  replace (Z.max (53 + Zpos n + e - 53) (-1074) - e) with (Zpos n) by lia.
  unfold shr, shr_record_of_loc. now rewrite shr_exact.
Qed.

Lemma shr_fexp_id (m e : Z) :
  Zdigits2 m = 53 ->
  -1074 <= e ->
  shr_fexp 53 1024 m e loc_Exact
  = ({| shr_m := m; shr_r := false; shr_s := false |}, e).
Proof.
  intros D B. unfold shr_fexp, fexp, emin. rewrite D.
  change (3 - 1024 - 53) with (-1074).
  replace (Z.max (53 + e - 53) (-1074) - e) with 0 by lia.
  reflexivity.
Qed.

(** A product whose significand has [53 + n] bits, the low [n] of them
    zero, is computed without rounding. *)
Lemma mul_exact (sx sy : bool) (mx my : positive) (ex ey : Z) (n : positive) :
  Zpos (digits2_pos (mx * my)) = 53 + Zpos n ->
  (2 ^ Zpos n | Zpos (mx * my)) ->
  -1074 <= ex + ey + Zpos n <= 971 ->
  exists q,
    Zpos (mx * my) = Zpos q * 2 ^ Zpos n /\
    Binary64.mul (S754_finite sx mx ex) (S754_finite sy my ey)
    = S754_finite (xorb sx sy) q (ex + ey + Zpos n).
Proof.
  intros D V [L U].
  pose proof (digits2_pos_bounds (mx * my)) as [BL BU]. rewrite D in BL, BU.
  destruct V as [k E].
  assert (P2 : 0 < 2 ^ Zpos n) by (apply Z.pow_pos_nonneg; lia).
  assert (K : 0 < k) by nia.
  destruct k as [|q|q]; try lia. exists q. split; [exact E|].
  replace (53 + Zpos n - 1) with (52 + Zpos n) in BL by lia.
  rewrite Z.pow_add_r in BL, BU by lia.
  assert (Q : 2 ^ 52 <= Zpos q < 2 ^ 53) by nia.
  unfold Binary64.mul, SFmul, binary_round_aux.
  rewrite (shr_fexp_exact (Zpos (mx * my)) (ex + ey) n) by (try exists (Zpos q); simpl; lia).
  cbn [shr_m loc_of_shr_record round_nearest_even].
  rewrite E, Z.div_mul by lia.
  rewrite shr_fexp_id by (simpl; try apply digits2_pos_unique; lia).
  cbn [shr_m].
  destruct (Z.leb_spec (ex + ey + Zpos n) (1024 - 53)); [reflexivity | lia].
Qed.

(** What [float32] says of a finite number. *)
Lemma float32_finite (s : bool) (m : positive) (e : Z) :
  Binary64.float32 (S754_finite s m e) = true ->
  2 ^ 52 <= Zpos m < 2 ^ 53 /\ (2 ^ 29 | Zpos m) /\ -201 <= e <= 75.
Proof.
  unfold Binary64.float32. rewrite !andb_true_iff. intros [[D V] U].
  apply Z.eqb_eq in D. apply Z.eqb_eq in V. apply Z.leb_le in U.
  pose proof (digits2_pos_bounds m) as B. rewrite D in B.
  change (53 - 1) with 52 in B.
  apply Z.mod_divide in V; [|apply Z.pow_nonzero; lia].
  split; [exact B|]. split.
  - destruct V as [k E]. exists (k * 2 ^ (Z.max 29 (-149 - e) - 29)).
    rewrite <- Z.mul_assoc, <- Z.pow_add_r by lia.
    rewrite E. do 2 f_equal. lia.
  - split; [|exact U].
    destruct (Z.le_gt_cases (-201) e) as [?|G]; [assumption|exfalso].
    assert (2 ^ 53 <= 2 ^ Z.max 29 (-149 - e)) by (apply Z.pow_le_mono_r; lia).
    assert (0 < 2 ^ Z.max 29 (-149 - e)) by (apply Z.pow_pos_nonneg; lia).
    destruct V as [k E].
    assert (0 < k) by nia.
    assert (2 ^ Z.max 29 (-149 - e) <= Zpos m) by nia.
    lia.
Qed.

Lemma mul_x8000 (s : bool) (m : positive) (e : Z) :
  2 ^ 52 <= Zpos m < 2 ^ 53 -> -201 <= e <= 75 ->
  Binary64.mul (S754_finite s m e) Binary64.x8000 = S754_finite s m (e + 15).
Proof.
  intros B E. unfold Binary64.x8000.
  destruct (mul_exact s false m 4503599627370496 e (-37) 52) as (q & Eq & R).
  - apply digits2_pos_unique. rewrite Pos2Z.inj_mul.
    change (53 + 52 - 1) with (52 + 52).
    rewrite !Z.pow_add_r by lia. lia.
  - exists (Zpos m). rewrite Pos2Z.inj_mul. reflexivity.
  - lia.
  - rewrite R, xorb_false_r. rewrite Pos2Z.inj_mul in Eq.
    change (Zpos 4503599627370496) with (2 ^ 52) in Eq.
    apply Z.mul_cancel_r in Eq; [|lia]. injection Eq as ->.
    f_equal. lia.
Qed.

Lemma mul_x7fff (s : bool) (m : positive) (e : Z) :
  2 ^ 52 <= Zpos m < 2 ^ 53 -> (2 ^ 29 | Zpos m) -> -201 <= e <= 75 ->
  exists (q : positive) (n : Z),
    14 <= n <= 15 /\
    Zpos m * 32767 = Zpos q * 2 ^ n /\
    Binary64.mul (S754_finite s m e) Binary64.x7fff = S754_finite s q (e + n).
Proof.
  intros B V E. unfold Binary64.x7fff.
  set (c := 9006924376834048%positive).
  pose proof (digits2_pos_bounds (m * c)) as D.
  assert (C : 2 ^ 52 <= Zpos c < 2 ^ 53) by (subst c; simpl; lia).
  assert (M : 2 ^ 104 <= Zpos (m * c) < 2 ^ 106).
  { rewrite Pos2Z.inj_mul. change (2 ^ 104) with (2 ^ 52 * 2 ^ 52).
    change (2 ^ 106) with (2 ^ 53 * 2 ^ 53). nia. }
  set (d := Zpos (digits2_pos (m * c))) in *.
  assert (Dd : 105 <= d <= 106).
  { split.
    - destruct (Z.le_gt_cases 105 d) as [?|G]; [assumption|exfalso].
      assert (2 ^ d <= 2 ^ 104) by (apply Z.pow_le_mono_r; lia). lia.
    - destruct (Z.le_gt_cases d 106) as [?|G]; [assumption|exfalso].
      assert (2 ^ 106 <= 2 ^ (d - 1)) by (apply Z.pow_le_mono_r; lia). lia. }
  assert (N : exists n : positive, d = 53 + Zpos n /\ 52 <= Zpos n <= 53).
  { exists (Z.to_pos (d - 53)). rewrite Z2Pos.id by lia. lia. }
  destruct N as (n & Nd & Nb).
  assert (V' : (2 ^ Zpos n | Zpos (m * c))).
  { destruct V as [k Ek]. rewrite Pos2Z.inj_mul, Ek.
    exists (k * 32767 * 2 ^ (67 - Zpos n)).
    replace (k * 32767 * 2 ^ (67 - Zpos n) * 2 ^ Zpos n)
      with (k * 32767 * (2 ^ (67 - Zpos n) * 2 ^ Zpos n)) by ring.
    rewrite <- Z.pow_add_r by lia.
    replace (67 - Zpos n + Zpos n) with 67 by lia.
    subst c. change (Zpos 9006924376834048) with (32767 * 2 ^ 38).
    change (2 ^ 67) with (2 ^ 29 * 2 ^ 38). ring. }
  destruct (mul_exact s false m c e (-38) n Nd V') as (q & Eq & R); [lia|].
  exists q, (Zpos n - 38). split; [lia|]. split.
  - rewrite Pos2Z.inj_mul in Eq. subst c.
    change (Zpos 9006924376834048) with (32767 * 2 ^ 38) in Eq.
    replace (Zpos n) with ((Zpos n - 38) + 38) in Eq by lia.
    rewrite Z.pow_add_r in Eq by lia.
    rewrite !Z.mul_assoc in Eq. apply Z.mul_cancel_r in Eq; [exact Eq | lia].
  - rewrite R, xorb_false_r. f_equal. lia.
Qed.

Lemma SFltb_finite (s1 s2 : bool) (m1 m2 : positive) (e1 e2 : Z) :
  SFltb (S754_finite s1 m1 e1) (S754_finite s2 m2 e2)
  = match s1, s2 with
    | true, false => true
    | false, true => false
    | false, false =>
        match e1 ?= e2 with Lt => true | Gt => false | Eq => (m1 <? m2)%positive end
    | true, true =>
        match e1 ?= e2 with Lt => false | Gt => true | Eq => (m2 <? m1)%positive end
    end.
Proof.
  unfold SFltb, SFcompare, Pos.ltb.
  destruct s1, s2; try reflexivity; destruct (e1 ?= e2); try reflexivity.
  rewrite (Pos.compare_antisym m1 m2). unfold Pos.compare.
  now destruct (Pos.compare_cont Eq m1 m2).
Qed.

(** Clamping leaves a number below 1 in magnitude unchanged and replaces
    any other by 1 or -1. *)
Lemma clamp_inside (s : bool) (m : positive) (e : Z) :
  e < -52 -> Binary64.clamp (S754_finite s m e) = S754_finite s m e.
Proof.
  intros E.
  unfold Binary64.clamp, Binary64.Math_min, Binary64.Math_max, Binary64.one, Binary64.minus_one, Binary64.is_nan.
  cbv beta iota delta [orb]. rewrite !SFltb_finite.
  destruct s.
  - destruct (Z.compare_spec (-52) e); try lia.
    cbv beta iota delta [Binary64.is_nan orb]. rewrite SFltb_finite.
    destruct (Z.compare_spec (-52) e); try lia. reflexivity.
  - destruct (Z.compare_spec e (-52)); try lia.
    cbv beta iota delta [Binary64.is_nan orb]. rewrite SFltb_finite. reflexivity.
Qed.

Lemma clamp_outside (s : bool) (m : positive) (e : Z) :
  2 ^ 52 <= Zpos m -> -52 <= e ->
  Binary64.clamp (S754_finite s m e) = if s then Binary64.minus_one else Binary64.one.
Proof.
  intros B E.
  assert (C : (m <? 4503599627370496)%positive = false).
  { apply Pos.ltb_ge. apply Pos2Z.pos_le_pos. lia. }
  unfold Binary64.clamp, Binary64.Math_min, Binary64.Math_max, Binary64.one, Binary64.minus_one, Binary64.is_nan.
  cbv beta iota delta [orb]. rewrite !SFltb_finite.
  destruct s.
  - cbv beta iota delta [Binary64.is_nan orb]. rewrite !SFltb_finite.
    destruct (Z.compare_spec (-52) e) as [<-|L|G]; try lia.
    + rewrite Z.compare_refl, C.
      destruct (4503599627370496 <? m)%positive; reflexivity.
    + destruct (Z.compare_spec e (-52)); try lia. reflexivity.
  - destruct (Z.compare_spec e (-52)) as [->|L|G]; try lia.
    + rewrite C. rewrite Z.compare_refl.
      destruct (4503599627370496 <? m)%positive;
        cbv beta iota delta [Binary64.is_nan orb Binary64.sign_bit]; rewrite ?SFltb_finite; reflexivity.
    + destruct (Z.compare_spec (-52) e); try lia.
      cbv beta iota delta [Binary64.is_nan orb Binary64.sign_bit]. rewrite ?SFltb_finite. reflexivity.
Qed.

Lemma pow2_pos (k : Z) : 0 <= k -> Zpos (Z.to_pos (2 ^ k)) = 2 ^ k.
Proof. intros K. apply Z2Pos.id. apply Z.pow_pos_nonneg; lia. Qed.

Lemma magnitude_inside (m : positive) (e : Z) :
  Zpos m < 2 ^ 53 -> e < -52 -> (0 < Binary64.magnitude m e < 1)%Q.
Proof.
  intros B E. unfold Binary64.magnitude.
  destruct (Z.leb_spec 0 e); [lia|].
  unfold Qlt. simpl Qnum. simpl Qden. rewrite pow2_pos by lia.
  assert (2 ^ 53 <= 2 ^ (- e)) by (apply Z.pow_le_mono_r; lia). lia.
Qed.

Lemma magnitude_outside (m : positive) (e : Z) :
  2 ^ 52 <= Zpos m -> -52 <= e -> (1 <= Binary64.magnitude m e)%Q.
Proof.
  intros B E. unfold Binary64.magnitude.
  destruct (Z.leb_spec 0 e).
  - unfold Qle. simpl.
    assert (1 <= 2 ^ e) by (apply (Z.pow_le_mono_r 2 0 e); lia). nia.
  - unfold Qle. simpl Qnum. simpl Qden. rewrite pow2_pos by lia.
    assert (2 ^ (- e) <= 2 ^ 52) by (apply Z.pow_le_mono_r; lia). lia.
Qed.

Lemma magnitude_scaled (m q : positive) (e n c : Z) :
  0 <= n -> e + n < 0 ->
  Zpos m * c = Zpos q * 2 ^ n ->
  (Binary64.magnitude q (e + n) == Binary64.magnitude m e * inject_Z c)%Q.
Proof.
  intros N E P. unfold Binary64.magnitude.
  destruct (Z.leb_spec 0 (e + n)); [lia|].
  destruct (Z.leb_spec 0 e); [lia|].
  unfold Qeq, Qmult, inject_Z. simpl Qnum. simpl Qden.
  rewrite Pos.mul_1_r, !pow2_pos by lia. rewrite P.
  replace (- e) with (- (e + n) + n) by lia.
  rewrite Z.pow_add_r by lia. ring.
Qed.

Lemma scaled_comp (c d : Q) : (c == d)%Q -> (scaled c == scaled d)%Q.
Proof. intros E. unfold scaled. Qcases; lra. Qed.

Lemma ToInt16_scaled (a c : Q) :
  (-1 <= c <= 1)%Q -> (a == scaled c)%Q -> ToInt16 (Fin a) = Qtrunc (scaled c).
Proof.
  intros R E. rewrite ToInt16_small; rewrite (Qtrunc_comp _ _ E).
  - reflexivity.
  - apply scaled_range, R.
Qed.

Lemma clamp_value_cases (v : Q) :
  ((-1 <= v <= 1)%Q -> (clamp_value v == v)%Q)
  /\ ((1 <= v)%Q -> (clamp_value v == 1)%Q)
  /\ ((v <= -1)%Q -> (clamp_value v == -1)%Q).
Proof. unfold clamp_value. repeat split; intros; Qcases; lra. Qed.

Lemma SFltb_zero (s : bool) (m : positive) (e : Z) :
  SFltb (S754_finite s m e) Binary64.zero = s.
Proof. destruct s; reflexivity. Qed.

(** The value stored for an element of a [Float32Array], computed in
    binary64, is the value [quantize] gives in exact arithmetic. *)
Lemma binary64_quantize (x : spec_float) :
  Binary64.float32 x = true ->
  Binary64.quantize x = quantize (Binary64.to_number x).
Proof.
  unfold Binary64.quantize.
  destruct x as [s|s| |s m e]; intros F; try (destruct s; reflexivity); [reflexivity|].
  destruct (float32_finite s m e F) as (B & V & E).
  unfold Binary64.to_number at 2. rewrite quantize_Fin.
  destruct (Z_lt_le_dec e (-52)) as [I|O].
  - rewrite (clamp_inside s m e I). unfold Binary64.scale. rewrite SFltb_zero.
    pose proof (magnitude_inside m e ltac:(lia) I) as G.
    destruct s.
    + rewrite (mul_x8000 true m e B E). unfold Binary64.to_number.
      destruct (clamp_value_cases (- Binary64.magnitude m e)) as (C & _ & _).
      apply ToInt16_scaled; [apply clamp_value_range|].
      rewrite (scaled_comp _ _ (C ltac:(lra))).
      pose proof (magnitude_scaled m m e 15 32768 ltac:(lia) ltac:(lia) eq_refl) as S.
      unfold scaled, inject_Z in *. Qcases; lra.
    + destruct (mul_x7fff false m e B V E) as (q & n & N & P & R).
      rewrite R. unfold Binary64.to_number.
      destruct (clamp_value_cases (Binary64.magnitude m e)) as (C & _ & _).
      apply ToInt16_scaled; [apply clamp_value_range|].
      rewrite (scaled_comp _ _ (C ltac:(lra))).
      pose proof (magnitude_scaled m q e n 32767 ltac:(lia) ltac:(lia) P) as S.
      unfold scaled, inject_Z in *. Qcases; lra.
  - rewrite (clamp_outside s m e ltac:(lia) O).
    pose proof (magnitude_outside m e ltac:(lia) O) as G.
    destruct s.
    + destruct (clamp_value_cases (- Binary64.magnitude m e)) as (_ & _ & C).
      rewrite (Qtrunc_comp _ _ (scaled_comp _ _ (C ltac:(lra)))). reflexivity.
    + destruct (clamp_value_cases (Binary64.magnitude m e)) as (_ & C & _).
      rewrite (Qtrunc_comp _ _ (scaled_comp _ _ (C ltac:(lra)))). reflexivity.
Qed.

Lemma magnitude_uniform (m : positive) (e : Z) :
  -201 <= e ->
  (Binary64.magnitude m e == (Zpos m * 2 ^ (e + 201)) # Z.to_pos (2 ^ 201))%Q.
Proof.
  intros E. unfold Binary64.magnitude.
  destruct (Z.leb_spec 0 e).
  - unfold Qeq, inject_Z. cbn [Qnum Qden]. rewrite pow2_pos by lia.
    rewrite Z.pow_add_r by lia. ring.
  - unfold Qeq. cbn [Qnum Qden]. rewrite !pow2_pos by lia.
    rewrite <- Z.mul_assoc, <- Z.pow_add_r by lia.
    replace (e + 201 + - e) with 201 by lia. reflexivity.
Qed.

Lemma magnitude_compare (m1 m2 : positive) (e1 e2 : Z) :
  2 ^ 52 <= Zpos m1 < 2 ^ 53 -> 2 ^ 52 <= Zpos m2 < 2 ^ 53 ->
  -201 <= e1 -> -201 <= e2 ->
  match e1 ?= e2 with
  | Lt => (Binary64.magnitude m1 e1 < Binary64.magnitude m2 e2)%Q
  | Gt => (Binary64.magnitude m2 e2 < Binary64.magnitude m1 e1)%Q
  | Eq => match (m1 ?= m2)%positive with
          | Lt => (Binary64.magnitude m1 e1 < Binary64.magnitude m2 e2)%Q
          | Gt => (Binary64.magnitude m2 e2 < Binary64.magnitude m1 e1)%Q
          | Eq => (Binary64.magnitude m1 e1 == Binary64.magnitude m2 e2)%Q
          end
  end.
Proof.
  intros B1 B2 E1 E2.
  pose proof (magnitude_uniform m1 e1 E1) as U1.
  pose proof (magnitude_uniform m2 e2 E2) as U2.
  assert (P : forall a b : Z, a < b ->
                (a # Z.to_pos (2 ^ 201) < b # Z.to_pos (2 ^ 201))%Q).
  { intros a b L. unfold Qlt. cbn [Qnum Qden]. rewrite pow2_pos by lia.
    apply Z.mul_lt_mono_pos_r; [apply Z.pow_pos_nonneg; lia | exact L]. }
  assert (S : forall m m' e e', 2 ^ 52 <= Zpos m < 2 ^ 53 -> 2 ^ 52 <= Zpos m' < 2 ^ 53 ->
                -201 <= e -> e < e' ->
                Zpos m * 2 ^ (e + 201) < Zpos m' * 2 ^ (e' + 201)).
  { intros m m' e e' Bm Bm' Ee L.
    assert (0 < 2 ^ (e + 201)) by (apply Z.pow_pos_nonneg; lia).
    assert (2 * 2 ^ (e + 201) <= 2 ^ (e' + 201)).
    { rewrite <- Z.pow_succ_r by lia. apply Z.pow_le_mono_r; lia. }
    nia. }
  destruct (Z.compare_spec e1 e2) as [->|L|G].
  - assert (0 < 2 ^ (e2 + 201)) by (apply Z.pow_pos_nonneg; lia).
    destruct (Pos.compare_spec m1 m2) as [->|L|G].
    + reflexivity.
    + rewrite U1, U2. apply P. apply Z.mul_lt_mono_pos_r; [assumption|].
      apply Pos2Z.pos_lt_pos, L.
    + rewrite U1, U2. apply P. apply Z.mul_lt_mono_pos_r; [assumption|].
      apply Pos2Z.pos_lt_pos, G.
  - rewrite U1, U2. apply P, S; assumption.
  - rewrite U1, U2. apply P, S; assumption.
Qed.

Lemma magnitude_pos (m : positive) (e : Z) : (0 < Binary64.magnitude m e)%Q.
Proof.
  unfold Binary64.magnitude. destruct (0 <=? e) eqn:C.
  - apply Z.leb_le in C. unfold Qlt, inject_Z. cbn [Qnum Qden].
    assert (0 < 2 ^ e) by (apply Z.pow_pos_nonneg; lia). nia.
  - unfold Qlt. cbn [Qnum Qden]. lia.
Qed.

Lemma SFleb_finite (s1 s2 : bool) (m1 m2 : positive) (e1 e2 : Z) :
  SFleb (S754_finite s1 m1 e1) (S754_finite s2 m2 e2)
  = match s1, s2 with
    | true, false => true
    | false, true => false
    | false, false =>
        match e1 ?= e2 with
        | Lt => true | Gt => false
        | Eq => match (m1 ?= m2)%positive with Gt => false | _ => true end
        end
    | true, true =>
        match e1 ?= e2 with
        | Lt => false | Gt => true
        | Eq => match (m1 ?= m2)%positive with Lt => false | _ => true end
        end
    end.
Proof.
  unfold SFleb, SFcompare, Pos.compare.
  destruct s1, s2; try reflexivity; destruct (e1 ?= e2); try reflexivity;
    now destruct (Pos.compare_cont Eq m1 m2).
Qed.

(** [x <= y] in binary64 is [x <= y] on the values. *)
Lemma binary64_leb (x y : spec_float) :
  Binary64.float32 x = true -> Binary64.float32 y = true ->
  SFleb x y = num_leb (Binary64.to_number x) (Binary64.to_number y).
Proof.
  intros Fx Fy.
  destruct x as [sx|sx| |sx mx ex], y as [sy|sy| |sy my ey];
    try (destruct sx; reflexivity); try (destruct sy; reflexivity);
    try (destruct sx, sy; reflexivity); try reflexivity.
  - pose proof (magnitude_pos my ey) as P.
    destruct sy; unfold Binary64.to_number, num_leb; symmetry.
    + apply Qle_bool_false. lra.
    + apply Qle_bool_iff. lra.
  - pose proof (magnitude_pos mx ex) as P.
    destruct sx; unfold Binary64.to_number, num_leb; symmetry.
    + apply Qle_bool_iff. lra.
    + apply Qle_bool_false. lra.
  - destruct (float32_finite sx mx ex Fx) as (Bx & _ & Ex).
    destruct (float32_finite sy my ey Fy) as (By & _ & Ey).
    pose proof (magnitude_pos mx ex) as Px.
    pose proof (magnitude_pos my ey) as Py.
    pose proof (magnitude_compare mx my ex ey Bx By ltac:(lia) ltac:(lia)) as C.
    rewrite SFleb_finite. unfold Binary64.to_number, num_leb. symmetry.
    destruct sx, sy.
    + destruct (ex ?= ey); [destruct (mx ?= my)%positive|..];
        first [apply Qle_bool_iff; lra | apply Qle_bool_false; lra].
    + apply Qle_bool_iff. lra.
    + apply Qle_bool_false. lra.
    + destruct (ex ?= ey); [destruct (mx ?= my)%positive|..];
        first [apply Qle_bool_iff; lra | apply Qle_bool_false; lra].
Qed.

(** Multiplying by a power of two only moves the exponent. *)
Lemma mul_power_of_two (s : bool) (m : positive) (e k : Z) :
  2 ^ 52 <= Zpos m < 2 ^ 53 -> -1126 <= e + k <= 919 ->
  Binary64.mul (S754_finite s m e) (S754_finite false 4503599627370496 k)
  = S754_finite s m (e + k + 52).
Proof.
  intros B E.
  destruct (mul_exact s false m 4503599627370496 e k 52) as (q & Eq & R).
  - apply digits2_pos_unique. rewrite Pos2Z.inj_mul.
    change (53 + 52 - 1) with (52 + 52).
    rewrite !Z.pow_add_r by lia. lia.
  - exists (Zpos m). rewrite Pos2Z.inj_mul. reflexivity.
  - lia.
  - rewrite R, xorb_false_r. rewrite Pos2Z.inj_mul in Eq.
    change (Zpos 4503599627370496) with (2 ^ 52) in Eq.
    apply Z.mul_cancel_r in Eq; [|lia]. injection Eq as ->. reflexivity.
Qed.

Lemma magnitude_shift (m : positive) (e k : Z) :
  0 <= k ->
  (Binary64.magnitude m (e + k) == Binary64.magnitude m e * inject_Z (2 ^ k))%Q.
Proof.
  intros K. unfold Binary64.magnitude.
  assert (P : 0 < 2 ^ k) by (apply Z.pow_pos_nonneg; lia).
  destruct (Z.leb_spec 0 e), (Z.leb_spec 0 (e + k)); try lia;
    unfold Qeq, Qmult, inject_Z; cbn [Qnum Qden]; rewrite ?Pos.mul_1_r.
  - rewrite Z.pow_add_r by lia. ring.
  - rewrite (pow2_pos (- e)) by lia.
    replace (2 ^ k) with (2 ^ (e + k) * 2 ^ (- e))
      by (rewrite <- Z.pow_add_r by lia; f_equal; lia).
    ring.
  - rewrite (pow2_pos (- e)), (pow2_pos (- (e + k))) by lia.
    replace (2 ^ (- e)) with (2 ^ (- (e + k)) * 2 ^ k)
      by (rewrite <- Z.pow_add_r by lia; f_equal; lia).
    ring.
Qed.

(** The byte rate of line 117: the products of a sample rate by the
    channel count (1 or 2, that is 2^52 * 2^(numChannels - 53)) and by 2
    are exact. *)
Lemma binary64_byte_rate (m : positive) (e : Z) (numChannels : nat) :
  2 ^ 52 <= Zpos m < 2 ^ 53 -> -1000 <= e <= 900 ->
  (1 <= numChannels <= 2)%nat ->
  let channels := S754_finite false 4503599627370496
                    (Z.of_nat numChannels - 53) in
  (exists c, Binary64.to_number channels = Fin c
             /\ (c == inject_Z (Z.of_nat numChannels))%Q)
  /\ exists v w,
       Binary64.to_number
         (Binary64.mul (Binary64.mul (S754_finite false m e) channels)
            (S754_finite false 4503599627370496 (-51))) = Fin v
       /\ num_mul (num_mul (Binary64.to_number (S754_finite false m e))
                     (of_nat numChannels)) (of_Z 2) = Fin w
       /\ (v == w)%Q.
Proof.
  intros B E N. cbv zeta. split.
  - eexists. split; [reflexivity|].
    destruct numChannels as [|[|[|?]]]; try lia; reflexivity.
  - rewrite mul_power_of_two by lia.
    rewrite mul_power_of_two by lia.
    eexists _, _. split; [reflexivity|]. split; [reflexivity|].
    replace (e + (Z.of_nat numChannels - 53) + 52 + -51 + 52)
      with (e + Z.of_nat numChannels) by lia.
    rewrite (magnitude_shift m e (Z.of_nat numChannels)) by lia.
    destruct numChannels as [|[|[|?]]]; try lia; unfold of_nat, of_Z, inject_Z.
    + change (2 ^ Z.of_nat 1) with 2. change (Z.of_nat 1) with 1. lra.
    + change (2 ^ Z.of_nat 2) with 4. change (Z.of_nat 2) with 2. lra.
Qed.

(** ** Decoding the output, monotonicity, and the quantization error *)

Lemma reference_decode_wav_bytes (numChannels : nat) (sampleRate : number)
    (samples : list number) :
  reference_decode (wav_bytes numChannels sampleRate samples)
  = Some {| d_channelCount := ToUint16 (of_nat numChannels);
            d_sampleRate := ToUint32 sampleRate;
            d_frameCount := ToUint32 (of_nat (length samples * 2))
                            / ToUint16 (of_nat (numChannels * 2));
            d_samples :=
              map normalize
                (int16s_le
                   (take (Z.to_nat (ToUint32 (of_nat (length samples * 2))))
                      (pcm_bytes samples))) |}.
Proof.
  destruct (header_layout numChannels sampleRate samples)
    as (F0 & F4 & F8 & F12 & F16 & F20 & F22 & F24 & F28 & F32 & F34 & F36 & F40 & P).
  unfold reference_decode.
  rewrite F0, F8, F12, F16, F20, F22, F24, F32, F34, F36, F40, P.
  rewrite !bool_decide_eq_true_2 by reflexivity. reflexivity.
Qed.

Lemma interleaved_data_empty (data : list (list number)) :
  Forall (fun c => c = []) data -> interleaved_data data = [].
Proof.
  intros F. destruct data as [|c0 [|c1 rest]]; [reflexivity| |].
  - inversion F; subst. reflexivity.
  - inversion F as [|? ? -> F']; subst. inversion F' as [|? ? -> _]; subst.
    reflexivity.
Qed.

Lemma clamped_mono (x y : number) :
  num_leb x y = true ->
  exists cx cy, clamped x = Some cx /\ clamped y = Some cy /\ (cx <= cy)%Q.
Proof.
  destruct x as [|[|]|p], y as [|[|]|q]; simpl; intros L; try discriminate;
    eexists _, _; (split; [reflexivity | split; [reflexivity |]]);
    try apply Qle_bool_iff in L;
    try (pose proof (clamp_value_range p));
    try (pose proof (clamp_value_range q));
    try lra.
  unfold clamp_value. Qcases; lra.
Qed.

Lemma scaled_mono (c d : Q) : (c <= d)%Q -> (scaled c <= scaled d)%Q.
Proof. intros L. unfold scaled. Qcases; lra. Qed.

Lemma quantize_mono (s1 s2 : number) :
  num_leb s1 s2 = true -> quantize s1 <= quantize s2.
Proof.
  intros L. destruct (clamped_mono s1 s2 L) as (c1 & c2 & E1 & E2 & C).
  rewrite (quantize_clamped s1 c1 E1), (quantize_clamped s2 c2 E2).
  apply Qtrunc_mono, scaled_mono, C.
Qed.

Lemma normalize_error (v : Q) :
  (-1 <= v <= 1)%Q ->
  (Qabs (normalize (Qtrunc (scaled v)) - v) < 2 / 32768)%Q
  /\ ((v <= 0)%Q -> (Qabs (normalize (Qtrunc (scaled v)) - v) < 1 / 32768)%Q).
Proof.
  intros [L U]. unfold normalize, scaled, Qdiv.
  change (/ 32768)%Q with (1 # 32768)%Q.
  destruct (Qle_bool v 0) eqn:C.
  - apply Qle_bool_iff in C.
    destruct (Qtrunc_nonpos (v * 32768)) as [A B]; [lra|].
    split; [|intros _]; apply Qabs_Qlt_condition; split; lra.
  - apply Qle_bool_false in C.
    destruct (Qtrunc_nonneg (v * 32767)) as [A B]; [lra|].
    split; [apply Qabs_Qlt_condition; split; lra | intros N; lra].
Qed.

Lemma interleaved_lookup (b : AudioBuffer.t) (data : list (list number))
    (c i : nat) (channel : list number) (x : number) :
  well_formed b data ->
  (c < Nat.min 2 (length data))%nat ->
  data !! c = Some channel ->
  channel !! i = Some x ->
  interleaved_data data !! (i * Nat.min 2 (length data) + c)%nat = Some x.
Proof.
  intros [N F] Lc Hc Hx. destruct data as [|c0 [|c1 rest]]; [contradiction| |].
  - simpl in Lc. assert (c = 0%nat) as -> by lia.
    injection Hc as ->. simpl. now rewrite Nat.mul_1_r, Nat.add_0_r.
  - inversion F as [|? ? E0 F']; subst. inversion F' as [|? ? E1 _]; subst.
    assert (E : length c0 = length c1) by lia.
    simpl interleaved_data. rewrite interleaved_of_alternate by exact E.
    destruct (lookup_alternate c0 c1 i E) as [A B].
    replace (Nat.min 2 (length (c0 :: c1 :: rest))) with 2%nat in * by (simpl; lia).
    destruct c as [|[|c]]; [| |lia].
    + injection Hc as ->. rewrite Nat.add_0_r, Nat.mul_comm, A. exact Hx.
    + injection Hc as ->. rewrite Nat.mul_comm, B. exact Hx.
Qed.

(** * The claims *)

(** C1, as amended.  For every decoded input with an integer sample
    rate, the output starts with a 44-byte header laid out as 'RIFF', a
    32-bit field, 'WAVE', 'fmt ', 16 (32 bits), 1 (16 bits), the output
    channel count (16 bits), the sample rate (32 bits), the byte rate
    [sampleRate * outputChannelCount * 2] (32 bits), the block alignment
    [outputChannelCount * 2] (16 bits), 16 (16 bits), 'data' and the
    payload byte length (32 bits), all little-endian, where each 32-bit
    field holds its value modulo 2^32 and the payload byte length is the
    output length minus 44.  When the byte rate and [36 +
    payloadByteLength] are below 2^32 the 32-bit fields hold the values
    themselves: the field at offset 4 is the output length minus 8 and
    the field at offset 40 the output length minus 44. *)
Theorem header_fields (h : Heap) (b : AudioBuffer.t) (rate : Z)
    (data : list (list number)) :
  holds h b data ->
  well_formed b data ->
  integer_rate b rate ->
  exists blob h',
    encodeWAV b h = inr (blob, h') /\
    canonical_header (AudioBuffer.length b) (length data) rate (blob_bytes blob) /\
    (rate * Z.of_nat (Nat.min 2 (length data)) * 2 < 2 ^ 32 ->
     Z.of_nat (length (blob_bytes blob)) - 8 < 2 ^ 32 ->
     exact_header (length data) rate (blob_bytes blob)).
Proof.
  intros H W [R P]. pose proof W as [N _].
  eexists _, _. split; [apply (encodeWAV_run h b data H N)|].
  unfold wav_blob, canonical_header, exact_header. cbn [blob_bytes]. cbv zeta.
  destruct (header_layout (Nat.min 2 (length data)) (AudioBuffer.sampleRate b)
              (interleaved_data data))
    as (F0 & F4 & F8 & F12 & F16 & F20 & F22 & F24 & F28 & F32 & F34 & F36 & F40 & _).
  cbv zeta in F0, F4, F8, F12, F16, F20, F22, F24, F28, F32, F34, F36, F40.
  rewrite F0, F4, F8, F12, F16, F20, F22, F24, F28, F32, F34, F36, F40.
  rewrite R, ToUint32_byte_rate, !ToUint32_of_nat.
  destruct (ToUint16_channels (Nat.min 2 (length data)) ltac:(lia)) as [-> ->].
  unfold ToUint32. rewrite ToUintN_of_Z.
  rewrite length_wav_bytes, (length_interleaved_data b data W).
  set (n := Nat.min 2 (length data)).
  set (f := AudioBuffer.length b).
  replace (Z.of_nat (44 + f * n * 2) - 44) with (Z.of_nat (f * n * 2)) by lia.
  replace (Z.of_nat (36 + f * n * 2)) with (36 + Z.of_nat (f * n * 2)) by lia.
  assert (B : 1 <= Z.of_nat n <= 2)
    by (subst n; destruct data as [|? [|? ?]]; [contradiction | simpl; lia ..]).
  repeat split; try reflexivity; try lia;
    try (rewrite Z.mod_small; lia).
Qed.

Lemma header_fields_witness :
  holds (snd stereo_example) (fst stereo_example)
    [[Fin 0; Fin (1 # 2)]; [Fin (-1 # 2); Fin 1]]
  /\ well_formed (fst stereo_example)
       [[Fin 0; Fin (1 # 2)]; [Fin (-1 # 2); Fin 1]]
  /\ integer_rate (fst stereo_example) 48000
  /\ exists blob h',
       encodeWAV (fst stereo_example) (snd stereo_example) = inr (blob, h') /\
       canonical_header 2 2 48000 (blob_bytes blob) /\
       (48000 * Z.of_nat (Nat.min 2 2) * 2 < 2 ^ 32 ->
        Z.of_nat (length (blob_bytes blob)) - 8 < 2 ^ 32 ->
        exact_header 2 48000 (blob_bytes blob)).
Proof.
  assert (H : holds (snd stereo_example) (fst stereo_example)
                [[Fin 0; Fin (1 # 2)]; [Fin (-1 # 2); Fin 1]])
    by (repeat constructor).
  assert (W : well_formed (fst stereo_example)
                [[Fin 0; Fin (1 # 2)]; [Fin (-1 # 2); Fin 1]])
    by (split; [discriminate | repeat constructor]).
  assert (R : integer_rate (fst stereo_example) 48000)
    by (split; reflexivity).
  split; [exact H | split; [exact W | split; [exact R |]]].
  exact (header_fields _ _ _ _ H W R).
Defined.

(** C1, counterexample.  At a sample rate of 2^32 Hz (one channel, one
    frame) the 32-bit sample rate field holds 0, not the sample rate, and
    the byte rate field holds 0, not [sampleRate * 1 * 2]. *)
Lemma sample_rate_field_wraps :
  holds (snd high_rate_example) (fst high_rate_example) [[Fin 0]]
  /\ well_formed (fst high_rate_example) [[Fin 0]]
  /\ integer_rate (fst high_rate_example) 4294967296
  /\ exists blob h',
       encodeWAV (fst high_rate_example) (snd high_rate_example) = inr (blob, h') /\
       uint_le 24 4 (blob_bytes blob) = 0 /\
       uint_le 24 4 (blob_bytes blob) <> 4294967296 /\
       uint_le 28 4 (blob_bytes blob) <> 4294967296 * 1 * 2.
Proof.
  split; [repeat constructor|].
  split; [split; [discriminate | repeat constructor]|].
  split; [split; reflexivity|].
  eexists _, _. split; [vm_compute; reflexivity|].
  vm_compute. repeat split; discriminate.
Qed.

(** C2.  For every valid input (at least one channel, every channel
    holding [frameCount] samples), [encodeWAV] returns, and the byte length
    of its output is [44 + frameCount * min(2, channelCount) * 2]. *)
Theorem output_length (h : Heap) (b : AudioBuffer.t) (data : list (list number)) :
  holds h b data ->
  well_formed b data ->
  exists blob h',
    encodeWAV b h = inr (blob, h') /\
    length (blob_bytes blob)
    = (44 + AudioBuffer.length b * Nat.min 2 (length data) * 2)%nat.
Proof.
  intros H W. pose proof W as [N _].
  eexists _, _. split; [apply (encodeWAV_run h b data H N)|].
  unfold wav_blob. cbn [blob_bytes].
  now rewrite length_wav_bytes, (length_interleaved_data b data W).
Qed.

Lemma output_length_witness :
  holds (snd surround_example) (fst surround_example)
    [[Fin 0; Fin (1 # 2)]; [Fin (-1 # 2); Fin 1]; [Fin 1; Fin 1]]
  /\ well_formed (fst surround_example)
       [[Fin 0; Fin (1 # 2)]; [Fin (-1 # 2); Fin 1]; [Fin 1; Fin 1]]
  /\ exists blob h',
       encodeWAV (fst surround_example) (snd surround_example) = inr (blob, h') /\
       length (blob_bytes blob) = 52%nat.
Proof.
  assert (H : holds (snd surround_example) (fst surround_example)
                [[Fin 0; Fin (1 # 2)]; [Fin (-1 # 2); Fin 1]; [Fin 1; Fin 1]])
    by (repeat constructor).
  assert (W : well_formed (fst surround_example)
                [[Fin 0; Fin (1 # 2)]; [Fin (-1 # 2); Fin 1]; [Fin 1; Fin 1]])
    by (split; [discriminate | repeat constructor]).
  split; [exact H | split; [exact W |]].
  exact (output_length _ _ _ H W).
Defined.

(** C3.  A sample that is a number is clamped to [[-1, 1]], scaled by
    32768 when negative or zero and by 32767 when positive, and truncated
    toward zero, in the exact arithmetic of [number] and in binary64
    alike; the value stored is always within [[-32768, 32767]] ([NaN] is
    stored as 0); +1.5 is stored as 32767 and -1.5 as -32768.  The 16-bit
    little-endian payload of the output is the quantized interleaved
    array. *)
Theorem quantization :
  (forall x c, clamped x = Some c -> quantize x = Qtrunc (scaled c))
  /\ (forall x c,
        Binary64.float32 x = true ->
        clamped (Binary64.to_number x) = Some c ->
        Binary64.quantize x = Qtrunc (scaled c))
  /\ (forall x, -32768 <= quantize x <= 32767)
  /\ quantize NaN = 0
  /\ quantize (Fin (3 # 2)) = 32767
  /\ quantize (Fin (-3 # 2)) = -32768
  /\ (forall (h : Heap) (b : AudioBuffer.t) (data : list (list number)),
         holds h b data ->
         data <> [] ->
         exists blob h' il,
           encodeWAV b h = inr (blob, h') /\
           h' !! length h = Some (Float32Array il) /\
           int16s_le (drop 44 (blob_bytes blob)) = map quantize il)
  /\ exists blob h',
       encodeWAV (fst clipping_example) (snd clipping_example) = inr (blob, h') /\
       int16s_le (drop 44 (blob_bytes blob)) = [32767; -32768].
Proof.
  split; [exact quantize_clamped|].
  split; [intros x c F E; rewrite (binary64_quantize x F);
          exact (quantize_clamped _ c E)|].
  split; [exact quantize_range|].
  split; [reflexivity|]. split; [reflexivity|]. split; [reflexivity|].
  split.
  - intros h b data H N. eexists _, _, _.
    split; [apply (encodeWAV_run h b data H N)|]. split.
    + change (h ++ [?a; ?c]) with (h ++ [a] ++ [c]).
      rewrite app_assoc. apply lookup_below, lookup_top.
    + unfold wav_blob. cbn [blob_bytes].
      destruct (header_layout (Nat.min 2 (length data)) (AudioBuffer.sampleRate b)
                  (interleaved_data data)) as (_&_&_&_&_&_&_&_&_&_&_&_&_&P).
      cbv zeta in P. rewrite P. apply int16s_pcm_bytes.
  - eexists _, _. split; vm_compute; reflexivity.
Qed.

Lemma quantization_witness :
  clamped (Fin (3 # 2)) = Some 1%Q
  /\ quantize (Fin (3 # 2)) = Qtrunc (scaled 1).
Proof.
  split; [reflexivity|].
  exact (proj1 quantization (Fin (3 # 2)) 1%Q eq_refl).
Defined.

(** C4.  With two output channels, the interleaved array alternates
    channel 0 and channel 1 frame by frame and holds [frameCount * 2]
    samples; for channel 0 = [0.0, 0.5] and channel 1 = [-0.5, 1.0] it is
    exactly [0.0, -0.5, 0.5, 1.0]. *)
Theorem stereo_interleaving :
  (forall (h : Heap) (b : AudioBuffer.t) (c0 c1 : list number)
          (rest : list (list number)),
      holds h b (c0 :: c1 :: rest) ->
      well_formed b (c0 :: c1 :: rest) ->
      exists r h' il,
        interleave b (Nat.min 2 (AudioBuffer.numberOfChannels b)) h = inr (r, h') /\
        h' !! r = Some (Float32Array il) /\
        length il = (AudioBuffer.length b * 2)%nat /\
        forall i, il !! (2 * i)%nat = c0 !! i /\ il !! (2 * i + 1)%nat = c1 !! i)
  /\ exists r h',
       interleave (fst stereo_example) 2 (snd stereo_example) = inr (r, h') /\
       h' !! r = Some (Float32Array [Fin 0; Fin (-1 # 2); Fin (1 # 2); Fin 1]).
Proof.
  split.
  - intros h b c0 c1 rest H [_ W].
    pose proof (holds_length _ _ _ H) as N.
    inversion W as [|? ? E0 W']; subst. inversion W' as [|? ? E1 _]; subst.
    assert (E : length c0 = length c1) by lia.
    replace (Nat.min 2 (AudioBuffer.numberOfChannels b)) with 2%nat
      by (rewrite N; simpl; lia).
    unfold holds in H.
    destruct (AudioBuffer.channels b) as [|r0 [|r1 rs]] eqn:C;
      inversion H as [|? ? ? ? H0 H']; subst;
      inversion H' as [|? ? ? ? H1 _]; subst.
    exists (length h), (h ++ [Float32Array (interleaved_of c0 c1)]), (alternate c0 c1).
    split; [|split; [|split]].
    + apply (interleave_stereo_run b h r0 r1); try assumption; now rewrite C.
    + rewrite interleaved_of_alternate by exact E. apply lookup_top.
    + rewrite length_alternate by exact E. lia.
    + intros i. apply lookup_alternate, E.
  - eexists _, _. split; reflexivity.
Qed.

Lemma stereo_interleaving_witness :
  holds (snd stereo_example) (fst stereo_example)
    [[Fin 0; Fin (1 # 2)]; [Fin (-1 # 2); Fin 1]]
  /\ well_formed (fst stereo_example)
       [[Fin 0; Fin (1 # 2)]; [Fin (-1 # 2); Fin 1]]
  /\ exists r h' il,
       interleave (fst stereo_example)
         (Nat.min 2 (AudioBuffer.numberOfChannels (fst stereo_example)))
         (snd stereo_example) = inr (r, h') /\
       h' !! r = Some (Float32Array il) /\
       length il = (AudioBuffer.length (fst stereo_example) * 2)%nat /\
       forall i, il !! (2 * i)%nat = [Fin 0; Fin (1 # 2)] !! i /\
                 il !! (2 * i + 1)%nat = [Fin (-1 # 2); Fin 1] !! i.
Proof.
  assert (H : holds (snd stereo_example) (fst stereo_example)
                [[Fin 0; Fin (1 # 2)]; [Fin (-1 # 2); Fin 1]])
    by (repeat constructor).
  assert (W : well_formed (fst stereo_example)
                [[Fin 0; Fin (1 # 2)]; [Fin (-1 # 2); Fin 1]])
    by (split; [discriminate | repeat constructor]).
  split; [exact H | split; [exact W |]].
  exact (proj1 stereo_interleaving _ _ _ _ _ H W).
Defined.

(** C5, as amended.  For every valid input whose sample rate and payload
    byte length are below 2^32, the reference decoder accepts the output
    and returns the frame count, [min(2, channelCount)] and the sample
    rate of the input; the decoded sample at frame [i] of output channel
    [c] differs from the clamped sample of the source by less than
    2/32768, and by less than 1/32768 when the clamped sample is negative
    or zero. *)
Theorem round_trip (h : Heap) (b : AudioBuffer.t) (rate : Z)
    (data : list (list number)) :
  holds h b data ->
  well_formed b data ->
  integer_rate b rate ->
  rate < 2 ^ 32 ->
  Z.of_nat (AudioBuffer.length b) * Z.of_nat (Nat.min 2 (length data)) * 2 < 2 ^ 32 ->
  exists blob h' d,
    encodeWAV b h = inr (blob, h') /\
    reference_decode (blob_bytes blob) = Some d /\
    d_frameCount d = Z.of_nat (AudioBuffer.length b) /\
    d_channelCount d = Z.of_nat (Nat.min 2 (length data)) /\
    d_sampleRate d = rate /\
    length (d_samples d)
    = (AudioBuffer.length b * Nat.min 2 (length data))%nat /\
    forall (c i : nat) (channel : list number) (x : number) (v : Q),
      (c < Nat.min 2 (length data))%nat ->
      data !! c = Some channel ->
      channel !! i = Some x ->
      clamped x = Some v ->
      exists s,
        d_samples d !! (i * Nat.min 2 (length data) + c)%nat = Some s /\
        (Qabs (s - v) < 2 / 32768)%Q /\
        ((v <= 0)%Q -> (Qabs (s - v) < 1 / 32768)%Q).
Proof.
  intros H W [R P] Br Bp. pose proof W as [N _].
  pose proof (length_interleaved_data b data W) as L.
  set (n := Nat.min 2 (length data)) in *.
  assert (B : (1 <= n <= 2)%nat)
    by (subst n; destruct data as [|? [|? ?]]; [contradiction | simpl; lia ..]).
  eexists _, _, _. split; [apply (encodeWAV_run h b data H N)|].
  unfold wav_blob. cbn [blob_bytes]. fold n.
  split; [apply reference_decode_wav_bytes|].
  cbn [d_frameCount d_channelCount d_sampleRate d_samples].
  destruct (ToUint16_channels n ltac:(lia)) as [-> ->].
  rewrite !ToUint32_of_nat, R. unfold ToUint32. rewrite ToUintN_of_Z, L.
  rewrite (Z.mod_small (Z.of_nat _)) by lia.
  rewrite (Z.mod_small rate) by lia.
  rewrite Nat2Z.id, take_ge by (rewrite length_pcm_bytes; lia).
  rewrite int16s_pcm_bytes.
  split; [|split; [reflexivity | split; [reflexivity | split]]].
  - replace (Z.of_nat (AudioBuffer.length b * n * 2))
      with (Z.of_nat (AudioBuffer.length b) * (Z.of_nat n * 2)) by lia.
    apply Z.div_mul. lia.
  - now rewrite !length_map, L.
  - intros c i channel x v Lc Hc Hx Hv.
    exists (normalize (quantize x)). split.
    + change (map normalize (map quantize ?l))
        with (normalize <$> (quantize <$> l)).
      rewrite !list_lookup_fmap. unfold n.
      now rewrite (interleaved_lookup b data c i channel x W Lc Hc Hx).
    + rewrite (quantize_clamped x v Hv). apply normalize_error.
      destruct x as [|[|]|q]; simpl in Hv; try discriminate; injection Hv as <-;
        try apply clamp_value_range; lra.
Qed.

Lemma round_trip_witness :
  holds (snd stereo_example) (fst stereo_example)
    [[Fin 0; Fin (1 # 2)]; [Fin (-1 # 2); Fin 1]]
  /\ well_formed (fst stereo_example)
       [[Fin 0; Fin (1 # 2)]; [Fin (-1 # 2); Fin 1]]
  /\ integer_rate (fst stereo_example) 48000
  /\ 48000 < 2 ^ 32
  /\ Z.of_nat (AudioBuffer.length (fst stereo_example))
     * Z.of_nat (Nat.min 2 2) * 2 < 2 ^ 32
  /\ exists blob h' d,
       encodeWAV (fst stereo_example) (snd stereo_example) = inr (blob, h') /\
       reference_decode (blob_bytes blob) = Some d /\
       d_frameCount d = Z.of_nat (AudioBuffer.length (fst stereo_example)) /\
       d_channelCount d = Z.of_nat (Nat.min 2 2) /\
       d_sampleRate d = 48000 /\
       length (d_samples d)
       = (AudioBuffer.length (fst stereo_example) * Nat.min 2 2)%nat /\
       forall (c i : nat) (channel : list number) (x : number) (v : Q),
         (c < Nat.min 2 2)%nat ->
         [[Fin 0; Fin (1 # 2)]; [Fin (-1 # 2); Fin 1]] !! c = Some channel ->
         channel !! i = Some x ->
         clamped x = Some v ->
         exists s,
           d_samples d !! (i * Nat.min 2 2 + c)%nat = Some s /\
           (Qabs (s - v) < 2 / 32768)%Q /\
           ((v <= 0)%Q -> (Qabs (s - v) < 1 / 32768)%Q).
Proof.
  assert (H : holds (snd stereo_example) (fst stereo_example)
                [[Fin 0; Fin (1 # 2)]; [Fin (-1 # 2); Fin 1]])
    by (repeat constructor).
  assert (W : well_formed (fst stereo_example)
                [[Fin 0; Fin (1 # 2)]; [Fin (-1 # 2); Fin 1]])
    by (split; [discriminate | repeat constructor]).
  assert (R : integer_rate (fst stereo_example) 48000)
    by (split; reflexivity).
  split; [exact H | split; [exact W | split; [exact R |]]].
  split; [reflexivity | split; [reflexivity |]].
  exact (round_trip _ _ _ _ H W R eq_refl eq_refl).
Defined.

(** C5, counterexample.  For the one-frame mono input with the sample
    32769/65536 (which lies in [[-1, 1]], so clamping leaves it unchanged)
    the value stored is 16383, the reference decoder returns 16383/32768,
    and this differs from the source sample by 3/65536, more than 1/32768;
    so does 16383/32767, the value under the other usual normalization.
    The sample is an element a [Float32Array] can hold, and its
    quantization in binary64 is 16383 as well. *)
Lemma round_trip_error_exceeds_step :
  holds (snd fine_sample_example) (fst fine_sample_example) [[Fin (32769 # 65536)]]
  /\ well_formed (fst fine_sample_example) [[Fin (32769 # 65536)]]
  /\ integer_rate (fst fine_sample_example) 48000
  /\ clamped (Fin (32769 # 65536)) = Some (32769 # 65536)%Q
  /\ (exists blob h' d,
        encodeWAV (fst fine_sample_example) (snd fine_sample_example)
        = inr (blob, h') /\
        int16s_le (drop 44 (blob_bytes blob)) = [16383] /\
        reference_decode (blob_bytes blob) = Some d /\
        d_frameCount d = 1 /\
        d_samples d = [(16383 # 32768)%Q] /\
        ~ (Qabs ((16383 # 32768) - (32769 # 65536)) <= 1 / 32768)%Q /\
        ~ (Qabs ((16383 # 32767) - (32769 # 65536)) <= 1 / 32768)%Q)
  /\ Binary64.float32 fine_sample_binary64 = true
  /\ (exists v, Binary64.to_number fine_sample_binary64 = Fin v
                /\ (v == 32769 # 65536)%Q)
  /\ Binary64.quantize fine_sample_binary64 = 16383.
Proof.
  split; [repeat constructor|].
  split; [split; [discriminate | repeat constructor]|].
  split; [split; reflexivity|].
  split; [reflexivity|].
  split.
  - eexists _, _, _. split; [vm_compute; reflexivity|].
    split; [vm_compute; reflexivity|].
    split; [vm_compute; reflexivity|].
    split; [vm_compute; reflexivity|].
    split; [vm_compute; reflexivity|].
    split; intros L; vm_compute in L; apply L; reflexivity.
  - split; [reflexivity|]. split; [|vm_compute; reflexivity].
    eexists. split; [reflexivity|]. reflexivity.
Qed.

(** C6.  For a one-channel input the channel count field of the output
    is 1, the payload is [frameCount * 2] bytes long, and the interleaved
    array is a copy of channel 0: a newly allocated array, distinct from
    every object of the caller (so from the array of channel 0), with the
    elements of channel 0 in order, the caller's objects being left as
    they were. *)
Theorem mono_output (h : Heap) (b : AudioBuffer.t) (c0 : list number) :
  holds h b [c0] ->
  well_formed b [c0] ->
  (exists r h1,
      interleave b (Nat.min 2 (AudioBuffer.numberOfChannels b)) h = inr (r, h1) /\
      h1 !! r = Some (Float32Array c0) /\
      h !! r = None /\
      ~ In r (AudioBuffer.channels b) /\
      forall a o, h !! a = Some o -> h1 !! a = Some o)
  /\ exists blob h',
       encodeWAV b h = inr (blob, h') /\
       uint_le 22 2 (blob_bytes blob) = 1 /\
       length (drop 44 (blob_bytes blob)) = (AudioBuffer.length b * 2)%nat.
Proof.
  intros H [_ W]. inversion W as [|? ? E0 _]; subst.
  pose proof (holds_length _ _ _ H) as N. split.
  - replace (Nat.min 2 (AudioBuffer.numberOfChannels b)) with 1%nat
      by (rewrite N; reflexivity).
    unfold holds in H.
    destruct (AudioBuffer.channels b) as [|r0 rs] eqn:C;
      inversion H as [|? ? ? ? H0 H']; subst. inversion H'; subst.
    exists (length h), (h ++ [Float32Array c0]). repeat split.
    + apply (interleave_mono_run b h r0); [lia | now rewrite C | exact H0].
    + apply lookup_top.
    + apply lookup_ge_None_2. lia.
    + intros [E|[]]. apply lookup_lt_Some in H0. lia.
    + intros a o. apply lookup_app_l_Some.
  - eexists _, _. split; [apply (encodeWAV_mono h b c0 H)|].
    unfold wav_blob. cbn [blob_bytes]. split; [reflexivity|].
    rewrite length_drop, length_wav_bytes. lia.
Qed.

Lemma mono_output_witness :
  holds (snd clipping_example) (fst clipping_example) [[Fin (3 # 2); Fin (-3 # 2)]]
  /\ well_formed (fst clipping_example) [[Fin (3 # 2); Fin (-3 # 2)]]
  /\ (exists r h1,
        interleave (fst clipping_example)
          (Nat.min 2 (AudioBuffer.numberOfChannels (fst clipping_example)))
          (snd clipping_example) = inr (r, h1) /\
        h1 !! r = Some (Float32Array [Fin (3 # 2); Fin (-3 # 2)]) /\
        snd clipping_example !! r = None /\
        ~ In r (AudioBuffer.channels (fst clipping_example)) /\
        forall a o, snd clipping_example !! a = Some o -> h1 !! a = Some o)
  /\ exists blob h',
       encodeWAV (fst clipping_example) (snd clipping_example) = inr (blob, h') /\
       uint_le 22 2 (blob_bytes blob) = 1 /\
       length (drop 44 (blob_bytes blob))
       = (AudioBuffer.length (fst clipping_example) * 2)%nat.
Proof.
  assert (H : holds (snd clipping_example) (fst clipping_example)
                [[Fin (3 # 2); Fin (-3 # 2)]])
    by (repeat constructor).
  assert (W : well_formed (fst clipping_example) [[Fin (3 # 2); Fin (-3 # 2)]])
    by (split; [discriminate | repeat constructor]).
  split; [exact H | split; [exact W |]].
  exact (mono_output _ _ _ H W).
Defined.

(** C7.  For every input with no frame and at least one channel, the
    output is exactly 44 bytes long and the data chunk size field at
    offset 40 is 0. *)
Theorem zero_frames_output (h : Heap) (b : AudioBuffer.t)
    (data : list (list number)) :
  holds h b data ->
  well_formed b data ->
  AudioBuffer.length b = 0%nat ->
  exists blob h',
    encodeWAV b h = inr (blob, h') /\
    length (blob_bytes blob) = 44%nat /\
    uint_le 40 4 (blob_bytes blob) = 0.
Proof.
  intros H W Z. pose proof W as [N _].
  pose proof (length_interleaved_data b data W) as L. rewrite Z in L. simpl in L.
  eexists _, _. split; [apply (encodeWAV_run h b data H N)|].
  unfold wav_blob. cbn [blob_bytes]. split.
  - now rewrite length_wav_bytes, L.
  - destruct (header_layout (Nat.min 2 (length data)) (AudioBuffer.sampleRate b)
                (interleaved_data data)) as (_&_&_&_&_&_&_&_&_&_&_&_&D&_).
    rewrite D, L. reflexivity.
Qed.

Lemma zero_frames_output_witness :
  holds (snd empty_mono_example) (fst empty_mono_example) [[]]
  /\ well_formed (fst empty_mono_example) [[]]
  /\ AudioBuffer.length (fst empty_mono_example) = 0%nat
  /\ exists blob h',
       encodeWAV (fst empty_mono_example) (snd empty_mono_example) = inr (blob, h') /\
       length (blob_bytes blob) = 44%nat /\
       uint_le 40 4 (blob_bytes blob) = 0.
Proof.
  assert (H : holds (snd empty_mono_example) (fst empty_mono_example) [[]])
    by (repeat constructor).
  assert (W : well_formed (fst empty_mono_example) [[]])
    by (split; [discriminate | repeat constructor]).
  split; [exact H | split; [exact W | split; [reflexivity |]]].
  exact (zero_frames_output _ _ _ H W eq_refl).
Defined.

Lemma wav_bytes_valid (numChannels frames : nat) (rate : Z)
    (samples : list number) :
  (1 <= numChannels <= 2)%nat ->
  0 < rate ->
  length samples = (frames * numChannels)%nat ->
  rate * Z.of_nat numChannels * 2 < 2 ^ 32 ->
  Z.of_nat (length (wav_bytes numChannels (of_Z rate) samples)) - 8 < 2 ^ 32 ->
  valid_container (wav_bytes numChannels (of_Z rate) samples)
  /\ uint_le 22 2 (wav_bytes numChannels (of_Z rate) samples) = Z.of_nat numChannels
  /\ uint_le 24 4 (wav_bytes numChannels (of_Z rate) samples) = rate.
Proof.
  intros C P S BR BL. unfold valid_container. cbv zeta.
  destruct (header_layout numChannels (of_Z rate) samples)
    as (F0 & F4 & F8 & F12 & F16 & F20 & F22 & F24 & F28 & F32 & F34 & F36 & F40 & _).
  cbv zeta in F0, F4, F8, F12, F16, F20, F22, F24, F28, F32, F34, F36, F40.
  rewrite F0, F4, F8, F12, F16, F20, F22, F24, F28, F32, F34, F36, F40.
  rewrite ToUint32_byte_rate, !ToUint32_of_nat.
  destruct (ToUint16_channels numChannels ltac:(lia)) as [-> ->].
  unfold ToUint32. rewrite ToUintN_of_Z.
  rewrite length_wav_bytes in BL |- *. rewrite S in BL |- *.
  rewrite (Z.mod_small rate) by nia.
  rewrite (Z.mod_small (rate * Z.of_nat numChannels * 2)) by nia.
  rewrite !Z.mod_small by lia.
  repeat split; try reflexivity; try lia.
  replace (Z.of_nat (frames * numChannels * 2))
    with (Z.of_nat frames * (Z.of_nat numChannels * 2)) by lia.
  apply Z.mod_mul. lia.
Qed.

(** C8, as amended.  On every input with at least one channel
    [encodeWAV] returns without raising.  Its output is a container of at
    least 44 bytes that the reference decoder accepts; the channel count
    field holds the number of output channels, the block alignment twice
    that, and the two size fields the length of the output less 8 and
    less 44, modulo 2^32.  When the input is well formed, its sample rate
    a positive integer, and neither the byte rate nor the length of the
    output less 8 reaches 2^32, the output is a valid container at that
    sample rate.  When the channels hold no frame the output is the
    44-byte header alone, with a RIFF chunk size of 36 and a data chunk
    size of 0. *)
Theorem total_with_a_channel (h : Heap) (b : AudioBuffer.t)
    (data : list (list number)) :
  holds h b data ->
  data <> [] ->
  exists blob h',
    encodeWAV b h = inr (blob, h') /\
    (44 <= length (blob_bytes blob))%nat /\
    reference_decode (blob_bytes blob) <> None /\
    uint_le 22 2 (blob_bytes blob) = Z.of_nat (Nat.min 2 (length data)) /\
    uint_le 32 2 (blob_bytes blob) = Z.of_nat (Nat.min 2 (length data)) * 2 /\
    uint_le 4 4 (blob_bytes blob)
    = (Z.of_nat (length (blob_bytes blob)) - 8) mod 2 ^ 32 /\
    uint_le 40 4 (blob_bytes blob)
    = (Z.of_nat (length (blob_bytes blob)) - 44) mod 2 ^ 32 /\
    (forall rate : Z,
        well_formed b data ->
        integer_rate b rate ->
        rate * Z.of_nat (Nat.min 2 (length data)) * 2 < 2 ^ 32 ->
        Z.of_nat (length (blob_bytes blob)) - 8 < 2 ^ 32 ->
        valid_container (blob_bytes blob)
        /\ uint_le 24 4 (blob_bytes blob) = rate) /\
    (Forall (fun c => c = []) data ->
     length (blob_bytes blob) = 44%nat
     /\ uint_le 4 4 (blob_bytes blob) = 36
     /\ uint_le 40 4 (blob_bytes blob) = 0).
Proof.
  intros H N.
  eexists _, _. split; [apply (encodeWAV_run h b data H N)|].
  unfold wav_blob. cbn [blob_bytes].
  assert (C : (1 <= Nat.min 2 (length data) <= 2)%nat)
    by (destruct data as [|? [|? ?]]; [contradiction | simpl; lia ..]).
  destruct (header_layout (Nat.min 2 (length data)) (AudioBuffer.sampleRate b)
              (interleaved_data data))
    as (_ & F4 & _ & _ & _ & _ & F22 & _ & _ & F32 & _ & _ & F40 & _).
  cbv zeta in F4, F22, F32, F40.
  destruct (ToUint16_channels (Nat.min 2 (length data)) ltac:(lia)) as [C22 C32].
  split; [rewrite length_wav_bytes; lia|].
  split; [now rewrite reference_decode_wav_bytes|].
  split; [now rewrite F22, C22|].
  split; [now rewrite F32, C32|].
  split; [rewrite F4, ToUint32_of_nat, length_wav_bytes; f_equal; lia|].
  split; [rewrite F40, ToUint32_of_nat, length_wav_bytes; f_equal; lia|].
  split.
  - intros rate W [R P] BR BL. rewrite R in BL |- *.
    destruct (wav_bytes_valid (Nat.min 2 (length data)) (AudioBuffer.length b)
                rate (interleaved_data data) C P
                (length_interleaved_data b data W) BR BL) as (V & _ & V24).
    split; assumption.
  - intros E. rewrite length_wav_bytes, (interleaved_data_empty data E).
    split; [reflexivity|].
    destruct (header_layout (Nat.min 2 (length data)) (AudioBuffer.sampleRate b) [])
      as (_ & E4 & _ & _ & _ & _ & _ & _ & _ & _ & _ & _ & E40 & _).
    cbv zeta in E4, E40. rewrite E4, E40. split; reflexivity.
Qed.

Lemma total_with_a_channel_witness :
  holds (snd empty_mono_example) (fst empty_mono_example) [[]]
  /\ [[] : list number] <> []
  /\ exists blob h',
       encodeWAV (fst empty_mono_example) (snd empty_mono_example) = inr (blob, h') /\
       reference_decode (blob_bytes blob) <> None /\
       valid_container (blob_bytes blob) /\
       uint_le 22 2 (blob_bytes blob) = 1 /\
       uint_le 24 4 (blob_bytes blob) = 48000 /\
       length (blob_bytes blob) = 44%nat /\
       uint_le 4 4 (blob_bytes blob) = 36 /\
       uint_le 40 4 (blob_bytes blob) = 0.
Proof.
  assert (H : holds (snd empty_mono_example) (fst empty_mono_example) [[]])
    by (repeat constructor).
  assert (N : [[] : list number] <> []) by discriminate.
  split; [exact H | split; [exact N |]].
  destruct (total_with_a_channel _ _ _ H N)
    as (blob & h' & E & _ & D & C & _ & _ & _ & V & Z).
  exists blob, h'. split; [exact E | split; [exact D |]].
  assert (W : well_formed (fst empty_mono_example) [[]])
    by (split; [discriminate | repeat constructor]).
  assert (R : integer_rate (fst empty_mono_example) 48000)
    by (split; reflexivity).
  assert (L : length (blob_bytes blob) = 44%nat)
    by (apply Z; repeat constructor).
  assert (BR : 48000 * Z.of_nat (Nat.min 2 (length [[] : list number])) * 2 < 2 ^ 32)
    by (simpl; lia).
  assert (BL : Z.of_nat (length (blob_bytes blob)) - 8 < 2 ^ 32)
    by (rewrite L; simpl; lia).
  destruct (V 48000 W R BR BL) as (V0 & V24).
  split; [exact V0 | split; [exact C | split; [exact V24 |]]].
  apply Z. repeat constructor.
Defined.

(** C8, counterexample.  On an input with no channel, [encodeWAV] raises
    the [IndexSizeError] of [getChannelData(0)] instead of returning a
    container. *)
Lemma zero_channels_raise :
  holds (snd no_channel_example) (fst no_channel_example) []
  /\ encodeWAV (fst no_channel_example) (snd no_channel_example)
     = inl IndexSizeError
  /\ ~ exists blob h',
         encodeWAV (fst no_channel_example) (snd no_channel_example)
         = inr (blob, h').
Proof.
  split; [constructor | split; [reflexivity |]].
  intros (blob & h' & E). discriminate E.
Qed.

(** C9.  Channels beyond index 1 are dropped: two inputs with the same
    sample rate that agree on channels 0 and 1 give the same output, byte
    for byte, whatever their further channels are. *)
Theorem extra_channels_dropped (h1 h2 : Heap) (b1 b2 : AudioBuffer.t)
    (c0 c1 : list number) (rest1 rest2 : list (list number)) :
  holds h1 b1 (c0 :: c1 :: rest1) ->
  holds h2 b2 (c0 :: c1 :: rest2) ->
  AudioBuffer.sampleRate b1 = AudioBuffer.sampleRate b2 ->
  exists blob h1' h2',
    encodeWAV b1 h1 = inr (blob, h1') /\ encodeWAV b2 h2 = inr (blob, h2').
Proof.
  intros H1 H2 E.
  rewrite (encodeWAV_stereo h1 b1 c0 c1 rest1 H1).
  rewrite (encodeWAV_stereo h2 b2 c0 c1 rest2 H2).
  rewrite E. eexists _, _, _. split; reflexivity.
Qed.

Lemma extra_channels_dropped_witness :
  holds (snd stereo_example) (fst stereo_example)
    [[Fin 0; Fin (1 # 2)]; [Fin (-1 # 2); Fin 1]]
  /\ holds (snd surround_example) (fst surround_example)
       [[Fin 0; Fin (1 # 2)]; [Fin (-1 # 2); Fin 1]; [Fin 1; Fin 1]]
  /\ AudioBuffer.sampleRate (fst stereo_example)
     = AudioBuffer.sampleRate (fst surround_example)
  /\ exists blob h1' h2',
       encodeWAV (fst stereo_example) (snd stereo_example) = inr (blob, h1') /\
       encodeWAV (fst surround_example) (snd surround_example) = inr (blob, h2').
Proof.
  assert (H1 : holds (snd stereo_example) (fst stereo_example)
                 [[Fin 0; Fin (1 # 2)]; [Fin (-1 # 2); Fin 1]])
    by (repeat constructor).
  assert (H2 : holds (snd surround_example) (fst surround_example)
                 [[Fin 0; Fin (1 # 2)]; [Fin (-1 # 2); Fin 1]; [Fin 1; Fin 1]])
    by (repeat constructor).
  split; [exact H1 | split; [exact H2 | split; [reflexivity |]]].
  exact (extra_channels_dropped _ _ _ _ _ _ _ _ H1 H2 eq_refl).
Defined.

(** C10.  The quantization is monotone: when [s1 <= s2], the value
    stored for [s1] is at most the value stored for [s2]; and so it is
    when the comparison, the clamping and the scaling are those of
    binary64 on elements of a [Float32Array]. *)
Theorem quantize_monotone :
  (forall s1 s2 : number,
      num_leb s1 s2 = true -> quantize s1 <= quantize s2)
  /\ (forall x y : spec_float,
        Binary64.float32 x = true ->
        Binary64.float32 y = true ->
        SFleb x y = true ->
        Binary64.quantize x <= Binary64.quantize y).
Proof.
  split; [exact quantize_mono|].
  intros x y Fx Fy L.
  rewrite (binary64_quantize x Fx), (binary64_quantize y Fy).
  apply quantize_mono. now rewrite <- (binary64_leb x y Fx Fy).
Qed.

Lemma quantize_monotone_witness :
  num_leb (Fin (-3 # 2)) (Fin (1 # 2)) = true
  /\ quantize (Fin (-3 # 2)) <= quantize (Fin (1 # 2)).
Proof.
  split; [reflexivity|].
  exact (proj1 quantize_monotone (Fin (-3 # 2)) (Fin (1 # 2)) eq_refl).
Defined.

(** * Further properties

    Properties of the rest of [recorder.js], and of [encodeWAV] beyond
    the claims above. *)

(** ** [writeString] on any view *)

Lemma setUint8_run (h : Heap) (view i : nat) (v : number) (block : list Z) :
  h !! view = Some (ArrayBuffer block) ->
  setUint8 view i v h
  = if (i + 1 <=? length block)%nat
    then inr (tt, <[view := ArrayBuffer (<[i := ToUint8 v mod 256]> block)]> h)
    else inl RangeError.
Proof.
  intros E. unfold setUint8, SetViewValue, NumericToRawBytes. rewrite E. reflexivity.
Qed.

Lemma writeString_from (view offset : nat) (s : JSString) :
  forall (s' : JSString) (i : nat) (h : Heap) (p q : list Z),
    (forall j, s !! (i + j)%nat = s' !! j) ->
    h !! view = Some (ArrayBuffer (p ++ q)) ->
    (offset + i)%nat = length p ->
    (length s' <= length q)%nat ->
    for_loop (length s') i
      (fun i _ => setUint8 view (offset + i) (charCodeAt s i)) tt h
    = inr (tt, <[view := ArrayBuffer ((p ++ low_bytes s')
                                        ++ drop (length s') q)]> h).
Proof.
  induction s' as [|c s' IH]; intros i h p q G V E L.
  - simpl. unfold ret. rewrite app_nil_r, list_insert_id by exact V. reflexivity.
  - simpl length. rewrite for_loop_S.
    pose proof (G 0%nat) as G0. rewrite Nat.add_0_r in G0. simpl in G0.
    simpl in L. destruct q as [|x q]; simpl in L; [lia|].
    erewrite bind_run; cycle 1.
    { rewrite (setUint8_run h view _ _ (p ++ x :: q) V).
      destruct (Nat.leb_spec (offset + i + 1) (length (p ++ x :: q))) as [_|B];
        [reflexivity | rewrite length_app in B; simpl in B; lia]. }
    unfold charCodeAt. rewrite G0.
    assert (T : ToUint8 (of_Z c) mod 256 = c mod 256)
      by (injection (ToUint8_code c) as T; exact T).
    rewrite T.
    rewrite E, (insert_app_r_alt p _ (length p)), Nat.sub_diag by lia. simpl.
    rewrite (IH (S i) _ (p ++ [c mod 256]) q).
    + rewrite list_insert_insert_eq. unfold low_bytes. simpl.
      rewrite <- (app_assoc p [_]). reflexivity.
    + intros j. transitivity (s !! (i + S j)%nat); [f_equal; lia | exact (G (S j))].
    + rewrite list_lookup_insert_eq by (apply lookup_lt_Some in V; exact V).
      now rewrite <- app_assoc.
    + rewrite length_app. simpl. lia.
    + lia.
Qed.

Lemma writeString_run (h : Heap) (view offset : nat) (s : JSString) (block : list Z) :
  h !! view = Some (ArrayBuffer block) ->
  (offset + length s <= length block)%nat ->
  writeString view offset s h
  = inr (tt, <[view := ArrayBuffer (take offset block ++ low_bytes s
                                      ++ drop (offset + length s) block)]> h).
Proof.
  intros V L. unfold writeString.
  rewrite (writeString_from view offset s s 0 h (take offset block) (drop offset block)).
  - now rewrite drop_drop, <- app_assoc.
  - reflexivity.
  - now rewrite take_drop.
  - rewrite length_take. lia.
  - rewrite length_drop. lia.
Qed.

Lemma writeString_overrun (view offset : nat) (s : JSString) :
  forall (s' : JSString) (i : nat) (h : Heap) (block : list Z),
    h !! view = Some (ArrayBuffer block) ->
    s' <> [] ->
    (length block < offset + i + length s')%nat ->
    for_loop (length s') i
      (fun i _ => setUint8 view (offset + i) (charCodeAt s i)) tt h
    = inl RangeError.
Proof.
  induction s' as [|c s' IH]; intros i h block V N L; [contradiction|].
  simpl length. rewrite for_loop_S.
  destruct (Nat.leb_spec (offset + i + 1) (length block)) as [B|B].
  - erewrite bind_run; cycle 1.
    { rewrite (setUint8_run h view _ _ block V).
      destruct (Nat.leb_spec (offset + i + 1) (length block)); [reflexivity | lia]. }
    apply (IH (S i) _ (<[(offset + i)%nat := ToUint8 (charCodeAt s i) mod 256]> block)).
    + apply list_lookup_insert_eq. apply lookup_lt_Some in V. exact V.
    + intros ->. simpl in L. lia.
    + rewrite length_insert. simpl in L. lia.
  - apply bind_fail. rewrite (setUint8_run h view _ _ block V).
    destruct (Nat.leb_spec (offset + i + 1) (length block)); [lia | reflexivity].
Qed.

Lemma low_bytes_small (s : JSString) :
  Forall (fun c => 0 <= c < 256) s -> low_bytes s = s.
Proof.
  unfold low_bytes. induction 1 as [|c s' C _ IH]; simpl; [reflexivity|].
  rewrite IH. now rewrite Z.mod_small by exact C.
Qed.

(** X1.  When the string fits in the view, [writeString(view, offset,
    string)] returns, the byte at [offset + i] is the code unit
    [charCodeAt(i)] modulo 256, which is the character code itself when
    every code unit is below 256, every other byte of the buffer and every
    other object are as before, and the length of the buffer is
    unchanged. *)
Theorem writeString_effect (h : Heap) (view offset : nat) (s : JSString)
    (block : list Z) :
  h !! view = Some (ArrayBuffer block) ->
  (offset + length s <= length block)%nat ->
  exists block',
    writeString view offset s h = inr (tt, <[view := ArrayBuffer block']> h) /\
    length block' = length block /\
    field offset (length s) block' = map (fun c => c mod 256) s /\
    (Forall (fun c => 0 <= c < 256) s -> field offset (length s) block' = s) /\
    forall i, (i < offset \/ offset + length s <= i)%nat ->
              block' !! i = block !! i.
Proof.
  intros V L.
  exists (take offset block ++ low_bytes s ++ drop (offset + length s) block).
  split; [apply writeString_run; assumption|].
  assert (T : length (take offset block) = offset) by (rewrite length_take; lia).
  assert (N : length (low_bytes s) = length s) by apply length_map.
  assert (F : field offset (length s)
                (take offset block ++ low_bytes s ++ drop (offset + length s) block)
              = low_bytes s).
  { unfold field. rewrite drop_app_length' by (symmetry; exact T).
    apply take_app_length'. symmetry. exact N. }
  split; [|split; [|split]].
  - rewrite !length_app, T, N, length_drop. lia.
  - exact F.
  - intros B. rewrite F. apply low_bytes_small, B.
  - intros i [B|B].
    + rewrite lookup_app_l by lia. apply lookup_take_lt. exact B.
    + rewrite lookup_app_r by lia. rewrite lookup_app_r by (rewrite T, N; lia).
      rewrite lookup_drop, T, N. f_equal. lia.
Qed.

Lemma writeString_effect_witness :
  [ArrayBuffer (replicate 8%nat 0)] !! 0%nat = Some (ArrayBuffer (replicate 8%nat 0))
  /\ (2 + length microphone_sign <= length (replicate 8%nat 0))%nat
  /\ exists block',
       writeString 0 2 microphone_sign [ArrayBuffer (replicate 8%nat 0)]
       = inr (tt, <[0%nat := ArrayBuffer block']> [ArrayBuffer (replicate 8%nat 0)]) /\
       length block' = length (replicate 8%nat 0) /\
       field 2 (length microphone_sign) block' = [60; 164] /\
       (Forall (fun c => 0 <= c < 256) microphone_sign ->
        field 2 (length microphone_sign) block' = microphone_sign) /\
       forall i, (i < 2 \/ 2 + length microphone_sign <= i)%nat ->
                 block' !! i = replicate 8%nat 0 !! i.
Proof.
  assert (V : [ArrayBuffer (replicate 8%nat 0)] !! 0%nat
              = Some (ArrayBuffer (replicate 8%nat 0))) by reflexivity.
  assert (L : (2 + length microphone_sign <= length (replicate 8%nat 0))%nat)
    by (simpl; lia).
  split; [exact V | split; [exact L |]].
  exact (writeString_effect _ _ _ _ _ V L).
Defined.

(** X2.  [writeString] raises [RangeError] exactly when the string is
    not empty and does not fit in the view from [offset] on; the empty
    string is accepted at any offset. *)
Theorem writeString_out_of_range (h : Heap) (view offset : nat) (s : JSString)
    (block : list Z) :
  h !! view = Some (ArrayBuffer block) ->
  writeString view offset s h = inl RangeError
  <-> s <> [] /\ (length block < offset + length s)%nat.
Proof.
  intros V. split.
  - intros E. split.
    + intros ->. discriminate E.
    + destruct (Nat.lt_ge_cases (length block) (offset + length s))
        as [B|B]; [exact B|].
      rewrite (writeString_run h view offset s block V B) in E. discriminate E.
  - intros [N L]. unfold writeString.
    apply (writeString_overrun view offset s s 0 h block V N). lia.
Qed.

Lemma writeString_out_of_range_witness :
  [ArrayBuffer (replicate 6%nat 0)] !! 0%nat = Some (ArrayBuffer (replicate 6%nat 0))
  /\ (writeString 0 4 (char_codes "data") [ArrayBuffer (replicate 6%nat 0)]
      = inl RangeError
      <-> char_codes "data" <> []
          /\ (length (replicate 6%nat 0) < 4 + length (char_codes "data"))%nat).
Proof.
  assert (V : [ArrayBuffer (replicate 6%nat 0)] !! 0%nat
              = Some (ArrayBuffer (replicate 6%nat 0))) by reflexivity.
  split; [exact V |].
  exact (writeString_out_of_range _ _ _ _ _ V).
Defined.

(** ** The objects [encodeWAV] touches *)

(** X3.  On an input with at least one channel, [encodeWAV] writes to
    no object that existed before the call: every typed array and buffer
    of the heap it was called with is as before, so the input holds the
    same channel data after the call.  The buffer [encodeWAV] fills is a
    new one, and the blob returned has the type 'audio/wav' and the bytes
    that buffer holds in the end. *)
Theorem encodeWAV_writes_to_new_objects (h : Heap) (b : AudioBuffer.t)
    (data : list (list number)) :
  holds h b data ->
  data <> [] ->
  exists blob h' buffer,
    encodeWAV b h = inr (blob, h') /\
    (forall a o, h !! a = Some o -> h' !! a = Some o) /\
    holds h' b data /\
    h !! buffer = None /\
    h' !! buffer = Some (ArrayBuffer (blob_bytes blob)) /\
    blob_type blob = "audio/wav"%string.
Proof.
  intros H N. eexists _, _, (S (length h)).
  split; [apply (encodeWAV_run h b data H N)|]. cbv zeta.
  split; [intros a o; apply lookup_app_l_Some|].
  split; [|split; [|split; [|reflexivity]]].
  - unfold holds in *. eapply Forall2_impl; [exact H|].
    intros a c E. apply lookup_app_l_Some, E.
  - apply lookup_ge_None. lia.
  - change (h ++ [?a; ?c]) with (h ++ [a] ++ [c]). rewrite app_assoc.
    replace (S (length h)) with (length (h ++ [Float32Array (interleaved_data data)]))
      by (rewrite length_app; simpl; lia).
    apply lookup_top.
Qed.

Lemma encodeWAV_writes_to_new_objects_witness :
  holds (snd stereo_example) (fst stereo_example)
    [[Fin 0; Fin (1 # 2)]; [Fin (-1 # 2); Fin 1]]
  /\ [[Fin 0; Fin (1 # 2)]; [Fin (-1 # 2); Fin 1]] <> []
  /\ exists blob h' buffer,
       encodeWAV (fst stereo_example) (snd stereo_example) = inr (blob, h') /\
       (forall a o, snd stereo_example !! a = Some o -> h' !! a = Some o) /\
       holds h' (fst stereo_example) [[Fin 0; Fin (1 # 2)]; [Fin (-1 # 2); Fin 1]] /\
       snd stereo_example !! buffer = None /\
       h' !! buffer = Some (ArrayBuffer (blob_bytes blob)) /\
       blob_type blob = "audio/wav"%string.
Proof.
  assert (H : holds (snd stereo_example) (fst stereo_example)
                [[Fin 0; Fin (1 # 2)]; [Fin (-1 # 2); Fin 1]])
    by (repeat constructor).
  assert (N : [[Fin 0; Fin (1 # 2)]; [Fin (-1 # 2); Fin 1]] <> [])
    by discriminate.
  split; [exact H | split; [exact N |]].
  exact (encodeWAV_writes_to_new_objects _ _ _ H N).
Defined.

(** ** A sample rate that is not an integer *)

(** X4.  For a finite sample rate [q], the sample rate field of the
    header holds [q] truncated toward zero, modulo 2^32, and the byte rate
    field the product [q * outputChannelCount * 2] truncated toward zero,
    modulo 2^32.  At 8000.5 Hz with two channels the fields hold 8000 and
    32002, with a block alignment of 4. *)
Theorem rate_fields_truncated :
  (forall (h : Heap) (b : AudioBuffer.t) (data : list (list number)) (q : Q),
      holds h b data ->
      data <> [] ->
      AudioBuffer.sampleRate b = Fin q ->
      exists blob h',
        encodeWAV b h = inr (blob, h') /\
        uint_le 24 4 (blob_bytes blob) = Qtrunc q mod 2 ^ 32 /\
        uint_le 28 4 (blob_bytes blob)
        = Qtrunc (q * inject_Z (Z.of_nat (Nat.min 2 (length data))) * 2) mod 2 ^ 32)
  /\ exists blob h',
       encodeWAV (fst fractional_rate_example) (snd fractional_rate_example)
       = inr (blob, h') /\
       uint_le 24 4 (blob_bytes blob) = 8000 /\
       uint_le 28 4 (blob_bytes blob) = 32002 /\
       uint_le 32 2 (blob_bytes blob) = 4.
Proof.
  split.
  - intros h b data q H N R. eexists _, _.
    split; [apply (encodeWAV_run h b data H N)|].
    unfold wav_blob. cbn [blob_bytes].
    destruct (header_layout (Nat.min 2 (length data)) (AudioBuffer.sampleRate b)
                (interleaved_data data)) as (_&_&_&_&_&_&_&F24&F28&_).
    cbv zeta in F24, F28. rewrite F24, F28, R. split; reflexivity.
  - eexists _, _. split; [vm_compute; reflexivity|].
    vm_compute. repeat split.
Qed.

Lemma rate_fields_truncated_witness :
  holds (snd fractional_rate_example) (fst fractional_rate_example)
    [[Fin 0]; [Fin 0]]
  /\ [[Fin 0]; [Fin 0]] <> []
  /\ AudioBuffer.sampleRate (fst fractional_rate_example) = Fin (16001 # 2)
  /\ exists blob h',
       encodeWAV (fst fractional_rate_example) (snd fractional_rate_example)
       = inr (blob, h') /\
       uint_le 24 4 (blob_bytes blob) = Qtrunc (16001 # 2) mod 2 ^ 32 /\
       uint_le 28 4 (blob_bytes blob)
       = Qtrunc ((16001 # 2)
                 * inject_Z (Z.of_nat (Nat.min 2 (length [[Fin 0]; [Fin 0]]))) * 2)
         mod 2 ^ 32.
Proof.
  assert (H : holds (snd fractional_rate_example) (fst fractional_rate_example)
                [[Fin 0]; [Fin 0]])
    by (repeat constructor).
  assert (N : [[Fin 0]; [Fin 0]] <> []) by discriminate.
  split; [exact H | split; [exact N | split; [reflexivity |]]].
  exact (proj1 rate_fields_truncated _ _ _ _ H N eq_refl).
Defined.

(** ** The cells of the quantizer *)

Lemma Qtrunc_eq_nonneg (v : Q) (k : Z) :
  (0 <= v)%Q ->
  Qtrunc v = k <-> (inject_Z k <= v /\ v < inject_Z k + 1)%Q.
Proof.
  intros P. destruct (Qtrunc_nonneg v P) as [A B]. split.
  - intros <-. now split.
  - intros [C D].
    assert (L1 : (inject_Z (Qtrunc v) < inject_Z (k + 1))%Q)
      by (rewrite inject_Z_plus; change (inject_Z 1) with 1%Q; lra).
    assert (L2 : (inject_Z k < inject_Z (Qtrunc v + 1))%Q)
      by (rewrite inject_Z_plus; change (inject_Z 1) with 1%Q; lra).
    rewrite <- Zlt_Qlt in L1, L2. lia.
Qed.

Lemma Qtrunc_eq_nonpos (v : Q) (k : Z) :
  (v <= 0)%Q ->
  Qtrunc v = k <-> (inject_Z k - 1 < v /\ v <= inject_Z k)%Q.
Proof.
  intros P. destruct (Qtrunc_nonpos v P) as [A B]. split.
  - intros <-. now split.
  - intros [C D].
    assert (L1 : (inject_Z (Qtrunc v) < inject_Z (k + 1))%Q)
      by (rewrite inject_Z_plus; change (inject_Z 1) with 1%Q; lra).
    assert (L2 : (inject_Z k < inject_Z (Qtrunc v + 1))%Q)
      by (rewrite inject_Z_plus; change (inject_Z 1) with 1%Q; lra).
    rewrite <- Zlt_Qlt in L1, L2. lia.
Qed.

Lemma quantize_cells_Fin (q : Q) :
  (quantize (Fin q) = 0 <-> (- (1 # 32768) < q /\ q < 1 # 32767)%Q)
  /\ (quantize (Fin q) = 32767 <-> (1 <= q)%Q)
  /\ (quantize (Fin q) = -32768 <-> (q <= -1)%Q).
Proof.
  rewrite quantize_Fin. unfold clamp_value, scaled.
  Qcases; (split; [|split]);
    (split; intros K;
     [ first [apply Qtrunc_eq_nonneg in K; [|lra]
             | apply Qtrunc_eq_nonpos in K; [|lra]]
     | first [apply Qtrunc_eq_nonneg; [lra|]
             | apply Qtrunc_eq_nonpos; [lra|]] ]);
    unfold inject_Z in *; lra.
Qed.

Lemma quantize_cells_number (x : number) :
  (quantize x = 0
   <-> x = NaN
       \/ num_ltb (Fin (- (1 # 32768))) x && num_ltb x (Fin (1 # 32767)) = true)
  /\ (quantize x = 32767 <-> num_leb (of_Z 1) x = true)
  /\ (quantize x = -32768 <-> num_leb x (of_Z (-1)) = true).
Proof.
  destruct x as [|[|]|q].
  1-3: (split; [|split]); (split; intros E); vm_compute in E |- *;
    try discriminate E; try reflexivity; try (now left);
    destruct E as [E|E]; discriminate E.
  destruct (quantize_cells_Fin q) as (Z0 & P & N).
  rewrite Z0, P, N. unfold num_ltb, num_leb, of_Z, inject_Z.
  rewrite andb_true_iff, !Qltb_lt, !Qle_bool_iff.
  split; [|split; reflexivity].
  split; [intros E; right; exact E | intros [E|E]; [discriminate E | exact E]].
Qed.

(** X5.  The value stored for a sample is 0 exactly when the sample is
    [NaN] or lies strictly between -1/32768 and 1/32767; it is 32767
    exactly when the sample is at least 1, and -32768 exactly when the
    sample is at most -1.  The same holds of the binary64 computation on
    an element of a [Float32Array]. *)
Theorem quantize_cells :
  (forall x : number,
      (quantize x = 0
       <-> x = NaN
           \/ num_ltb (Fin (- (1 # 32768))) x && num_ltb x (Fin (1 # 32767)) = true)
      /\ (quantize x = 32767 <-> num_leb (of_Z 1) x = true)
      /\ (quantize x = -32768 <-> num_leb x (of_Z (-1)) = true))
  /\ (forall x : spec_float,
        Binary64.float32 x = true ->
        (Binary64.quantize x = 0
         <-> Binary64.to_number x = NaN
             \/ num_ltb (Fin (- (1 # 32768))) (Binary64.to_number x)
                && num_ltb (Binary64.to_number x) (Fin (1 # 32767)) = true)
        /\ (Binary64.quantize x = 32767
            <-> num_leb (of_Z 1) (Binary64.to_number x) = true)
        /\ (Binary64.quantize x = -32768
            <-> num_leb (Binary64.to_number x) (of_Z (-1)) = true)).
Proof.
  split; [exact quantize_cells_number|].
  intros x F. rewrite (binary64_quantize x F). apply quantize_cells_number.
Qed.

Lemma quantize_cells_witness :
  Binary64.float32 decoded_half_binary64 = true
  /\ (Binary64.quantize decoded_half_binary64 = 32767
      <-> num_leb (of_Z 1) (Binary64.to_number decoded_half_binary64) = true).
Proof.
  assert (F : Binary64.float32 decoded_half_binary64 = true) by reflexivity.
  split; [exact F |].
  exact (proj1 (proj2 (proj2 quantize_cells decoded_half_binary64 F))).
Defined.

Lemma reencoding_drift_value (q : Q) (v : Z) :
  (q == normalize v)%Q ->
  -32768 <= v <= 32767 ->
  quantize (Fin q) = if v <=? 0 then v else v - 1.
Proof.
  intros Eq [L U]. rewrite quantize_Fin.
  assert (BL : (inject_Z (-32768) <= inject_Z v)%Q) by (rewrite <- Zle_Qle; exact L).
  assert (BU : (inject_Z v <= inject_Z 32767)%Q) by (rewrite <- Zle_Qle; exact U).
  change (inject_Z (-32768)) with (-32768)%Q in BL.
  change (inject_Z 32767) with 32767%Q in BU.
  unfold normalize, Qdiv in Eq. change (/ 32768)%Q with (1 # 32768)%Q in Eq.
  unfold clamp_value, scaled.
  destruct (Z.leb_spec v 0) as [N|P].
  - assert (B0 : (inject_Z v <= inject_Z 0)%Q) by (rewrite <- Zle_Qle; exact N).
    change (inject_Z 0) with 0%Q in B0.
    transitivity (Qtrunc (inject_Z v)); [|apply Qtrunc_inject_Z].
    apply Qtrunc_comp. Qcases; lra.
  - assert (B0 : (inject_Z 0 < inject_Z v)%Q) by (rewrite <- Zlt_Qlt; exact P).
    change (inject_Z 0) with 0%Q in B0.
    assert (E : (inject_Z (v - 1) == inject_Z v - 1)%Q)
      by (unfold Z.sub; rewrite inject_Z_plus; reflexivity).
    Qcases; try lra.
    apply Qtrunc_eq_nonneg; [lra|]. rewrite E. lra.
Qed.

(** X6.  Encoding again a sample that was decoded from the 16-bit value
    [v] as [v / 32768] gives [v] back when [v] is negative or zero, and
    [v - 1] when [v] is positive; so does the binary64 computation on the
    [Float32Array] element of that value. *)
Theorem reencoding_drift (v : Z) :
  -32768 <= v <= 32767 ->
  quantize (Fin (normalize v)) = (if v <=? 0 then v else v - 1)
  /\ forall (x : spec_float) (q : Q),
       Binary64.float32 x = true ->
       Binary64.to_number x = Fin q ->
       (q == normalize v)%Q ->
       Binary64.quantize x = if v <=? 0 then v else v - 1.
Proof.
  intros B. split.
  - apply reencoding_drift_value; [reflexivity | exact B].
  - intros x q F T E. rewrite (binary64_quantize x F), T.
    apply reencoding_drift_value; assumption.
Qed.

Lemma reencoding_drift_witness :
  -32768 <= 16384 <= 32767
  /\ quantize (Fin (normalize 16384)) = 16383
  /\ Binary64.quantize decoded_half_binary64 = 16383.
Proof.
  assert (B : -32768 <= 16384 <= 32767) by lia.
  split; [exact B |].
  split; [exact (proj1 (reencoding_drift 16384 B)) |].
  refine (proj2 (reencoding_drift 16384 B) decoded_half_binary64
            (4503599627370496 # 9007199254740992) _ _ _);
    reflexivity.
Defined.

(** ** The two channels are encoded apart *)

Lemma map_quantize_alternate (c0 c1 : list number) (i : nat) :
  length c0 = length c1 ->
  map quantize (alternate c0 c1) !! (2 * i)%nat = map quantize c0 !! i
  /\ map quantize (alternate c0 c1) !! (2 * i + 1)%nat = map quantize c1 !! i.
Proof.
  intros E. destruct (lookup_alternate c0 c1 i E) as [A B].
  change (map quantize ?l) with (quantize <$> l).
  now rewrite !list_lookup_fmap, A, B.
Qed.

(** X7.  The channels are not mixed: the samples of the stereo payload
    at the even positions are those of the payload obtained by encoding
    channel 0 alone, and the samples at the odd positions those of channel
    1 alone. *)
Theorem stereo_payload_interleaves_mono (h h0 h1 : Heap) (b b0 b1 : AudioBuffer.t)
    (c0 c1 : list number) (rest : list (list number)) :
  holds h b (c0 :: c1 :: rest) ->
  holds h0 b0 [c0] ->
  holds h1 b1 [c1] ->
  length c0 = length c1 ->
  exists blob blob0 blob1 h' h0' h1',
    encodeWAV b h = inr (blob, h') /\
    encodeWAV b0 h0 = inr (blob0, h0') /\
    encodeWAV b1 h1 = inr (blob1, h1') /\
    forall i,
      int16s_le (drop 44 (blob_bytes blob)) !! (2 * i)%nat
      = int16s_le (drop 44 (blob_bytes blob0)) !! i
      /\ int16s_le (drop 44 (blob_bytes blob)) !! (2 * i + 1)%nat
         = int16s_le (drop 44 (blob_bytes blob1)) !! i.
Proof.
  intros H H0 H1 E. eexists _, _, _, _, _, _.
  split; [apply (encodeWAV_stereo h b c0 c1 rest H)|].
  split; [apply (encodeWAV_mono h0 b0 c0 H0)|].
  split; [apply (encodeWAV_mono h1 b1 c1 H1)|].
  intros i. unfold wav_blob. cbn [blob_bytes].
  assert (P : forall n r s, int16s_le (drop 44 (wav_bytes n r s)) = map quantize s).
  { intros n r s.
    destruct (header_layout n r s) as (_&_&_&_&_&_&_&_&_&_&_&_&_&P).
    cbv zeta in P. rewrite P. apply int16s_pcm_bytes. }
  rewrite !P, interleaved_of_alternate by exact E.
  apply map_quantize_alternate, E.
Qed.

Lemma stereo_payload_interleaves_mono_witness :
  holds (snd stereo_example) (fst stereo_example)
    [[Fin 0; Fin (1 # 2)]; [Fin (-1 # 2); Fin 1]]
  /\ holds (snd left_channel_example) (fst left_channel_example) [[Fin 0; Fin (1 # 2)]]
  /\ holds (snd right_channel_example) (fst right_channel_example)
       [[Fin (-1 # 2); Fin 1]]
  /\ length [Fin 0; Fin (1 # 2)] = length [Fin (-1 # 2); Fin 1]
  /\ exists blob blob0 blob1 h' h0' h1',
       encodeWAV (fst stereo_example) (snd stereo_example) = inr (blob, h') /\
       encodeWAV (fst left_channel_example) (snd left_channel_example)
       = inr (blob0, h0') /\
       encodeWAV (fst right_channel_example) (snd right_channel_example)
       = inr (blob1, h1') /\
       forall i,
         int16s_le (drop 44 (blob_bytes blob)) !! (2 * i)%nat
         = int16s_le (drop 44 (blob_bytes blob0)) !! i
         /\ int16s_le (drop 44 (blob_bytes blob)) !! (2 * i + 1)%nat
            = int16s_le (drop 44 (blob_bytes blob1)) !! i.
Proof.
  assert (H : holds (snd stereo_example) (fst stereo_example)
                [[Fin 0; Fin (1 # 2)]; [Fin (-1 # 2); Fin 1]])
    by (repeat constructor).
  assert (H0 : holds (snd left_channel_example) (fst left_channel_example)
                 [[Fin 0; Fin (1 # 2)]])
    by (repeat constructor).
  assert (H1 : holds (snd right_channel_example) (fst right_channel_example)
                 [[Fin (-1 # 2); Fin 1]])
    by (repeat constructor).
  split; [exact H | split; [exact H0 | split; [exact H1 | split; [reflexivity |]]]].
  exact (stereo_payload_interleaves_mono _ _ _ _ _ _ _ _ [] H H0 H1 eq_refl).
Defined.

(** ** [onStop]

    Every path of [onStop] is followed by cases on the answers of the
    host. *)

Lemma unit_answer (host : Host) (c : command unit) : host _ c = tt.
Proof. now destruct (host _ c). Qed.

#[local] Arguments Blob_of_blobs : simpl never.
#[local] Arguments String.append : simpl never.
#[local] Arguments Number_toString : simpl never.
#[local] Arguments encodeWAV : simpl never.

(** One step along a path: the next answer of the host is the one a
    hypothesis gives, or any. *)
Ltac host_step host :=
  first
    [ progress cbn
    | match goal with
      | H : host _ ?c = _ |- context [host _ ?c] => rewrite H
      end
    | match goal with
      | |- context [on_heap ?h ?m] =>
          unfold on_heap;
          first [ match goal with H : m h = _ |- _ => rewrite H end
                | let E := fresh "E" in destruct (m h) as [?|[? ?]] eqn:E ]
      | |- context [Response.ok ?r] =>
          first [ match goal with H : Response.ok r = _ |- _ => rewrite H end
                | let E := fresh "K" in destruct (Response.ok r) eqn:E ]
      | d : DecodedBuffer |- _ => destruct d
      | |- context [host ?X ?c] =>
          lazymatch X with
          | unit => fail
          | _ => let E := fresh "A" in destruct (host X c) as [] eqn:E
          end
      end ].

Ltac host_paths host := unfold onStop; repeat host_step host.

(** X8.  [onStop] never rejects: whatever the host answers, every
    exception raised while reading the recording, creating the audio
    context, decoding, encoding, uploading, parsing the response or calling
    the callback is caught. *)
Theorem onStop_never_rejects (host : Host) :
  outcome host onStop = inr tt.
Proof.
  host_paths host; now rewrite ?unit_answer.
Qed.

(** X9.  Whatever the host answers, the last text [onStop] writes to
    the status line is 'Done' or 'Error'.  It is 'Done' exactly when one
    response was received, its status was in the range 200-299, its body
    was parsed, and it is not the case that the recording had been decoded
    and the callback threw. *)
Theorem onStop_settles_status (host : Host) :
  (final_status (trace host onStop) = Some "Done"%string
   \/ final_status (trace host onStop) = Some "Error"%string)
  /\ (final_status (trace host onStop) = Some "Done"%string
      <-> (exists resp data,
             responses (trace host onStop) = [resp]
             /\ Response.ok resp = true
             /\ bodies_parsed (trace host onStop) = [data])
          /\ ~ (decodings (trace host onStop) = [true]
                /\ exists data e, callbacks (trace host onStop) = [(data, Some e)])).
Proof.
  unfold final_status, statuses, responses, bodies_parsed, decodings, callbacks.
  host_paths host; (split; [auto |]); split.
  all: try (intros D; discriminate D).
  all: try (intros D; split;
            [ eexists _, _; (split; [reflexivity | split; [assumption | reflexivity]])
            | intros (T & d & e & C); first [discriminate T | discriminate C] ]).
  all: intros ((resp & data & R & K' & B) & N).
  all: try discriminate R; try discriminate B.
  all: try (injection R as <-; congruence).
  all: try reflexivity.
  all: exfalso; apply N; split; [reflexivity | eexists _, _; reflexivity].
Qed.

Lemma onStop_settles_status_witness :
  final_status
    (trace (example_host (inl (HostFailure "EncodingError")) response_200 None) onStop)
  = Some "Done"%string
  /\ (exists resp data,
        responses
          (trace (example_host (inl (HostFailure "EncodingError")) response_200 None)
             onStop) = [resp]
        /\ Response.ok resp = true
        /\ bodies_parsed
             (trace (example_host (inl (HostFailure "EncodingError")) response_200 None)
                onStop) = [data])
  /\ ~ (decodings
          (trace (example_host (inl (HostFailure "EncodingError")) response_200 None)
             onStop) = [true]
        /\ exists data e,
             callbacks
               (trace (example_host (inl (HostFailure "EncodingError")) response_200
                         None) onStop) = [(data, Some e)]).
Proof.
  assert (D : final_status
                (trace (example_host (inl (HostFailure "EncodingError"))
                          response_200 None) onStop)
              = Some "Done"%string) by (vm_compute; reflexivity).
  split; [exact D |].
  exact (proj1 (proj2 (onStop_settles_status _)) D).
Defined.

(** X10.  [onStop] sends at most one request, whatever the host answers:
    an upload that fails is not tried again, neither with the WAV data nor
    with the recording. *)
Theorem onStop_uploads_once (host : Host) :
  (length (requests (trace host onStop)) <= 1)%nat.
Proof. unfold requests. host_paths host; auto. Qed.

(** X11.  When the recording cannot be decoded, the recording itself
    is uploaded: the one request of [onStop] is a POST to '/analyze' whose
    form has the single entry 'audio', the blob of type 'audio/webm' made
    of the recorded chunks in order, under the file name 'sample.webm'. *)
Theorem onStop_falls_back_to_webm (host : Host) (err : thrown) :
  let webmBlob := Blob_of_blobs (host _ read_chunks) "audio/webm" in
  host _ (blob_arrayBuffer webmBlob) = None ->
  host _ new_AudioContext = None ->
  host _ (decodeAudioData (blob_bytes webmBlob)) = inl err ->
  requests (trace host onStop)
  = [("/analyze"%string, "POST"%string,
      [{| entry_name := "audio"; entry_value := webmBlob;
          entry_filename := "sample.webm" |}])].
Proof.
  intros webmBlob H1 H2 H3. subst webmBlob. unfold requests.
  host_paths host; reflexivity.
Qed.

Lemma onStop_falls_back_to_webm_witness :
  let host := example_host (inl (HostFailure "EncodingError")) response_200 None in
  let webmBlob := Blob_of_blobs (host _ read_chunks) "audio/webm" in
  host _ (blob_arrayBuffer webmBlob) = None
  /\ host _ new_AudioContext = None
  /\ host _ (decodeAudioData (blob_bytes webmBlob))
     = inl (HostFailure "EncodingError")
  /\ requests (trace host onStop)
     = [("/analyze"%string, "POST"%string,
         [{| entry_name := "audio"; entry_value := webmBlob;
             entry_filename := "sample.webm" |}])].
Proof.
  cbv zeta.
  split; [reflexivity | split; [reflexivity | split; [reflexivity |]]].
  exact (onStop_falls_back_to_webm
           (example_host (inl (HostFailure "EncodingError")) response_200 None)
           (HostFailure "EncodingError") eq_refl eq_refl eq_refl).
Defined.

(** X12.  When the recording is decoded to a buffer with at least one
    channel, the one request of [onStop] is a POST to '/analyze' whose
    form has the single entry 'audio', the blob returned by [encodeWAV]
    for that buffer, under the file name 'sample.wav'. *)
Theorem onStop_uploads_wav (host : Host) (b : AudioBuffer.t) (h : Heap)
    (data : list (list number)) :
  let webmBlob := Blob_of_blobs (host _ read_chunks) "audio/webm" in
  host _ (blob_arrayBuffer webmBlob) = None ->
  host _ new_AudioContext = None ->
  host _ (decodeAudioData (blob_bytes webmBlob)) = inr (b, h) ->
  holds h b data ->
  data <> [] ->
  requests (trace host onStop)
  = [("/analyze"%string, "POST"%string,
      [{| entry_name := "audio";
          entry_value := wav_blob (Nat.min 2 (length data))
                           (AudioBuffer.sampleRate b) (interleaved_data data);
          entry_filename := "sample.wav" |}])].
Proof.
  intros webmBlob H1 H2 H3 H N. subst webmBlob.
  pose proof (encodeWAV_run h b data H N) as R. cbv zeta in R.
  unfold requests. host_paths host; reflexivity.
Qed.

Lemma onStop_uploads_wav_witness :
  let host := example_host (inr stereo_example) response_200 None in
  let webmBlob := Blob_of_blobs (host _ read_chunks) "audio/webm" in
  host _ (blob_arrayBuffer webmBlob) = None
  /\ host _ new_AudioContext = None
  /\ host _ (decodeAudioData (blob_bytes webmBlob))
     = inr (fst stereo_example, snd stereo_example)
  /\ holds (snd stereo_example) (fst stereo_example)
       [[Fin 0; Fin (1 # 2)]; [Fin (-1 # 2); Fin 1]]
  /\ [[Fin 0; Fin (1 # 2)]; [Fin (-1 # 2); Fin 1]] <> []
  /\ requests (trace host onStop)
     = [("/analyze"%string, "POST"%string,
         [{| entry_name := "audio";
             entry_value :=
               wav_blob (Nat.min 2 (length [[Fin 0; Fin (1 # 2)]; [Fin (-1 # 2); Fin 1]]))
                 (AudioBuffer.sampleRate (fst stereo_example))
                 (interleaved_data [[Fin 0; Fin (1 # 2)]; [Fin (-1 # 2); Fin 1]]);
             entry_filename := "sample.wav" |}])].
Proof.
  cbv zeta.
  assert (H : holds (snd stereo_example) (fst stereo_example)
                [[Fin 0; Fin (1 # 2)]; [Fin (-1 # 2); Fin 1]])
    by (repeat constructor).
  assert (N : [[Fin 0; Fin (1 # 2)]; [Fin (-1 # 2); Fin 1]] <> [])
    by discriminate.
  split; [reflexivity | split; [reflexivity | split; [reflexivity |]]].
  split; [exact H | split; [exact N |]].
  exact (onStop_uploads_wav
           (example_host (inr stereo_example) response_200 None)
           _ _ _ eq_refl eq_refl eq_refl H N).
Defined.

(** X13.  When the server answers with a status outside 200-299, the
    status line ends with 'Error', the one value logged with
    [console.error] is the error 'Upload failed: ' followed by the status
    and the status text, the body of the response is not read and the
    callback is not called. *)
Theorem refused_upload_is_an_error (host : Host) (resp : Response.t) :
  responses (trace host onStop) = [resp] ->
  Response.ok resp = false ->
  final_status (trace host onStop) = Some "Error"%string
  /\ errors_logged (trace host onStop)
     = [Error ("Upload failed: " ++ Number_toString (Response.status resp)
               ++ " " ++ Response.statusText resp)]
  /\ bodies_read (trace host onStop) = []
  /\ callbacks (trace host onStop) = [].
Proof.
  unfold final_status, statuses, responses, errors_logged, bodies_read, callbacks.
  host_paths host; intros R K'; try discriminate R;
    injection R as ->; try congruence; repeat split.
Qed.

Lemma refused_upload_is_an_error_witness :
  let host := example_host (inr stereo_example) response_500 None in
  responses (trace host onStop) = [response_500]
  /\ Response.ok response_500 = false
  /\ final_status (trace host onStop) = Some "Error"%string
  /\ errors_logged (trace host onStop)
     = [Error ("Upload failed: " ++ Number_toString (Response.status response_500)
               ++ " " ++ Response.statusText response_500)]
  /\ bodies_read (trace host onStop) = []
  /\ callbacks (trace host onStop) = [].
Proof.
  cbv zeta.
  assert (R : responses (trace (example_host (inr stereo_example) response_500 None)
                           onStop) = [response_500])
    by (vm_compute; reflexivity).
  split; [exact R | split; [reflexivity |]].
  exact (refused_upload_is_an_error _ _ R eq_refl).
Defined.

(** X14.  When the callback [window.onAnalyzeResult] throws, what it
    threw is logged; the last text [onStop] writes to the status line is
    then 'Done' if the recording had not been decoded (the WebM upload),
    and 'Error' if it had (the WAV upload). *)
Theorem callback_failure_status (host : Host) (data : json) (e : thrown) :
  callbacks (trace host onStop) = [(data, Some e)] ->
  errors_logged (trace host onStop) = [e]
  /\ (decodings (trace host onStop) = [false] ->
      final_status (trace host onStop) = Some "Done"%string)
  /\ (decodings (trace host onStop) = [true] ->
      final_status (trace host onStop) = Some "Error"%string).
Proof.
  unfold final_status, statuses, callbacks, errors_logged, decodings.
  host_paths host; intros C; try discriminate C;
    injection C as -> ->;
    (split; [reflexivity | split; intros D; try discriminate D; reflexivity]).
Qed.

Lemma callback_failure_status_witness :
  let host := example_host (inl (HostFailure "EncodingError")) response_200
                (Some (HostFailure "TypeError")) in
  callbacks (trace host onStop)
  = [(JObject [("emotion"%string, JString "calm")], Some (HostFailure "TypeError"))]
  /\ errors_logged (trace host onStop) = [HostFailure "TypeError"]
  /\ (decodings (trace host onStop) = [false] ->
      final_status (trace host onStop) = Some "Done"%string)
  /\ (decodings (trace host onStop) = [true] ->
      final_status (trace host onStop) = Some "Error"%string).
Proof.
  cbv zeta.
  assert (C : callbacks
                (trace (example_host (inl (HostFailure "EncodingError")) response_200
                          (Some (HostFailure "TypeError"))) onStop)
              = [(JObject [("emotion"%string, JString "calm")],
                  Some (HostFailure "TypeError"))])
    by (vm_compute; reflexivity).
  split; [exact C |].
  exact (callback_failure_status _ _ _ C).
Defined.

(** X15.  The order the source asks for: a request is only sent with
    the status line reading 'Uploading...', and the callback is only
    called with the status line reading 'Done'. *)
Theorem onStop_status_order (host : Host) :
  Forall (fun s => s = Some "Uploading..."%string)
    (status_when is_request None (trace host onStop))
  /\ Forall (fun s => s = Some "Done"%string)
       (status_when is_callback None (trace host onStop)).
Proof.
  host_paths host; split; repeat constructor.
Qed.

(** X16.  When [encodeWAV] raises, as it does on a buffer without
    channels, nothing is uploaded: [onStop] does not fall back to the
    recording, it logs the exception and the status line ends with
    'Error'. *)
Theorem encoder_failure_uploads_nothing (host : Host) (b : AudioBuffer.t)
    (h : Heap) (e : exn) :
  let webmBlob := Blob_of_blobs (host _ read_chunks) "audio/webm" in
  host _ (blob_arrayBuffer webmBlob) = None ->
  host _ new_AudioContext = None ->
  host _ (decodeAudioData (blob_bytes webmBlob)) = inr (b, h) ->
  encodeWAV b h = inl e ->
  requests (trace host onStop) = []
  /\ errors_logged (trace host onStop) = [Raised e]
  /\ final_status (trace host onStop) = Some "Error"%string.
Proof.
  intros webmBlob H1 H2 H3 E. subst webmBlob.
  unfold final_status, statuses, requests, errors_logged.
  host_paths host. repeat split.
Qed.

Lemma encoder_failure_uploads_nothing_witness :
  let host := example_host (inr no_channel_example) response_200 None in
  let webmBlob := Blob_of_blobs (host _ read_chunks) "audio/webm" in
  host _ (blob_arrayBuffer webmBlob) = None
  /\ host _ new_AudioContext = None
  /\ host _ (decodeAudioData (blob_bytes webmBlob))
     = inr (fst no_channel_example, snd no_channel_example)
  /\ encodeWAV (fst no_channel_example) (snd no_channel_example) = inl IndexSizeError
  /\ requests (trace host onStop) = []
  /\ errors_logged (trace host onStop) = [Raised IndexSizeError]
  /\ final_status (trace host onStop) = Some "Error"%string.
Proof.
  cbv zeta.
  split; [reflexivity | split; [reflexivity | split; [reflexivity |]]].
  split; [reflexivity |].
  exact (encoder_failure_uploads_nothing
           (example_host (inr no_channel_example) response_200 None)
           _ _ _ eq_refl eq_refl eq_refl eq_refl).
Defined.

(** ** The recording controls *)

Lemma MediaRecorder_state_insert_ne (r r' : nat) (rec : MediaRecorder.t) (p : Page.t) :
  r <> r' ->
  MediaRecorder_state r (Page.set_recorders (<[r' := rec]> (Page.recorders p)) p)
  = MediaRecorder_state r p.
Proof.
  intros N. unfold MediaRecorder_state. cbn.
  now rewrite list_lookup_insert_ne by congruence.
Qed.

Lemma MediaRecorder_state_insert_eq (r : nat) (rec : MediaRecorder.t) (p : Page.t) :
  (r < length (Page.recorders p))%nat ->
  MediaRecorder_state r (Page.set_recorders (<[r := rec]> (Page.recorders p)) p)
  = MediaRecorder.state rec.
Proof.
  intros L. unfold MediaRecorder_state. cbn.
  now rewrite list_lookup_insert_eq by exact L.
Qed.

Lemma MediaRecorder_state_valid (r : nat) (p : Page.t) :
  MediaRecorder_state r p <> inactive -> (r < length (Page.recorders p))%nat.
Proof.
  unfold MediaRecorder_state. intros N.
  destruct (Page.recorders p !! r) eqn:E; [|contradiction].
  now apply lookup_lt_Some in E.
Qed.

Lemma MediaRecorder_stop_state (r r' : nat) (p : Page.t) :
  MediaRecorder_state r (MediaRecorder_stop r' p)
  = if bool_decide (r = r') then inactive else MediaRecorder_state r p.
Proof.
  unfold MediaRecorder_stop.
  destruct (MediaRecorder_state r' p) eqn:S; case_bool_decide as E; subst;
    try reflexivity; try exact S;
    try (apply MediaRecorder_state_insert_ne; assumption);
    apply MediaRecorder_state_insert_eq, MediaRecorder_state_valid; congruence.
Qed.

Lemma MediaRecorder_stop_fields (r : nat) (p : Page.t) :
  Page.mediaRecorder (MediaRecorder_stop r p) = Page.mediaRecorder p
  /\ Page.recordBtn_innerText (MediaRecorder_stop r p) = Page.recordBtn_innerText p
  /\ length (Page.recorders (MediaRecorder_stop r p)) = length (Page.recorders p).
Proof.
  unfold MediaRecorder_stop. destruct (MediaRecorder_state r p); cbn;
    rewrite ?length_insert; auto.
Qed.

(** The state of a recorder, the recorder [mediaRecorder] names and the
    number of recorders, after a call of [stopRecording]. *)
Lemma stopRecording_state (r : nat) (p : Page.t) :
  MediaRecorder_state r (stopRecording p)
  = if bool_decide (Page.mediaRecorder p = Some r) then inactive
    else MediaRecorder_state r p.
Proof.
  unfold stopRecording. destruct (Page.mediaRecorder p) as [r'|].
  - change (MediaRecorder_state r (Page.set_status_innerText _ (Page.set_recordBtn_innerText _ ?q)))
      with (MediaRecorder_state r q).
    rewrite MediaRecorder_stop_state.
    repeat case_bool_decide; congruence.
  - case_bool_decide; [discriminate | reflexivity].
Qed.

Lemma stopRecording_fields (p : Page.t) :
  Page.mediaRecorder (stopRecording p) = Page.mediaRecorder p
  /\ length (Page.recorders (stopRecording p)) = length (Page.recorders p).
Proof.
  unfold stopRecording. destruct (Page.mediaRecorder p) as [r'|] eqn:M.
  - destruct (MediaRecorder_stop_fields r' p) as (A & _ & C).
    exact (conj (eq_trans A M) C).
  - now split.
Qed.

Lemma left_running_step (i : input) (p p' : Page.t) (r : nat) :
  handle i p = Some p' ->
  i <> recorder_ends r ->
  left_running r p -> left_running r p'.
Proof.
  intros H N [C S].
  assert (L : (r < length (Page.recorders p))%nat)
    by (apply MediaRecorder_state_valid; congruence).
  destruct i as [|starts| |ms|i|r0|r0 data|text]; cbn in H.
  - injection H as <-. unfold onclick.
    destruct (Page.mediaRecorder p) as [r'|] eqn:M; [|(split; [cbn; congruence | exact S])].
    destruct (MediaRecorder_state r' p) eqn:S'; [(split; [cbn; congruence | exact S])| |];
      (split; [destruct (stopRecording_fields p) as [-> _]; now rewrite M
              | rewrite stopRecording_state, M; case_bool_decide; congruence]).
  - destruct (Page.getUserMedia_pending p) as [|n]; [discriminate|].
    injection H as <-. unfold startRecording_resumed, new_MediaRecorder.
    destruct starts; cbn; (split; [intros [= E]; lia|]);
      unfold MediaRecorder_state; cbn.
    + rewrite list_lookup_insert_ne by lia.
      rewrite lookup_app_l by exact L. exact S.
    + rewrite lookup_app_l by exact L. exact S.
  - destruct (Page.getUserMedia_pending p) as [|n]; [discriminate|].
    injection H as <-. (split; [cbn; congruence | exact S]).
  - injection H as <-. (split; [cbn; congruence | exact S]).
  - destruct (Page.timers p !! i) as [due|]; [|discriminate].
    destruct (due <=? Page.now p)%N; [|discriminate].
    injection H as <-. unfold on_timeout.
    set (q := Page.set_timers _ p).
    change (Page.mediaRecorder q) with (Page.mediaRecorder p).
    destruct (Page.mediaRecorder p) as [r'|] eqn:M; [|(split; [cbn; congruence | exact S])].
    destruct (MediaRecorder_state r' q) eqn:S'; [(split; [cbn; congruence | exact S])| |(split; [cbn; congruence | exact S])].
    split; [destruct (stopRecording_fields q) as [-> _];
            change (Page.mediaRecorder q) with (Page.mediaRecorder p); congruence|].
    rewrite stopRecording_state.
    change (Page.mediaRecorder q) with (Page.mediaRecorder p). rewrite M.
    case_bool_decide; [congruence | exact S].
  - destruct (MediaRecorder_state r0 p) eqn:S0; try discriminate.
    injection H as <-. split.
    + destruct (MediaRecorder_stop_fields r0 p) as [-> _]. exact C.
    + rewrite MediaRecorder_stop_state. case_bool_decide; [congruence | exact S].
  - destruct (Page.recorders p !! r0) as [[s [|]]|] eqn:E; try discriminate.
    injection H as <-. split; [exact C|].
    unfold MediaRecorder_state in *. cbn.
    destruct (decide (r = r0)) as [->|D].
    + rewrite list_lookup_insert_eq by exact L. rewrite E in S. exact S.
    + rewrite list_lookup_insert_ne by congruence. exact S.
  - destruct (Page.onStop_calls p); [discriminate|].
    destruct (_ || _); [|discriminate]. injection H as <-. (split; [cbn; congruence | exact S]).
Qed.

(** X17.  The handlers stop no recorder but the one [mediaRecorder]
    names, and [mediaRecorder] is only ever assigned a new recorder: a
    recorder that is recording while [mediaRecorder] names another one
    (as after two clicks made before the microphone was granted) stays so
    whatever happens to the page, until its stream ends. *)
Theorem recorder_left_running (inputs : list input) (p p' : Page.t) (r : nat) :
  run inputs p = Some p' ->
  ~ In (recorder_ends r) inputs ->
  Page.mediaRecorder p <> Some r ->
  MediaRecorder_state r p = recording ->
  Page.mediaRecorder p' <> Some r /\ MediaRecorder_state r p' = recording.
Proof.
  revert p. induction inputs as [|i inputs IH]; intros p R N C S.
  - injection R as <-. now split.
  - simpl in R. destruct (handle i p) as [q|] eqn:H; [|discriminate].
    destruct (left_running_step i p q r H) as [C' S'].
    + intros ->. apply N. now left.
    + now split.
    + apply (IH q R); [|exact C' | exact S'].
      intros I. apply N. now right.
Qed.

Lemma recorder_left_running_witness :
  run [click; click; getUserMedia_granted true; getUserMedia_granted true]
    (loaded_page "Start Session 🎤" "") = Some double_start_page
  /\ run [click; elapse 8000; timeout 0; timeout 0; click; getUserMedia_granted true]
       double_start_page = Some double_start_later
  /\ ~ In (recorder_ends 0)
         [click; elapse 8000; timeout 0; timeout 0; click; getUserMedia_granted true]
  /\ Page.mediaRecorder double_start_page <> Some 0%nat
  /\ MediaRecorder_state 0 double_start_page = recording
  /\ Page.mediaRecorder double_start_later <> Some 0%nat
  /\ MediaRecorder_state 0 double_start_later = recording.
Proof.
  assert (R : run [click; elapse 8000; timeout 0; timeout 0; click;
                   getUserMedia_granted true] double_start_page
              = Some double_start_later) by (vm_compute; reflexivity).
  assert (N : ~ In (recorder_ends 0)
                  [click; elapse 8000; timeout 0; timeout 0; click;
                   getUserMedia_granted true])
    by (simpl; intros [E|[E|[E|[E|[E|[E|[]]]]]]]; discriminate E).
  assert (C : Page.mediaRecorder double_start_page <> Some 0%nat) by discriminate.
  split; [vm_compute; reflexivity |].
  split; [exact R | split; [exact N | split; [exact C | split; [reflexivity |]]]].
  exact (recorder_left_running _ _ _ _ R N C eq_refl).
Defined.

Lemma stopRecording_not_recording (p : Page.t) (r : nat) :
  Page.mediaRecorder p = Some r ->
  MediaRecorder_state r (stopRecording p) <> recording.
Proof.
  intros M. rewrite stopRecording_state, M.
  case_bool_decide; [discriminate | congruence].
Qed.

Lemma shows_stop_step (i : input) (p p' : Page.t) :
  handle i p = Some p' ->
  shows_stop_while_recording p -> shows_stop_while_recording p'.
Proof.
  intros H I r.
  destruct i as [|starts| |ms|i|r0|r0 data|text]; cbn in H.
  - injection H as <-. unfold onclick.
    destruct (Page.mediaRecorder p) as [r'|] eqn:M; [|apply I].
    destruct (MediaRecorder_state r' p) eqn:S'; [apply I| |];
      (intros M' S; destruct (stopRecording_fields p) as [E _];
       rewrite E, M in M'; injection M' as <-;
       now apply (stopRecording_not_recording p r') in S).
  - destruct (Page.getUserMedia_pending p) as [|n]; [discriminate|].
    injection H as <-. unfold startRecording_resumed, new_MediaRecorder.
    destruct starts; cbn; [reflexivity|].
    intros [= <-]. unfold MediaRecorder_state. cbn.
    rewrite list_lookup_middle by reflexivity. discriminate.
  - destruct (Page.getUserMedia_pending p) as [|n]; [discriminate|].
    injection H as <-. apply I.
  - injection H as <-. apply I.
  - destruct (Page.timers p !! i) as [due|]; [|discriminate].
    destruct (due <=? Page.now p)%N; [|discriminate].
    injection H as <-. unfold on_timeout.
    set (q := Page.set_timers _ p).
    change (Page.mediaRecorder q) with (Page.mediaRecorder p).
    destruct (Page.mediaRecorder p) as [r'|] eqn:M; [|apply I].
    destruct (MediaRecorder_state r' q) eqn:S'; [apply I| |apply I].
    intros M' S. destruct (stopRecording_fields q) as [E _].
    rewrite E in M'. change (Page.mediaRecorder q) with (Page.mediaRecorder p) in M'.
    rewrite M in M'. injection M' as <-.
    now apply (stopRecording_not_recording q r') in S.
  - destruct (MediaRecorder_state r0 p) eqn:S0; try discriminate.
    injection H as <-. intros M S.
    destruct (MediaRecorder_stop_fields r0 p) as (E1 & E2 & _).
    rewrite E1 in M. rewrite E2. rewrite MediaRecorder_stop_state in S.
    case_bool_decide; [discriminate|]. now apply (I r).
  - destruct (Page.recorders p !! r0) as [[s [|]]|] eqn:E; try discriminate.
    injection H as <-. cbn. intros M S. apply (I r M).
    unfold MediaRecorder_state in *. cbn in S.
    destruct (decide (r = r0)) as [->|D].
    + rewrite list_lookup_insert_eq in S by (now apply lookup_lt_Some in E).
      rewrite E. exact S.
    + now rewrite list_lookup_insert_ne in S by congruence.
  - destruct (Page.onStop_calls p); [discriminate|].
    destruct (_ || _); [|discriminate]. injection H as <-. apply I.
Qed.

(** X18.  Whatever happens to the page after the script was loaded,
    the button reads 'Stop' whenever the recorder [mediaRecorder] names is
    recording. *)
Theorem button_shows_stop_while_recording (inputs : list input)
    (recordBtn_text status_text : string) (p : Page.t) (r : nat) :
  run inputs (loaded_page recordBtn_text status_text) = Some p ->
  Page.mediaRecorder p = Some r ->
  MediaRecorder_state r p = recording ->
  Page.recordBtn_innerText p = "Stop"%string.
Proof.
  intros R. revert r. change (shows_stop_while_recording p).
  assert (G : forall q, shows_stop_while_recording q ->
                        run inputs q = Some p -> shows_stop_while_recording p).
  { clear R. induction inputs as [|i inputs IH]; intros q Iq R.
    - now injection R as <-.
    - simpl in R. destruct (handle i q) as [q'|] eqn:H; [|discriminate].
      apply (IH q'); [|exact R]. exact (shows_stop_step i q q' H Iq). }
  apply (G (loaded_page recordBtn_text status_text)); [|exact R].
  intros r' M. discriminate M.
Qed.

Lemma button_shows_stop_while_recording_witness :
  run [click; getUserMedia_granted true] (loaded_page "Start Session 🎤" "")
  = Some recording_page
  /\ Page.mediaRecorder recording_page = Some 0%nat
  /\ MediaRecorder_state 0 recording_page = recording
  /\ Page.recordBtn_innerText recording_page = "Stop"%string.
Proof.
  assert (R : run [click; getUserMedia_granted true]
                (loaded_page "Start Session 🎤" "") = Some recording_page)
    by (vm_compute; reflexivity).
  split; [exact R | split; [reflexivity | split; [reflexivity |]]].
  exact (button_shows_stop_while_recording _ _ _ _ _ R eq_refl eq_refl).
Defined.

Lemma handle_timeout (i : nat) (p : Page.t) (due : N) :
  Page.timers p !! i = Some due ->
  (due <= Page.now p)%N ->
  handle (timeout i) p
  = Some (on_timeout (Page.set_timers (delete i (Page.timers p)) p)).
Proof.
  intros T D. cbn. rewrite T.
  destruct (N.leb_spec due (Page.now p)); [reflexivity | lia].
Qed.

(** X19.  The timer of a recording is not cancelled when the recording
    is stopped, and its callback stops whatever recorder [mediaRecorder]
    names when it fires.  A first recording is started at time 0 and
    stopped by a click; a second one is started [a + b] ms after the
    first; when the timer of the first recording fires, the second
    recording has run for [c] ms, less than 8 s, and is stopped: the
    status line reads 'Processing...' and the only timer left, its own, is
    not yet due. *)
Theorem earlier_timer_stops_next_recording (a b c : N)
    (recordBtn_text status_text : string) (data : Blob) :
  (8000 <= a + b + c)%N ->
  (c < 8000)%N ->
  let second_recording :=
    {| Page.mediaRecorder := Some 1%nat;
       Page.chunks := [];
       Page.recordBtn_innerText := "Stop";
       Page.status_innerText := "Recording...";
       Page.recorders :=
         [{| MediaRecorder.state := inactive;
             MediaRecorder.final_events_queued := false |};
          {| MediaRecorder.state := recording;
             MediaRecorder.final_events_queued := false |}];
       Page.getUserMedia_pending := 0;
       Page.timers := [8000; a + b + 8000]%N;
       Page.now := (a + b + c)%N;
       Page.onStop_calls := [[data]] |} in
  let stopped :=
    {| Page.mediaRecorder := Some 1%nat;
       Page.chunks := [];
       Page.recordBtn_innerText := "Start Session 🎤";
       Page.status_innerText := "Processing...";
       Page.recorders :=
         [{| MediaRecorder.state := inactive;
             MediaRecorder.final_events_queued := false |};
          {| MediaRecorder.state := inactive;
             MediaRecorder.final_events_queued := true |}];
       Page.getUserMedia_pending := 0;
       Page.timers := [a + b + 8000]%N;
       Page.now := (a + b + c)%N;
       Page.onStop_calls := [[data]] |} in
  run [click; getUserMedia_granted true; elapse a; click; final_events 0 data;
       elapse b; click; getUserMedia_granted true; elapse c]
    (loaded_page recordBtn_text status_text) = Some second_recording
  /\ handle (timeout 0) second_recording = Some stopped
  /\ (Page.now stopped < a + b + 8000)%N.
Proof.
  intros D C second_recording stopped.
  split; [reflexivity|]. split.
  - rewrite (handle_timeout 0 second_recording 8000 eq_refl) by (cbn; lia).
    reflexivity.
  - cbn. lia.
Qed.

Lemma earlier_timer_stops_next_recording_witness :
  (8000 <= 2000 + 3000 + 3000)%N
  /\ (3000 < 8000)%N
  /\ exists second_recording stopped,
       run [click; getUserMedia_granted true; elapse 2000; click;
            final_events 0 example_data; elapse 3000; click;
            getUserMedia_granted true; elapse 3000]
         (loaded_page "Start Session 🎤" "") = Some second_recording
       /\ handle (timeout 0) second_recording = Some stopped
       /\ (Page.now stopped < 2000 + 3000 + 8000)%N.
Proof.
  assert (D : (8000 <= 2000 + 3000 + 3000)%N) by lia.
  assert (C : (3000 < 8000)%N) by lia.
  split; [exact D | split; [exact C |]].
  eexists _, _.
  exact (earlier_timer_stops_next_recording 2000 3000 3000
           "Start Session 🎤" "" example_data D C).
Defined.

Lemma chunks_kept (inputs : list input) (p p' : Page.t) :
  run inputs p = Some p' ->
  forallb (fun i => negb (resets_or_delivers i)) inputs = true ->
  Page.chunks p' = Page.chunks p /\ Page.onStop_calls p' = Page.onStop_calls p.
Proof.
  revert p. induction inputs as [|i inputs IH]; intros p R F.
  - injection R as <-. now split.
  - simpl in R, F. apply andb_prop in F as [Fi F].
    destruct (handle i p) as [q|] eqn:H; [|discriminate].
    destruct (IH q R F) as [-> ->]. clear IH R F.
    destruct i as [|starts| |ms|i|r0|r0 data|text]; try discriminate Fi; cbn in H.
    + injection H as <-. unfold onclick, stopRecording, MediaRecorder_stop.
      destruct (Page.mediaRecorder p) as [r'|]; [|now split].
      destruct (MediaRecorder_state r' p); now split.
    + destruct (Page.getUserMedia_pending p); [discriminate|].
      injection H as <-. now split.
    + injection H as <-. now split.
    + destruct (Page.timers p !! i) as [due|]; [|discriminate].
      destruct (due <=? Page.now p)%N; [|discriminate].
      injection H as <-. unfold on_timeout, stopRecording, MediaRecorder_stop.
      cbn. destruct (Page.mediaRecorder p) as [r'|]; [|now split].
      destruct (MediaRecorder_state r' _); now split.
    + destruct (MediaRecorder_state r0 p) eqn:S0; try discriminate.
      injection H as <-. unfold MediaRecorder_stop. rewrite S0. now split.
    + destruct (Page.onStop_calls p) eqn:O; [discriminate|].
      destruct (_ || _); [|discriminate]. injection H as <-. cbn. now rewrite O.
Qed.

(** X20.  A recording is uploaded alone: when the microphone is granted
    and, without another grant or delivery in between, a recorder then
    delivers its final data, [onStop] is called once more, and the chunks
    it reads are that data and nothing recorded before. *)
Theorem upload_holds_the_data_of_the_recording (starts : bool)
    (middle : list input) (r : nat) (data : Blob) (p p' : Page.t) :
  run (getUserMedia_granted starts :: middle ++ [final_events r data]) p = Some p' ->
  forallb (fun i => negb (resets_or_delivers i)) middle = true ->
  Page.onStop_calls p' = Page.onStop_calls p ++ [[data]].
Proof.
  intros R F. cbn [run handle] in R.
  destruct (Page.getUserMedia_pending p) as [|n]; [discriminate|].
  set (q := startRecording_resumed starts _) in R.
  assert (Q : Page.chunks q = [] /\ Page.onStop_calls q = Page.onStop_calls p)
    by (subst q; destruct starts; now split).
  destruct Q as [Qc Qo]. clearbody q.
  assert (S : forall l x y, run (l ++ [final_events r data]) x = Some y ->
                exists z, run l x = Some z /\ handle (final_events r data) z = Some y).
  { clear. induction l as [|i l IH]; intros x y R;
      simpl app in R; cbn [run] in R |- *.
    - destruct (handle (final_events r data) x) as [z|] eqn:H; [|discriminate].
      injection R as <-. now exists x.
    - destruct (handle i x) as [x'|]; [|discriminate]. now apply IH. }
  destruct (S middle q p' R) as (z & Rz & H).
  destruct (chunks_kept middle q z Rz F) as [Zc Zo].
  cbn in H. destruct (Page.recorders z !! r) as [[s [|]]|]; try discriminate.
  injection H as <-. cbn. now rewrite Zc, Zo, Qc, Qo.
Qed.

Lemma upload_holds_the_data_of_the_recording_witness :
  run (getUserMedia_granted true
         :: [elapse 8000; timeout 0] ++ [final_events 0 example_data])
    (startRecording (loaded_page "Start Session 🎤" "")) = Some delivered_page
  /\ forallb (fun i => negb (resets_or_delivers i)) [elapse 8000; timeout 0] = true
  /\ Page.onStop_calls delivered_page
     = Page.onStop_calls (startRecording (loaded_page "Start Session 🎤" ""))
       ++ [[example_data]].
Proof.
  assert (R : run (getUserMedia_granted true
                     :: [elapse 8000; timeout 0] ++ [final_events 0 example_data])
                (startRecording (loaded_page "Start Session 🎤" ""))
              = Some delivered_page) by (vm_compute; reflexivity).
  split; [exact R | split; [reflexivity |]].
  exact (upload_holds_the_data_of_the_recording _ _ _ _ _ _ R eq_refl).
Defined.
